(** * Cell segmentation and edge-intensity quantification

    A shallow embedding of [segment_intensity_batch.py] and
    [segment_intensity_demo.py]: seeded-watershed cell segmentation with an
    intensity-threshold filter, followed by the "edge intensity" average.

    Arrays are two-dimensional NumPy arrays in row-major order.  Pixel
    intensities are [float64] values: rationals, the two infinities and
    NaN, with every arithmetic result rounded to binary64 (to nearest, ties
    to even, gradual underflow, overflow to infinity) and sums taken in
    NumPy's pairwise order.  The sign of zero is not kept.
    The scikit-image primitives whose behaviour is numerical analysis
    (Gaussian smoothing, local minima, connected components, watershed) are
    an interface [ImageLib]; the NumPy and scikit-image helpers whose
    behaviour is combinatorial ([np.unique], [regionprops],
    [relabel_sequential], boolean-mask indexing) are executable models. *)

From Stdlib Require Import String.
From Stdlib Require Import Ascii DecimalString.
From Stdlib Require DecimalNat.
From Stdlib Require Import List ZArith QArith Lia Bool Sorted Arith.
Import ListNotations.
Close Scope Q_scope.
Open Scope nat_scope.

(** ** Python exceptions and results *)

Inductive exn : Type :=
| ValueError
| IndexError
| TypeError
| AttributeError
| ZeroDivisionError
| UnboundLocalError (name : string).

Inductive result (A : Type) : Type :=
| Ok (a : A)
| Raise (e : exn).
Arguments Ok {A} a.
Arguments Raise {A} e.

Definition rbind {A B} (r : result A) (k : A -> result B) : result B :=
  match r with
  | Ok a => k a
  | Raise e => Raise e
  end.

Declare Scope result_scope.
Delimit Scope result_scope with result.
Notation "x <- r ;; k" := (rbind r (fun x => k))
  (at level 61, r at next level, right associativity) : result_scope.

(** ** float64 *)

Inductive float64 : Type :=
| Fin (q : Q)
| PInf
| NInf
| NaN.

(** The exponent of the last place of the binary64 numbers around [n / d],
    for positive [n] and [d]: 52 below the exponent of [n / d], and at least
    -1074, where the subnormal numbers lie. *)
Definition ulp_exponent (n d : Z) : Z :=
  let l := (Z.log2 n - Z.log2 d)%Z in
  let k :=
    if (d * 2 ^ Z.max 0 l <=? n * 2 ^ Z.max 0 (- l))%Z then l
    else (l - 1)%Z in
  Z.max (-1074) (k - 52).

(** The integer nearest to [n / (d * 2 ^ e)], ties to even. *)
Definition round_at (e n d : Z) : Z :=
  let N := (n * 2 ^ Z.max 0 (- e))%Z in
  let D := (d * 2 ^ Z.max 0 e)%Z in
  let m := (N / D)%Z in
  match (2 * (N mod D) ?= D)%Z with
  | Lt => m
  | Gt => (m + 1)%Z
  | Eq => if Z.even m then m else (m + 1)%Z
  end.

(** [m * 2 ^ e], in lowest terms. *)
Definition dyadic (m e : Z) : Q :=
  Qred ((m * 2 ^ Z.max 0 e) # Z.to_pos (2 ^ Z.max 0 (- e))).

(** Rounding to binary64: to nearest, ties to even, with gradual underflow;
    a result of magnitude [2 ^ 1024] or more is an infinity. *)
Definition round64 (q : Q) : float64 :=
  let n := Qnum (Qred q) in
  let d := Zpos (Qden (Qred q)) in
  if (n =? 0)%Z then Fin 0
  else
    let e := ulp_exponent (Z.abs n) d in
    let m := round_at e (Z.abs n) d in
    if (971 <? e)%Z || ((e =? 971)%Z && (2 ^ 53 <=? m)%Z)
    then if (0 <? n)%Z then PInf else NInf
    else Fin (dyadic (Z.sgn n * m) e).

Definition fneg (a : float64) : float64 :=
  match a with
  | Fin q => Fin (- q)%Q
  | PInf => NInf
  | NInf => PInf
  | NaN => NaN
  end.

Definition fadd (a b : float64) : float64 :=
  match a, b with
  | NaN, _ | _, NaN => NaN
  | Fin x, Fin y => round64 (x + y)%Q
  | PInf, NInf | NInf, PInf => NaN
  | PInf, _ | _, PInf => PInf
  | NInf, _ | _, NInf => NInf
  end.

Definition fsub (a b : float64) : float64 := fadd a (fneg b).

Definition Qpositive (q : Q) : bool := negb (Qle_bool q 0).

Definition fdiv (a b : float64) : float64 :=
  match a, b with
  | NaN, _ | _, NaN => NaN
  | Fin x, Fin y =>
      if Qeq_bool y 0 then
        if Qeq_bool x 0 then NaN else if Qpositive x then PInf else NInf
      else round64 (x / y)%Q
  | Fin _, (PInf | NInf) => Fin 0
  | (PInf | NInf), (PInf | NInf) => NaN
  | PInf, Fin y => if Qle_bool 0 y then PInf else NInf
  | NInf, Fin y => if Qle_bool 0 y then NInf else PInf
  end.

(** [a > b]; every comparison with NaN is false. *)
Definition fgt (a b : float64) : bool :=
  match a, b with
  | NaN, _ | _, NaN => false
  | Fin x, Fin y => negb (Qle_bool x y)
  | PInf, PInf => false
  | PInf, _ => true
  | NInf, _ => false
  | Fin _, NInf => true
  | Fin _, PInf => false
  end.

(** NumPy's [minimum] and [maximum] propagate NaN. *)
Definition fmin (a b : float64) : float64 :=
  match a, b with
  | NaN, _ | _, NaN => NaN
  | _, _ => if fgt a b then b else a
  end.

Definition fmax (a b : float64) : float64 :=
  match a, b with
  | NaN, _ | _, NaN => NaN
  | _, _ => if fgt b a then b else a
  end.

(** ** NumPy arrays *)

Record ndarray (A : Type) : Type := mk_ndarray {
  nrows : nat;
  ncols : nat;
  data : list A
}.
Arguments mk_ndarray {A} nrows ncols data.
Arguments nrows {A} n.
Arguments ncols {A} n.
Arguments data {A} n.

Definition shape {A} (a : ndarray A) : nat * nat := (nrows a, ncols a).

(** The buffer holds exactly [nrows * ncols] elements. *)
Definition wf {A} (a : ndarray A) : Prop :=
  length (data a) = nrows a * ncols a.

Definition wfb {A} (a : ndarray A) : bool :=
  length (data a) =? nrows a * ncols a.

Definition shape_eqb {A B} (a : ndarray A) (b : ndarray B) : bool :=
  (nrows a =? nrows b) && (ncols a =? ncols b).

(** [a[r, c]] on an in-range coordinate. *)
Definition getitem {A} (d : A) (a : ndarray A) (rc : nat * nat) : A :=
  nth (fst rc * ncols a + snd rc) (data a) d.

(** Elementwise operation, as in [image > 0] or [a - a.min()]. *)
Definition amap {A B} (f : A -> B) (a : ndarray A) : ndarray B :=
  mk_ndarray (nrows a) (ncols a) (map f (data a)).

(** [np.zeros_like(a, dtype=...)]. *)
Definition zeros_like {A B} (zero : B) (a : ndarray A) : ndarray B :=
  mk_ndarray (nrows a) (ncols a) (repeat zero (length (data a))).

(** [a[mask]] for a boolean mask of the shape of [a]: the selected elements
    in row-major order. *)
Definition mask_select {A} (a : ndarray A) (mask : ndarray bool) : list A :=
  map fst (filter snd (combine (data a) (data mask))).

(** [a[mask] = v] for a boolean mask of the shape of [a]. *)
Definition mask_assign {A} (a : ndarray A) (mask : ndarray bool) (v : A)
  : ndarray A :=
  mk_ndarray (nrows a) (ncols a)
    (map (fun xm : A * bool => if snd xm then v else fst xm)
         (combine (data a) (data mask))).

Fixpoint set_nth {A} (i : nat) (v : A) (l : list A) : list A :=
  match l, i with
  | [], _ => []
  | _ :: t, O => v :: t
  | x :: t, S j => x :: set_nth j v t
  end.

(** [a[rows, cols] = v] with integer index arrays: an index outside the
    array raises [IndexError]. *)
Definition index_assign {A} (a : ndarray A) (coords : list (nat * nat)) (v : A)
  : result (ndarray A) :=
  if forallb (fun rc : nat * nat => (fst rc <? nrows a) && (snd rc <? ncols a))
       coords
  then Ok (mk_ndarray (nrows a) (ncols a)
             (fold_left (fun l (rc : nat * nat) =>
                           set_nth (fst rc * ncols a + snd rc) v l)
                        coords (data a)))
  else Raise IndexError.

(** [r[j] += a[j]] for the accumulators of the unrolled loop (eight of each
    where the loop is used). *)
Fixpoint add_all (r a : list float64) : list float64 :=
  match r, a with
  | x :: r', y :: a' => fadd x y :: add_all r' a'
  | _, [] => r
  | [], _ => a
  end.

(** The unrolled loop: [blocks] times, the next eight elements are added to
    the accumulators.  Returns the accumulators and what is left. *)
Fixpoint unrolled (blocks : nat) (r a : list float64)
  : list float64 * list float64 :=
  match blocks with
  | O => (r, a)
  | S k => unrolled k (add_all r (firstn 8 a)) (skipn 8 a)
  end.

Definition sum8 (r : list float64) : float64 :=
  match r with
  | [r0; r1; r2; r3; r4; r5; r6; r7] =>
      fadd (fadd (fadd r0 r1) (fadd r2 r3)) (fadd (fadd r4 r5) (fadd r6 r7))
  | _ => fold_left fadd r (Fin 0)
  end.

(** A block of 8 to 128 elements: eight accumulators over the multiples of
    eight, their sum by pairs, then the rest one by one. *)
Definition block_sum (a : list float64) : float64 :=
  let '(r, rest) :=
    unrolled (length a / 8 - 1) (firstn 8 a) (skipn 8 a) in
  fold_left fadd rest (sum8 r).

(** NumPy's pairwise summation, the inner loop of [np.add.reduce] on
    float64: fewer than 8 elements are added one by one, up to 128 by
    [block_sum], more are split in two parts, the first a multiple of eight
    long.  The recursion halves the array; [fuel] bounds its depth. *)
Fixpoint pairwise_sum (fuel : nat) (a : list float64) : float64 :=
  let n := length a in
  if n <? 8 then fold_left fadd a (Fin 0)
  else if n <=? 128 then block_sum a
  else
    match fuel with
    | O => block_sum a
    | S fuel' =>
        let n2 := n / 2 - (n / 2) mod 8 in
        fadd (pairwise_sum fuel' (firstn n2 a))
             (pairwise_sum fuel' (skipn n2 a))
    end.

(** [np.add.reduce] of a one-dimensional float64 array: the pairwise sum
    is added to the identity. *)
Definition np_sum (l : list float64) : float64 :=
  fadd (Fin 0) (pairwise_sum (length l) l).

(** [np.mean] of a one-dimensional selection: the sum over the count; the
    empty selection gives 0/0, which is NaN (NumPy warns, it does not
    raise). *)

Definition np_mean (l : list float64) : float64 :=
  fdiv (np_sum l) (Fin (inject_Z (Z.of_nat (length l)))).

(** [a.min()] and [a.max()]: a zero-size array raises [ValueError]. *)
Definition np_min (a : ndarray float64) : result float64 :=
  match data a with
  | [] => Raise ValueError
  | x :: t => Ok (fold_left fmin t x)
  end.

Definition np_max (a : ndarray float64) : result float64 :=
  match data a with
  | [] => Raise ValueError
  | x :: t => Ok (fold_left fmax t x)
  end.

(** [np.unique]: the distinct values in ascending order. *)
Fixpoint insert_unique (x : Z) (l : list Z) : list Z :=
  match l with
  | [] => [x]
  | y :: t =>
      if (x <? y)%Z then x :: l
      else if (x =? y)%Z then l
      else y :: insert_unique x t
  end.

Definition np_unique (l : list Z) : list Z := fold_right insert_unique [] l.

(** ** More float64 and integer helpers *)

(** [a == b] on floats: NaN equals nothing, itself included. *)
Definition feq (a b : float64) : bool :=
  match a, b with
  | Fin x, Fin y => Qeq_bool x y
  | PInf, PInf | NInf, NInf => true
  | _, _ => false
  end.

(** [np.min] of an integer array: a zero-size array raises [ValueError]. *)
Definition int_min (l : list Z) : result Z :=
  match l with
  | [] => Raise ValueError
  | x :: t => Ok (fold_left Z.min t x)
  end.

Fixpoint index_of (v : Z) (l : list Z) : nat :=
  match l with
  | [] => 0
  | y :: t => if (v =? y)%Z then 0 else S (index_of v t)
  end.

(** ** scikit-image: region properties and sequential relabelling *)

(** A region of a label image: its label, the coordinates of its pixels and
    the intensity image it was built with (properties are computed on
    access). *)
Record RegionProperties : Type := mk_region {
  region_label : Z;
  coords : list (nat * nat);
  intensity_image : option (ndarray float64)
}.

(** The [(row, col)] coordinates of the pixels carrying label [l], in
    row-major order. *)
Definition argwhere (label_image : ndarray Z) (l : Z) : list (nat * nat) :=
  map (fun i => (i / ncols label_image, i mod ncols label_image))
      (filter (fun i => (nth i (data label_image) 0 =? l)%Z)
              (seq 0 (length (data label_image)))).

(** [regionprops(label_image, intensity_image=...)]: one region per distinct
    positive label, in ascending label order; label 0 and negative values
    are ignored.  The objects are found first, which takes the maximum of
    the label image and so raises [ValueError] on a zero-size one.  Building
    a region checks that the intensity image has the shape of the label
    image. *)
Definition regionprops (label_image : ndarray Z)
    (intensity : option (ndarray float64)) : result (list RegionProperties) :=
  match data label_image with
  | [] => Raise ValueError
  | _ :: _ =>
      let regions :=
        map (fun l => mk_region l (argwhere label_image l) intensity)
            (filter (Z.ltb 0) (np_unique (data label_image))) in
      match regions, intensity with
      | _ :: _, Some img =>
          if shape_eqb img label_image then Ok regions else Raise ValueError
      | _, _ => Ok regions
      end
  end.

(** [region.mean_intensity]: the mean of the intensity image over the
    region's pixels. *)
Definition mean_intensity (region : RegionProperties) : result float64 :=
  match intensity_image region with
  | None => Raise AttributeError
  | Some img => Ok (np_mean (map (getitem NaN img) (coords region)))
  end.

(** [relabel_sequential(label_field)] with the default offset 1: the
    distinct values, 0 first, are mapped to 0, 1, 2, ... in ascending
    order.  Returns the relabelled array and the forward and inverse
    maps. *)
Definition relabel_sequential (label_field : ndarray Z)
  : result (ndarray Z * list (Z * Z) * list (Z * Z)) :=
  (m <- int_min (data label_field) ;;
   if (m <? 0)%Z then Raise ValueError
   else
     let u := np_unique (data label_field) in
     let in_vals := match u with 0%Z :: _ => u | _ => 0%Z :: u end in
     let out_vals := 0%Z :: map Z.of_nat (seq 1 (length in_vals - 1)) in
     let out_array :=
       amap (fun v => nth (index_of v in_vals) out_vals 0%Z) label_field in
     Ok (out_array, combine in_vals out_vals, combine out_vals in_vals))%result.

(** ** scikit-image: the numerical primitives

    [gaussian(image, sigma=...)], [local_minima(image)], [label(image)] and
    [watershed(image, markers, mask=...)].  Each may raise. *)
Class ImageLib : Type := {
  gaussian : ndarray float64 -> float64 -> result (ndarray float64);
  local_minima : ndarray float64 -> result (ndarray bool);
  label : ndarray bool -> result (ndarray Z);
  watershed :
    ndarray float64 -> ndarray Z -> ndarray bool -> result (ndarray Z)
}.

(** What the pipeline relies on, from the primitives' documentation:
    smoothing returns an array of the shape of its input; watershed returns
    an array of the shape of its image in which only points where the mask
    is true are labelled. *)
Class ImageLibContract (lib : ImageLib) : Prop := {
  gaussian_shape : forall img sigma out,
    wf img -> gaussian img sigma = Ok out ->
    wf out /\ shape out = shape img;
  watershed_shape : forall img markers mask out,
    wf img -> watershed img markers mask = Ok out ->
    wf out /\ shape out = shape img;
  watershed_mask : forall img markers mask out i,
    watershed img markers mask = Ok out ->
    nth i (data mask) false = false -> nth i (data out) 0%Z = 0%Z
}.

(** ** Logging, local variables and [try]/[except] *)

Inductive log_record : Type :=
| LogInfo (msg : string)
| LogError (msg : string) (e : exn).

Section TryMonad.
Variable L : Type.

(** The local variables that are read after the [try] statement, and the
    process-wide log. *)
Definition frame : Type := (L * list log_record)%type.

Definition M (A : Type) : Type := frame -> result A * frame.

Definition ret {A} (a : A) : M A := fun s => (Ok a, s).

Definition bind {A B} (m : M A) (k : A -> M B) : M B :=
  fun s =>
    match m s with
    | (Ok a, s') => k a s'
    | (Raise e, s') => (Raise e, s')
    end.

(** A library call: it raises or returns, and touches no local. *)
Definition call {A} (r : result A) : M A := fun s => (r, s).

Definition assign (f : L -> L) : M unit :=
  fun s => (Ok tt, (f (fst s), snd s)).

Definition logging_info (msg : string) : M unit :=
  fun s => (Ok tt, (fst s, snd s ++ [LogInfo msg])).

Definition logging_error (msg : string) (e : exn) : M unit :=
  fun s => (Ok tt, (fst s, snd s ++ [LogError msg e])).

(** [try: body except Exception as e: handler e]: the locals bound before
    the exception stay bound. *)
Definition try_except (body : M unit) (handler : exn -> M unit) : M unit :=
  fun s =>
    match body s with
    | (Ok _, s') => (Ok tt, s')
    | (Raise e, s') => handler e s'
    end.

(** Reading a local variable: [UnboundLocalError] when it was never
    assigned. *)
Definition read_local {A} (name : string) (get : L -> option A) : M A :=
  fun s =>
    match get (fst s) with
    | Some a => (Ok a, s)
    | None => (Raise (UnboundLocalError name), s)
    end.
End TryMonad.

Arguments ret {L A} a.
Arguments bind {L A B} m k.
Arguments call {L A} r.
Arguments assign {L} f.
Arguments logging_info {L} msg.
Arguments logging_error {L} msg e.
Arguments try_except {L} body handler.
Arguments read_local {L A} name get.

Declare Scope try_scope.
Delimit Scope try_scope with try.
Notation "x <- m ;; k" := (bind m (fun x => k))
  (at level 61, m at next level, right associativity) : try_scope.
Notation "m ;; k" := (bind m (fun _ => k))
  (at level 61, right associativity) : try_scope.

(** ** Python strings and POSIX paths

    File names are byte strings; [str.lower] is modelled on the ASCII
    letters, which is all the suffix tests below can see. *)

Definition lower_char (c : ascii) : ascii :=
  let n := nat_of_ascii c in
  if (65 <=? n) && (n <=? 90) then ascii_of_nat (n + 32) else c.

Fixpoint lower (s : string) : string :=
  match s with
  | EmptyString => EmptyString
  | String c t => String (lower_char c) (lower t)
  end.

(** [s.endswith(suffix)]. *)
Definition endswith (s suffix : string) : bool :=
  let n := String.length s in
  let m := String.length suffix in
  (m <=? n) && String.eqb (substring (n - m) m s) suffix.

(** The line feed that ends the scripts' last message. *)
Definition newline : string := String (ascii_of_nat 10) EmptyString.

(** [name.lower().endswith(('.tif', '.tiff'))]. *)
Definition tif_extension (name : string) : bool :=
  existsb (endswith (lower name)) [".tif"; ".tiff"]%string.

(** [s.rfind(c)]: the index of the last occurrence. *)
Fixpoint rfind (c : ascii) (s : string) : option nat :=
  match s with
  | EmptyString => None
  | String x t =>
      match rfind c t with
      | Some i => Some (S i)
      | None => if Ascii.eqb x c then Some 0 else None
      end
  end.

(** [os.path.basename(p)]: what follows the last separator. *)
Definition basename (p : string) : string :=
  match rfind "/" p with
  | Some i => substring (S i) (String.length p - S i) p
  | None => p
  end.

Fixpoint all_dots (s : string) : bool :=
  match s with
  | EmptyString => true
  | String c t => Ascii.eqb c "." && all_dots t
  end.

(** [os.path.splitext(p)]: the extension starts at the last dot of the
    last component, unless only dots precede it there. *)
Definition splitext (p : string) : string * string :=
  let start := match rfind "/" p with Some i => S i | None => 0 end in
  match rfind "." p with
  | Some d =>
      if (start <=? d) && negb (all_dots (substring start (d - start) p))
      then (substring 0 d p, substring d (String.length p - d) p)
      else (p, EmptyString)
  | None => (p, EmptyString)
  end.

(** [os.path.join(a, b)]. *)
Definition path_join (a b : string) : string :=
  match b with
  | String "/" _ => b
  | _ =>
      if (String.length a =? 0) || endswith a "/"
      then (a ++ b)%string
      else (a ++ "/" ++ b)%string
  end.

(** [f'{i}'] for a non-negative integer. *)
Definition decimal (i : nat) : string :=
  NilEmpty.string_of_uint (Nat.to_uint i).

(** ** The scripts' [main] functions: state and process log *)

(** A record of the process log: one written with an exception or at level
    INFO, as above, or an error message logged on its own. *)
Inductive process_record : Type :=
| Logged (r : log_record)
| ErrorMessage (msg : string).

Section ScriptMonad.
Variable S : Type.

(** What a script changes (the files it writes, the viewer it fills) and
    the process log.  An exception leaves both as they were when it was
    raised. *)
Definition process : Type := (S * list process_record)%type.

Definition Script (A : Type) : Type := process -> result A * process.

Definition done {A} (a : A) : Script A := fun p => (Ok a, p).

Definition andthen {A B} (m : Script A) (k : A -> Script B) : Script B :=
  fun p =>
    match m p with
    | (Ok a, p') => k a p'
    | (Raise e, p') => (Raise e, p')
    end.

Definition attempt {A} (r : result A) : Script A := fun p => (r, p).

Definition update (f : S -> S) : Script unit :=
  fun p => (Ok tt, (f (fst p), snd p)).

Definition info (msg : string) : Script unit :=
  fun p => (Ok tt, (fst p, snd p ++ [Logged (LogInfo msg)])).

Definition error (msg : string) : Script unit :=
  fun p => (Ok tt, (fst p, snd p ++ [ErrorMessage msg])).

(** A call of one of the functions above: what it logs goes to the process
    log. *)
Definition logged {A}
    (f : list log_record -> result A * list log_record) : Script A :=
  fun p =>
    let '(r, records) := f [] in
    (r, (fst p, snd p ++ map Logged records)).
End ScriptMonad.

Arguments done {S A} a.
Arguments andthen {S A B} m k.
Arguments attempt {S A} r.
Arguments update {S} f.
Arguments info {S} msg.
Arguments error {S} msg.
Arguments logged {S A} f.

Declare Scope script_scope.
Delimit Scope script_scope with script.
Notation "x <- m ;; k" := (andthen m (fun x => k))
  (at level 61, m at next level, right associativity) : script_scope.
Notation "m ;; k" := (andthen m (fun _ => k))
  (at level 61, right associativity) : script_scope.

(** A cell and a row of a CSV file. *)
Inductive cell : Type :=
| Text (s : string)
| Number (x : float64).

Definition row : Type := list cell.

(** ** segment_intensity_batch.py *)

Module Batch.
Section WithLib.
Context {lib : ImageLib}.

(** The loop over the regions of [outlines]: a region whose mean
    intensity exceeds the threshold is copied into [labels] under its own
    label. *)
Fixpoint threshold_loop (regions : list RegionProperties)
    (outlines : ndarray Z) (threshold : float64) (labels : ndarray Z)
  : result (ndarray Z) :=
  match regions with
  | [] => Ok labels
  | region :: rest =>
      (mean <- mean_intensity region ;;
       let labels' :=
         if fgt mean threshold
         then mask_assign labels
                (amap (fun v => (v =? region_label region)%Z) outlines)
                (region_label region)
         else labels in
       threshold_loop rest outlines threshold labels')%result
  end.

(** The body of the [try] block; the only local read afterwards is
    [filtered_labels].  [np.asarray(image, dtype=np.float64)] is the
    identity on the images of the model. *)
Definition segmentation_body (image : ndarray float64)
    (spot_sigma outline_sigma threshold : float64)
  : M (option (ndarray Z)) unit :=
  (spot_blurred <- call (gaussian image spot_sigma) ;;
   outline_blurred <-
     call (gaussian image
             (if negb (feq outline_sigma spot_sigma)
              then outline_sigma else spot_sigma)) ;;
   minima <- call (local_minima spot_blurred) ;;
   spots <- call (label minima) ;;
   outlines <-
     call (watershed outline_blurred spots
             (amap (fun x => fgt x (Fin 0)) image)) ;;
   let labels := zeros_like 0%Z outlines in
   regions <- call (regionprops outlines (Some image)) ;;
   labels <- call (threshold_loop regions outlines threshold labels) ;;
   relabelled <- call (relabel_sequential labels) ;;
   assign (fun _ => Some (fst (fst relabelled))) ;;
   logging_info "Successfully segmented image!")%try.

(** The value the [try] block binds to [filtered_labels], as a plain
    result: the same calls in the same order, without locals and log. *)
Definition segmentation_steps (image : ndarray float64)
    (spot_sigma outline_sigma threshold : float64) : result (ndarray Z) :=
  (spot_blurred <- gaussian image spot_sigma ;;
   outline_blurred <-
     gaussian image
       (if negb (feq outline_sigma spot_sigma)
        then outline_sigma else spot_sigma) ;;
   minima <- local_minima spot_blurred ;;
   spots <- label minima ;;
   outlines <-
     watershed outline_blurred spots (amap (fun x => fgt x (Fin 0)) image) ;;
   regions <- regionprops outlines (Some image) ;;
   labels <-
     threshold_loop regions outlines threshold (zeros_like 0%Z outlines) ;;
   relabelled <- relabel_sequential labels ;;
   Ok (fst (fst relabelled)))%result.

Definition cell_segmentation (image : ndarray float64)
    (spot_sigma outline_sigma threshold : float64)
    (log : list log_record) : result (ndarray Z) * list log_record :=
  let '(r, (_, log')) :=
    (try_except
       (segmentation_body image spot_sigma outline_sigma threshold)
       (fun e => logging_error "Error segmenting image" e) ;;
     read_local "filtered_labels" (fun filtered_labels => filtered_labels)
    )%try (None, log) in
  (r, log').

(** The two halves of [segmentation_steps].  The watershed labels of a
    run: the calls of the [try] block up to [watershed], which binds
    [outlines]. *)
Definition watershed_labels (image : ndarray float64)
    (spot_sigma outline_sigma : float64) : result (ndarray Z) :=
  (spot_blurred <- gaussian image spot_sigma ;;
   outline_blurred <-
     gaussian image
       (if negb (feq outline_sigma spot_sigma)
        then outline_sigma else spot_sigma) ;;
   minima <- local_minima spot_blurred ;;
   spots <- label minima ;;
   watershed outline_blurred spots (amap (fun x => fgt x (Fin 0)) image)
  )%result.

(** The filter, from [np.zeros_like(outlines)] to [relabel_sequential]. *)
Definition threshold_filter (image : ndarray float64) (outlines : ndarray Z)
    (threshold : float64) : result (ndarray Z) :=
  (regions <- regionprops outlines (Some image) ;;
   labels <-
     threshold_loop regions outlines threshold (zeros_like 0%Z outlines) ;;
   relabelled <- relabel_sequential labels ;;
   Ok (fst (fst relabelled)))%result.
End WithLib.

(** The loop over the regions of [labels]: every pixel of every region is
    set to 1 in [perimeters]. *)
Fixpoint perimeter_loop (regions : list RegionProperties)
    (perimeters : ndarray float64) : result (ndarray float64) :=
  match regions with
  | [] => Ok perimeters
  | region :: rest =>
      (perimeters' <- index_assign perimeters (coords region) (Fin 1) ;;
       perimeter_loop rest perimeters')%result
  end.

(** The body of the [try] block; the only local read afterwards is
    [edge_intensity]. *)
Definition quantification_body (image : ndarray float64) (labels : ndarray Z)
  : M (option float64) unit :=
  (let perimeters := zeros_like (Fin 0) image in
   regions <- call (regionprops labels None) ;;
   perimeters <- call (perimeter_loop regions perimeters) ;;
   let edge_intensity :=
     np_mean (mask_select image (amap (fun x => fgt x (Fin 0)) perimeters)) in
   assign (fun _ => Some edge_intensity) ;;
   logging_info "Successfully analyzed image!")%try.

Definition quantify_edge_intensity (image : ndarray float64)
    (labels : ndarray Z) (log : list log_record)
  : result float64 * list log_record :=
  let '(r, (_, log')) :=
    (try_except (quantification_body image labels)
       (fun e => logging_error "Error analyzing image" e) ;;
     read_local "edge_intensity" (fun edge_intensity => edge_intensity)
    )%try (None, log) in
  (r, log').

Section Script.
Context {lib : ImageLib}.

(** The command-line arguments of the batch script. *)
Record arguments : Type := mk_arguments {
  input : string;
  spot : float64;
  outline : float64;
  threshold : float64
}.

(** What [main] asks of its environment: [os.path.abspath],
    [os.path.isdir], [os.listdir], opening the results file for writing
    and [imread]. *)
Record environment : Type := mk_environment {
  abspath : string -> string;
  isdir : string -> bool;
  listdir : string -> list string;
  open_results : string -> result unit;
  imread : string -> result (ndarray float64)
}.

Definition header : row :=
  [Text "Image Name"; Text "Average Edge Intensity"].

(** The loop over the directory listing; the state is the rows written to
    [results.csv] so far. *)
Fixpoint process_files (env : environment) (args : arguments)
    (input_dir : string) (files : list string) : Script (list row) unit :=
  match files with
  | [] => done tt
  | input_fn :: rest =>
      (info ("Processing image: " ++ input_fn)%string ;;
       if negb (tif_extension input_fn)
       then
         error
           "The input file does not have a .tif or .tiff extension. Skipping." ;;
         process_files env args input_dir rest
       else
         let input_path := path_join input_dir input_fn in
         image <- attempt (imread env input_path) ;;
         info "Segmenting image..." ;;
         filtered_labels <-
           logged (cell_segmentation image (spot args) (outline args)
                     (threshold args)) ;;
         info "Analyzing image..." ;;
         edge_intensity <-
           logged (quantify_edge_intensity image filtered_labels) ;;
         update (fun rows => rows ++ [[Text input_fn; Number edge_intensity]]) ;;
         info "Average edge intensity" ;;
         info ("Complete!" ++ newline)%string ;;
         process_files env args input_dir rest)%script
  end.

(** [main()], after the arguments are parsed.  Opening the results file
    truncates it; the rows written stay in it when an exception leaves the
    [with] block. *)
Definition main (env : environment) (args : arguments)
  : Script (list row) unit :=
  let input_dir := abspath env (input args) in
  if negb (isdir env input_dir)
  then error "The input directory does not exist."
  else
    let input_files := listdir env input_dir in
    let results_path := path_join input_dir "results.csv" in
    (attempt (open_results env results_path) ;;
     update (fun _ => []) ;;
     update (fun rows => rows ++ [header]) ;;
     process_files env args input_dir (listdir env input_dir))%script.
End Script.
End Batch.

(** ** segment_intensity_demo.py *)

Module Demo.

(** The locals of [cell_segmentation] that its [return] statement reads. *)
Record locals : Type := mk_locals {
  filtered_labels : option (ndarray Z);
  spot_blurred : option (ndarray float64);
  outline_blurred : option (ndarray float64);
  spots : option (ndarray Z);
  outlines : option (ndarray Z)
}.

Definition unbound : locals := mk_locals None None None None None.

Definition set_filtered_labels (v : ndarray Z) (l : locals) : locals :=
  mk_locals (Some v) (spot_blurred l) (outline_blurred l) (spots l)
    (outlines l).
Definition set_spot_blurred (v : ndarray float64) (l : locals) : locals :=
  mk_locals (filtered_labels l) (Some v) (outline_blurred l) (spots l)
    (outlines l).
Definition set_outline_blurred (v : ndarray float64) (l : locals) : locals :=
  mk_locals (filtered_labels l) (spot_blurred l) (Some v) (spots l)
    (outlines l).
Definition set_spots (v : ndarray Z) (l : locals) : locals :=
  mk_locals (filtered_labels l) (spot_blurred l) (outline_blurred l) (Some v)
    (outlines l).
Definition set_outlines (v : ndarray Z) (l : locals) : locals :=
  mk_locals (filtered_labels l) (spot_blurred l) (outline_blurred l) (spots l)
    (Some v).

(** [(original_image - original_image.min()) /
     (original_image.max() - original_image.min())]. *)
Definition normalized_image (original_image : ndarray float64)
  : result (ndarray float64) :=
  (lo <- np_min original_image ;;
   hi <- np_max original_image ;;
   lo' <- np_min original_image ;;
   Ok (amap (fun x => fdiv (fsub x lo) (fsub hi lo')) original_image))%result.

(** Python's built-in [min] and [max] over a list: the empty list raises
    [ValueError]. *)
Definition py_min (l : list float64) : result float64 :=
  match l with
  | [] => Raise ValueError
  | x :: t => Ok (fold_left (fun m y => if fgt m y then y else m) t x)
  end.

Definition py_max (l : list float64) : result float64 :=
  match l with
  | [] => Raise ValueError
  | x :: t => Ok (fold_left (fun m y => if fgt y m then y else m) t x)
  end.

(** Python's [/] on floats: a zero divisor raises. *)
Definition py_div (a b : float64) : result float64 :=
  if feq b (Fin 0) then Raise ZeroDivisionError else Ok (fdiv a b).

Section WithLib.
Context {lib : ImageLib}.

(** The loop over the regions of [outlines]; it also collects the
    regions' mean intensities. *)
Fixpoint threshold_loop (regions : list RegionProperties)
    (outlines : ndarray Z) (threshold : float64)
    (labels : ndarray Z) (intensities : list float64)
  : result (ndarray Z * list float64) :=
  match regions with
  | [] => Ok (labels, intensities)
  | region :: rest =>
      (region_intensity <- mean_intensity region ;;
       let intensities' := intensities ++ [region_intensity] in
       let labels' :=
         if fgt region_intensity threshold
         then mask_assign labels
                (amap (fun v => (v =? region_label region)%Z) outlines)
                (region_label region)
         else labels in
       threshold_loop rest outlines threshold labels' intensities')%result
  end.

(** The body of the [try] block.  The logged values are left out of the
    log records, but the calls that compute them are made, since
    [original_image.min()] and [min(intensities)] may raise. *)
Definition segmentation_body (image : ndarray float64)
    (spot_sigma outline_sigma threshold : float64) : M locals unit :=
  (let original_image := image in
   logging_info "Image shape" ;;
   lo <- call (np_min original_image) ;;
   logging_info "Minimum original image intensity" ;;
   hi <- call (np_max original_image) ;;
   logging_info "Maximum original image intensity" ;;
   logging_info "Average original image intensity" ;;
   normalized <- call (normalized_image original_image) ;;
   nlo <- call (np_min normalized) ;;
   logging_info "Minimum normalized image intensity" ;;
   nhi <- call (np_max normalized) ;;
   logging_info "Maximum normalized image intensity" ;;
   logging_info "Average normalized image intensity" ;;
   blurred <- call (gaussian normalized spot_sigma) ;;
   assign (set_spot_blurred blurred) ;;
   outline <-
     call (gaussian normalized
             (if negb (feq outline_sigma spot_sigma)
              then outline_sigma else spot_sigma)) ;;
   assign (set_outline_blurred outline) ;;
   minima <- call (local_minima blurred) ;;
   seeds <- call (label minima) ;;
   assign (set_spots seeds) ;;
   logging_info "Number of unique spots" ;;
   flooded <-
     call (watershed outline seeds
             (amap (fun x => fgt x (Fin 0)) normalized)) ;;
   assign (set_outlines flooded) ;;
   logging_info "Number of unique outlines" ;;
   let labels := zeros_like 0%Z flooded in
   regions <- call (regionprops flooded (Some normalized)) ;;
   looped <- call (threshold_loop regions flooded threshold labels []) ;;
   let labels := fst looped in
   let intensities := snd looped in
   relabelled <- call (relabel_sequential labels) ;;
   assign (set_filtered_labels (fst (fst relabelled))) ;;
   logging_info "Number of unique labels" ;;
   smallest <- call (py_min intensities) ;;
   logging_info "Minimum label intensity" ;;
   largest <- call (py_max intensities) ;;
   logging_info "Maximum label intensity" ;;
   average <-
     call (py_div (fold_left fadd intensities (Fin 0))
             (Fin (inject_Z (Z.of_nat (length intensities))))) ;;
   logging_info "Average label intensity" ;;
   logging_info "Successfully segmented image!")%try.

(** The values the [try] block binds to the five returned locals, as a
    plain result: the calls up to the binding of [filtered_labels], in the
    same order. *)
Definition segmentation_steps (image : ndarray float64)
    (spot_sigma outline_sigma threshold : float64)
  : result (ndarray Z * ndarray float64 * ndarray float64
            * ndarray Z * ndarray Z) :=
  (lo <- np_min image ;;
   hi <- np_max image ;;
   normalized <- normalized_image image ;;
   nlo <- np_min normalized ;;
   nhi <- np_max normalized ;;
   blurred <- gaussian normalized spot_sigma ;;
   outline <-
     gaussian normalized
       (if negb (feq outline_sigma spot_sigma)
        then outline_sigma else spot_sigma) ;;
   minima <- local_minima blurred ;;
   seeds <- label minima ;;
   flooded <-
     watershed outline seeds (amap (fun x => fgt x (Fin 0)) normalized) ;;
   regions <- regionprops flooded (Some normalized) ;;
   looped <-
     threshold_loop regions flooded threshold (zeros_like 0%Z flooded) [] ;;
   relabelled <- relabel_sequential (fst looped) ;;
   Ok (fst (fst relabelled), blurred, outline, seeds, flooded))%result.

(** [return filtered_labels, spot_blurred, outline_blurred, spots,
    outlines]: the names are read from left to right. *)
Definition cell_segmentation (image : ndarray float64)
    (spot_sigma outline_sigma threshold : float64)
    (log : list log_record)
  : result (ndarray Z * ndarray float64 * ndarray float64
            * ndarray Z * ndarray Z)
    * list log_record :=
  let '(r, (_, log')) :=
    (try_except
       (segmentation_body image spot_sigma outline_sigma threshold)
       (fun e => logging_error "Error segmenting image" e) ;;
     a <- read_local "filtered_labels" filtered_labels ;;
     b <- read_local "spot_blurred" spot_blurred ;;
     c <- read_local "outline_blurred" outline_blurred ;;
     d <- read_local "spots" spots ;;
     e <- read_local "outlines" outlines ;;
     ret (a, b, c, d, e))%try (unbound, log) in
  (r, log').
End WithLib.

(** The body of the [try] block of [quantify_edge_intensity]; it differs
    from the batch script's by the logged overall mean. *)
Definition quantification_body (image : ndarray float64) (labels : ndarray Z)
  : M (option float64) unit :=
  (let perimeters := zeros_like (Fin 0) image in
   regions <- call (regionprops labels None) ;;
   perimeters <- call (Batch.perimeter_loop regions perimeters) ;;
   let overall_intensity := np_mean (data image) in
   logging_info "Average overall intensity" ;;
   let edge_intensity :=
     np_mean (mask_select image (amap (fun x => fgt x (Fin 0)) perimeters)) in
   logging_info "Average edge intensity" ;;
   assign (fun _ => Some edge_intensity) ;;
   logging_info "Successfully analyzed image!")%try.

Definition quantify_edge_intensity (image : ndarray float64)
    (labels : ndarray Z) (log : list log_record)
  : result float64 * list log_record :=
  let '(r, (_, log')) :=
    (try_except (quantification_body image labels)
       (fun e => logging_error "Error analyzing image" e) ;;
     read_local "edge_intensity" (fun edge_intensity => edge_intensity)
    )%try (None, log) in
  (r, log').

Section Script.
Context {lib : ImageLib}.

(** The command-line arguments of the demo script. *)
Record arguments : Type := mk_arguments {
  input : string;
  spot : float64;
  outline : float64;
  threshold : float64
}.

(** What [main] asks of its environment: [os.path.abspath],
    [os.path.exists] and [imread]. *)
Record environment : Type := mk_environment {
  abspath : string -> string;
  path_exists : string -> bool;
  imread : string -> result (ndarray float64)
}.

(** A layer of the napari viewer. *)
Inductive layer : Type :=
| ImageLayer (name : string) (image : ndarray float64)
| LabelsLayer (name : string) (labels : ndarray Z).

(** [main()], after the arguments are parsed; the state is the layers of
    the viewer.  The extension test logs and goes on. *)
Definition main (env : environment) (args : arguments)
  : Script (list layer) unit :=
  let input_path := abspath env (input args) in
  if negb (path_exists env input_path)
  then error "The input file does not exist or is not a file."
  else
    ((if negb (tif_extension input_path)
      then error "The input file does not have a .tif or .tiff extension."
      else done tt) ;;
     let input_fn := fst (splitext (basename input_path)) in
     input_image <- attempt (imread env input_path) ;;
     info "Segmenting image..." ;;
     segmented <-
       logged (cell_segmentation input_image (spot args) (outline args)
                 (threshold args)) ;;
     let '(labels, blurred, outlined, seeds, flooded) := segmented in
     info "Analyzing image..." ;;
     edge_intensity <- logged (quantify_edge_intensity input_image labels) ;;
     info "Opening in Napari" ;;
     update (fun _ => []) ;;
     update (fun layers => layers ++ [ImageLayer "Original Image" input_image]) ;;
     update (fun layers => layers ++ [ImageLayer "Spot Blurred" blurred]) ;;
     update (fun layers => layers ++ [ImageLayer "Outline Blurred" outlined]) ;;
     update (fun layers => layers ++ [LabelsLayer "Cells" labels]) ;;
     update (fun layers => layers ++ [LabelsLayer "Spots" seeds]) ;;
     update (fun layers => layers ++ [LabelsLayer "Outlines" flooded]) ;;
     info ("Complete!" ++ newline)%string)%script.
End Script.
End Demo.

(** ** split_tif.py *)

Module SplitTif.
Section WithFrames.
Variable Frame : Type.

(** What [split_tif] asks of its environment: [Image.open], which gives
    the frames of a TIFF file, and [tif.save], which may raise. *)
Record environment : Type := mk_environment {
  image_open : string -> result (list Frame);
  save : string -> Frame -> result unit
}.

(** The files written so far, by path. *)
Definition files : Type := string -> option Frame.

Definition write (path : string) (frame : Frame) (written : files) : files :=
  fun q => if String.eqb q path then Some frame else written q.

(** The loop over [range(tif.n_frames)]: [tif.seek(i)] selects frame [i],
    which is saved under [{input_fn}_{i}.tif]. *)
Fixpoint save_frames (env : environment) (output_dir input_fn : string)
    (frames : list (nat * Frame)) : M files unit :=
  match frames with
  | [] => ret tt
  | (i, frame) :: rest =>
      (let output_path :=
         path_join output_dir (input_fn ++ "_" ++ decimal i ++ ".tif") in
       call (save env output_path frame) ;;
       assign (write output_path frame) ;;
       save_frames env output_dir input_fn rest)%try
  end.

Definition split_body (env : environment) (input_path output_dir : string)
  : M files unit :=
  (let input_fn := fst (splitext (basename input_path)) in
   tif <- call (image_open env input_path) ;;
   save_frames env output_dir input_fn (combine (seq 0 (length tif)) tif) ;;
   logging_info
     ("Successfully split and saved images to " ++ output_dir)%string)%try.

Definition split_tif (env : environment) (input_path output_dir : string)
  : M files unit :=
  try_except (split_body env input_path output_dir)
    (fun e => logging_error "Error splitting TIF file" e).

(** The command-line arguments of the script. *)
Record arguments : Type := mk_arguments {
  input : string;
  output : string
}.

(** What [main] asks of the file system: [os.path.abspath],
    [os.path.isfile], [os.path.isdir] and [os.makedirs], which may raise. *)
Record filesystem : Type := mk_filesystem {
  abspath : string -> string;
  isfile : string -> bool;
  isdir : string -> bool;
  makedirs : string -> result unit
}.

(** The call of [split_tif] in [main]: the state of [main] is the files
    written and the directories created. *)
Definition splitting (env : environment) (input_path output_dir : string)
  : Script (files * list string) unit :=
  fun p =>
    let '(r, (written, records)) :=
      split_tif env input_path output_dir (fst (fst p), []) in
    (r, ((written, snd (fst p)), snd p ++ map Logged records)).

(** [main()], after the arguments are parsed.  Both tests on the input path
    return. *)
Definition main (fs : filesystem) (env : environment) (args : arguments)
  : Script (files * list string) unit :=
  let input_path := abspath fs (input args) in
  let output_dir := abspath fs (output args) in
  if negb (isfile fs input_path)
  then error "The input file does not exist or is not a file."
  else if negb (tif_extension input_path)
  then error "The input file does not have a .tif or .tiff extension."
  else
    ((if negb (isdir fs output_dir)
      then
        info ("The output directory does not exist. Creating new directory at "
              ++ output_dir ++ ".")%string ;;
        attempt (makedirs fs output_dir) ;;
        update (fun s => (fst s, snd s ++ [output_dir]))
      else done tt) ;;
     info "Splitting file..." ;;
     splitting env input_path output_dir ;;
     info ("Complete!" ++ newline)%string)%script.
End WithFrames.
End SplitTif.

(** ** Specification-side notions *)

(** The intensities of the pixels that carry a positive label, in row-major
    order. *)
Definition labelled_pixels (image : ndarray float64) (labels : ndarray Z)
  : list float64 :=
  map fst (filter (fun p : float64 * Z => (0 <? snd p)%Z)
             (combine (data image) (data labels))).

(** The intensities of the pixels of the region labelled [l]. *)
Definition region_pixels (image : ndarray float64) (labels : ndarray Z)
    (l : Z) : list float64 :=
  map fst (filter (fun p : float64 * Z => (snd p =? l)%Z)
             (combine (data image) (data labels))).







(** The mean a region is filtered on, as [mean_intensity] computes it from
    the region's coordinates. *)
Definition region_mean (image : ndarray float64) (outlines : ndarray Z)
    (l : Z) : float64 :=
  np_mean (map (getitem NaN image) (argwhere outlines l)).

(** The filter's decision on label [l]: a region, and its mean exceeds the
    threshold. *)
Definition retained (image : ndarray float64) (outlines : ndarray Z)
    (threshold : float64) (l : Z) : bool :=
  (0 <? l)%Z && fgt (region_mean image outlines l) threshold.

(** What the threshold filter leaves of the watershed labels [outlines] in
    the returned map [filtered], judged on the means under [intensity]: a
    region whose mean does not exceed the threshold is zeroed out; a region
    whose mean exceeds it keeps exactly its pixels, under one positive
    label. *)
Definition threshold_filtered (intensity : ndarray float64)
    (outlines : ndarray Z) (threshold : float64) (filtered : ndarray Z)
  : Prop :=
  forall l, (0 < l)%Z -> In l (data outlines) ->
    (fgt (np_mean (region_pixels intensity outlines l)) threshold = false ->
     forall i, nth i (data outlines) 0%Z = l ->
               nth i (data filtered) 0%Z = 0%Z)
    /\ (fgt (np_mean (region_pixels intensity outlines l)) threshold = true ->
        exists l', (0 < l')%Z /\
          forall i, i < length (data outlines) ->
            (nth i (data outlines) 0%Z = l <-> nth i (data filtered) 0%Z = l')).

(** What the batch script measures on the file [name] of its input
    directory: the file is read, segmented and quantified; any of the three
    may raise. *)
Definition edge_intensity_of {lib : ImageLib} (env : Batch.environment)
    (args : Batch.arguments) (name : string) : result float64 :=
  (image <-
     Batch.imread env
       (path_join (Batch.abspath env (Batch.input args)) name) ;;
   filtered_labels <-
     fst (Batch.cell_segmentation image (Batch.spot args)
            (Batch.outline args) (Batch.threshold args) []) ;;
   fst (Batch.quantify_edge_intensity image filtered_labels []))%result.

(** The data row of [results.csv] for a measured file. *)
Definition data_row {lib : ImageLib} (env : Batch.environment)
    (args : Batch.arguments) (name : string) (r : row) : Prop :=
  exists v, edge_intensity_of env args name = Ok v
            /\ r = [Text name; Number v].

(** The path [split_tif] saves frame [i] under. *)
Definition frame_path (input_path output_dir : string) (i : nat) : string :=
  path_join output_dir
    (fst (splitext (basename input_path)) ++ "_" ++ decimal i ++ ".tif").

(** A float64 that is a number and not negative, plus infinity included. *)
Definition nonnegative (x : float64) : Prop :=
  x = PInf \/ exists q, x = Fin q /\ (0 <= q)%Q.

(** K, the number of distinct positive labels of a label map. *)
Definition count_labels (m : ndarray Z) : nat :=
  length (filter (Z.ltb 0) (np_unique (data m))).

(** A label map is densely labelled up to [K]: its values lie in [0..K] and
    each of [1..K] occurs. *)
Definition dense_labels (m : ndarray Z) (K : nat) : Prop :=
  (forall v, In v (data m) -> (0 <= v <= Z.of_nat K)%Z) /\
  (forall k, (1 <= k <= Z.of_nat K)%Z -> In k (data m)).

(** ** A small implementation of the primitives

    Smoothing with a vanishing kernel, the global minima of a non-constant
    image as seeds, one seed label per minimum, and a flood that carries the
    last seed along the raster.  It is used to run the pipeline on concrete
    images. *)
Definition raster_gaussian (img : ndarray float64) (sigma : float64)
  : result (ndarray float64) :=
  if fgt (Fin 0) sigma then Raise ValueError else Ok img.

Definition raster_local_minima (img : ndarray float64)
  : result (ndarray bool) :=
  Ok (amap (fun x =>
              forallb (fun y => negb (fgt x y)) (data img)
              && existsb (fun y => fgt y x) (data img)) img).

Fixpoint number_from (k : Z) (l : list bool) : list Z :=
  match l with
  | [] => []
  | true :: t => k :: number_from (k + 1)%Z t
  | false :: t => 0%Z :: number_from k t
  end.

Definition raster_label (mask : ndarray bool) : result (ndarray Z) :=
  Ok (mk_ndarray (nrows mask) (ncols mask) (number_from 1%Z (data mask))).

Fixpoint raster_flood (current : Z) (l : list (Z * bool)) : list Z :=
  match l with
  | [] => []
  | (m, b) :: t =>
      let current' := if (0 <? m)%Z then m else current in
      (if b then current' else 0%Z) :: raster_flood current' t
  end.

Definition raster_watershed (img : ndarray float64) (markers : ndarray Z)
    (mask : ndarray bool) : result (ndarray Z) :=
  if shape_eqb markers img && shape_eqb mask img
     && wfb img && wfb markers && wfb mask
  then Ok (mk_ndarray (nrows img) (ncols img)
             (raster_flood 0%Z (combine (data markers) (data mask))))
  else Raise ValueError.

Definition raster_lib : ImageLib := {|
  gaussian := raster_gaussian;
  local_minima := raster_local_minima;
  label := raster_label;
  watershed := raster_watershed
|}.

(** Concrete images. *)

(** The image [1, 5, 9, 1, 7, 3], normalised. *)
Definition sample_normalized : ndarray float64 :=
  mk_ndarray 1 6
    [Fin 0; Fin (1 # 2); Fin 1; Fin 0; Fin (3 # 4); Fin (1 # 4)].




Definition row_image (qs : list Q) : ndarray float64 :=
  mk_ndarray 1 (length qs) (map Fin qs).

Definition square_image (q : Q) : ndarray float64 :=
  mk_ndarray 2 2 (repeat (Fin q) 4).

(** A directory for the batch script: [a.tif] and [c.TIFF] hold images,
    [bad.tif] cannot be read. *)
Definition sample_directory (listing : list string) : Batch.environment :=
  Batch.mk_environment
    (fun p => p)
    (fun d => String.eqb d "/data")
    (fun _ => listing)
    (fun _ => Ok tt)
    (fun p =>
       if String.eqb p "/data/a.tif"
       then Ok (row_image [1; 5; 9; 1; 7; 3]%Q)
       else if String.eqb p "/data/c.TIFF"
            then Ok (row_image [2; 0; 5; 1]%Q)
            else Raise ValueError).

Definition sample_arguments : Batch.arguments :=
  Batch.mk_arguments "/data" (Fin 6) (Fin 3) (Fin (1 # 10)).

(** A file for the demo script, whatever its name. *)
Definition sample_file (path : string) : Demo.environment :=
  Demo.mk_environment
    (fun p => p)
    (fun p => String.eqb p path)
    (fun p =>
       if String.eqb p path
       then Ok (row_image [1; 5; 9; 1; 7; 3]%Q)
       else Raise ValueError).

(** A two-frame TIFF file whose frames are numbers; every save succeeds
    unless the path is [forbidden]. *)
Definition sample_tiff (forbidden : string) : SplitTif.environment nat :=
  SplitTif.mk_environment nat
    (fun p => if String.eqb p "/in/stack.tif" then Ok [10; 20]
              else Raise ValueError)
    (fun p _ => if String.eqb p forbidden then Raise ValueError else Ok tt).

(** * Properties *)

(** ** Rounding to binary64 *)

Lemma round64_compat (p q : Q) : (p == q)%Q -> round64 p = round64 q.
Proof.
  intros H. unfold round64. now rewrite (Qred_complete p q H).
Qed.

Lemma round64_zero (q : Q) : (q == 0)%Q -> round64 q = Fin 0.
Proof.
  intros H. now rewrite (round64_compat q 0 H).
Qed.

Lemma round_at_nonneg (e n d : Z) :
  (0 <= n)%Z -> (0 < d)%Z -> (0 <= round_at e n d)%Z.
Proof.
  intros Hn Hd. unfold round_at.
  assert (H : (0 <= n * 2 ^ Z.max 0 (- e) / (d * 2 ^ Z.max 0 e))%Z).
  { apply Z.div_pos; [|].
    - apply Z.mul_nonneg_nonneg; [exact Hn|]. apply Z.pow_nonneg. lia.
    - apply Z.mul_pos_pos; [exact Hd|]. apply Z.pow_pos_nonneg; lia. }
  destruct (_ ?= _)%Z; [destruct (Z.even _)| |]; lia.
Qed.

Lemma dyadic_value (m e : Z) :
  (dyadic m e == (m * 2 ^ Z.max 0 e) # Z.to_pos (2 ^ Z.max 0 (- e)))%Q.
Proof.
  unfold dyadic. apply Qred_correct.
Qed.

Lemma Qnum_Qred_sign (q : Q) :
  (0 <= q)%Q -> (0 <= Qnum (Qred q))%Z.
Proof.
  intros H. rewrite <- (Qred_correct q) in H.
  unfold Qle in H. simpl in H. lia.
Qed.

(** Rounding keeps the sign: a number that is not negative rounds to one
    that is not negative, or to plus infinity. *)
Lemma round64_nonneg (q : Q) :
  (0 <= q)%Q ->
  round64 q = PInf \/ exists q', round64 q = Fin q' /\ (0 <= q')%Q.
Proof.
  intros H. apply Qnum_Qred_sign in H. unfold round64.
  destruct (Z.eqb_spec (Qnum (Qred q)) 0) as [_|Hnz].
  - right. exists 0%Q. split; [reflexivity|apply Qle_refl].
  - assert (Hpos : (0 < Qnum (Qred q))%Z) by lia.
    destruct (_ || _).
    + left. apply Z.ltb_lt in Hpos. now rewrite Hpos.
    + right. eexists. split; [reflexivity|].
      rewrite dyadic_value. unfold Qle. simpl.
      rewrite Z.mul_1_r. apply Z.mul_nonneg_nonneg; [|apply Z.pow_nonneg; lia].
      apply Z.mul_nonneg_nonneg; [rewrite Z.sgn_pos by exact Hpos; lia|].
      apply round_at_nonneg; [lia|reflexivity].
Qed.



(** ** Sums of float64 *)

(** Inside [block_sum] the accumulators stay eight: the loop only consumes
    whole blocks of eight. *)
Lemma add_all_length : forall r a : list float64,
  length a = length r -> length (add_all r a) = length r.
Proof.
  induction r as [|x r IH]; intros [|y a] H; simpl in *; try lia.
  now rewrite IH by lia.
Qed.

Lemma unrolled_length : forall blocks (r a : list float64),
  length r = 8 -> 8 * blocks <= length a ->
  length (fst (unrolled blocks r a)) = 8.
Proof.
  induction blocks as [|k IH]; intros r a Hr Ha; cbn [unrolled];
    [exact Hr|].
  apply IH.
  - rewrite add_all_length; [exact Hr|]. rewrite length_firstn. lia.
  - rewrite length_skipn. lia.
Qed.

Lemma block_sum_accumulators (a : list float64) :
  8 <= length a ->
  length (fst (unrolled (length a / 8 - 1) (firstn 8 a) (skipn 8 a))) = 8.
Proof.
  intros H. apply unrolled_length.
  - rewrite length_firstn. lia.
  - rewrite length_skipn.
    pose proof (Nat.div_mod_eq (length a) 8). lia.
Qed.

(** The recursion of [pairwise_sum] ends before the fuel does: with at
    least as much fuel as elements the result does not depend on it. *)
Lemma pairwise_sum_fuel : forall fuel1 fuel2 (a : list float64),
  length a <= fuel1 -> length a <= fuel2 ->
  pairwise_sum fuel1 a = pairwise_sum fuel2 a.
Proof.
  induction fuel1 as [|f1 IH]; intros [|f2] a H1 H2; cbn [pairwise_sum];
    destruct (Nat.ltb_spec (length a) 8) as [|H8]; try reflexivity;
    destruct (Nat.leb_spec (length a) 128) as [|H128]; try reflexivity;
    try lia.
  pose proof (Nat.div_mod_eq (length a) 2) as Hd.
  pose proof (Nat.mod_upper_bound (length a) 2) as Hm.
  pose proof (Nat.mod_upper_bound (length a / 2) 8) as Hm8.
  f_equal; apply IH; rewrite ?length_firstn, ?length_skipn; lia.
Qed.

Section SumClosure.
Variable P : float64 -> Prop.
Hypothesis P_zero : P (Fin 0).
Hypothesis P_add : forall x y, P x -> P y -> P (fadd x y).

Lemma fold_fadd_closed : forall l x,
  P x -> Forall P l -> P (fold_left fadd l x).
Proof.
  induction l as [|y l IH]; intros x Hx Hl; simpl; [exact Hx|].
  inversion Hl; subst. apply IH; auto.
Qed.

Lemma add_all_closed : forall r a,
  Forall P r -> Forall P a -> Forall P (add_all r a).
Proof.
  induction r as [|x r IH]; intros [|y a] Hr Ha; simpl; auto.
  inversion Hr; inversion Ha; subst. constructor; auto.
Qed.

Lemma Forall_take {A} (Q : A -> Prop) (n : nat) (l : list A) :
  Forall Q l -> Forall Q (firstn n l).
Proof.
  intros H. rewrite <- (firstn_skipn n l) in H.
  now apply Forall_app in H.
Qed.

Lemma Forall_drop {A} (Q : A -> Prop) (n : nat) (l : list A) :
  Forall Q l -> Forall Q (skipn n l).
Proof.
  intros H. rewrite <- (firstn_skipn n l) in H.
  now apply Forall_app in H.
Qed.

Lemma unrolled_closed : forall blocks r a,
  Forall P r -> Forall P a ->
  Forall P (fst (unrolled blocks r a)) /\ Forall P (snd (unrolled blocks r a)).
Proof.
  induction blocks as [|k IH]; intros r a Hr Ha; cbn [unrolled];
    [now split|].
  apply IH.
  - apply add_all_closed; [exact Hr|now apply Forall_take].
  - now apply Forall_drop.
Qed.

Lemma sum8_closed (r : list float64) : Forall P r -> P (sum8 r).
Proof.
  intros Hr. unfold sum8.
  destruct r as [|r0 [|r1 [|r2 [|r3 [|r4 [|r5 [|r6 [|r7 [|r8 r]]]]]]]]];
    try (apply fold_fadd_closed; [exact P_zero|exact Hr]).
  repeat match goal with
         | H : Forall P (_ :: _) |- _ => inversion H; clear H; subst
         end.
  auto.
Qed.

Lemma block_sum_closed (a : list float64) : Forall P a -> P (block_sum a).
Proof.
  intros Ha. unfold block_sum.
  destruct (unrolled_closed (length a / 8 - 1) (firstn 8 a) (skipn 8 a))
    as [H1 H2]; [now apply Forall_take|now apply Forall_drop|].
  destruct (unrolled _ _ _) as [r rest]. cbn [fst snd] in *.
  apply fold_fadd_closed; [now apply sum8_closed|exact H2].
Qed.

Lemma pairwise_sum_closed : forall fuel a,
  Forall P a -> P (pairwise_sum fuel a).
Proof.
  induction fuel as [|fuel IH]; intros a Ha; cbn [pairwise_sum];
    destruct (length a <? 8);
    try (apply fold_fadd_closed; [exact P_zero|exact Ha]);
    destruct (length a <=? 128); try now apply block_sum_closed.
  apply P_add; apply IH; [now apply Forall_take|now apply Forall_drop].
Qed.

(** Whatever additions of float64 keep, the sum of an array keeps. *)
Lemma np_sum_closed (l : list float64) : Forall P l -> P (np_sum l).
Proof.
  intros Hl. apply P_add; [exact P_zero|now apply pairwise_sum_closed].
Qed.
End SumClosure.
























(** ** Lists, indices and selections *)

Lemma filter_map_comm {A B} (f : A -> B) (p : B -> bool) (l : list A) :
  filter p (map f l) = map f (filter (fun x => p (f x)) l).
Proof.
  induction l as [|x l IH]; simpl; [reflexivity|].
  destruct (p (f x)); simpl; now rewrite IH.
Qed.

(** Selecting by index and selecting by zipping agree. *)
Lemma select_by_index {A B} (p : B -> bool) (dA : A) (dB : B) :
  forall (a : list A) (b : list B),
    length a = length b ->
    map (fun i => nth i a dA)
        (filter (fun i => p (nth i b dB)) (seq 0 (length b)))
    = map fst (filter (fun xb : A * B => p (snd xb)) (combine a b)).
Proof.
  induction a as [|x a IH]; intros [|y b] Hlen; simpl in *;
    try discriminate; [reflexivity|].
  injection Hlen as Hlen.
  rewrite <- seq_shift, filter_map_comm.
  destruct (p y); simpl; rewrite map_map; simpl; [f_equal|]; now apply IH.
Qed.

Lemma select_map {A B} (f : B -> bool) :
  forall (a : list A) (xs : list B),
    map fst (filter snd (combine a (map f xs)))
    = map fst (filter (fun p : A * B => f (snd p)) (combine a xs)).
Proof.
  induction a as [|x a IH]; intros [|y xs]; simpl; try reflexivity.
  destruct (f y); simpl; now rewrite IH.
Qed.

Lemma length_set_nth {A} (v : A) : forall i l,
  length (set_nth i v l) = length l.
Proof.
  induction i as [|i IH]; intros [|x l]; simpl; auto.
Qed.

Lemma nth_set_nth {A} (v d : A) : forall i l j,
  nth j (set_nth i v l) d
  = if (i =? j) && (i <? length l) then v else nth j l d.
Proof.
  induction i as [|i IH]; intros [|x l] j; simpl.
  - destruct j; simpl; now rewrite ?andb_false_r.
  - destruct j; reflexivity.
  - destruct j; simpl; now rewrite ?andb_false_r.
  - destruct j as [|j]; [reflexivity|]. rewrite IH. reflexivity.
Qed.

Lemma length_mark {A} (v : A) : forall idxs l,
  length (fold_left (fun l i => set_nth i v l) idxs l) = length l.
Proof.
  induction idxs as [|i idxs IH]; intros l; simpl; [reflexivity|].
  now rewrite IH, length_set_nth.
Qed.

(** After setting the positions [idxs] to [v], position [j] holds [v] when
    it is one of them and is unchanged otherwise. *)
Lemma nth_mark {A} (v d : A) : forall idxs l j,
  nth j (fold_left (fun l i => set_nth i v l) idxs l) d
  = if existsb (Nat.eqb j) idxs && (j <? length l) then v else nth j l d.
Proof.
  induction idxs as [|i idxs IH]; intros l j; simpl; [reflexivity|].
  rewrite IH, length_set_nth, nth_set_nth.
  rewrite (Nat.eqb_sym j i).
  destruct (i =? j) eqn:E; simpl.
  - apply Nat.eqb_eq in E. subst j.
    destruct (i <? length l), (existsb (Nat.eqb i) idxs); reflexivity.
  - reflexivity.
Qed.

Lemma unravel_ravel (c i : nat) : 0 < c -> i / c * c + i mod c = i.
Proof.
  intros Hc. rewrite Nat.mul_comm. symmetry. apply Nat.div_mod_eq.
Qed.

(** In a well-formed non-empty array the column count is positive and every
    flat index unravels to an in-range coordinate. *)
Lemma wf_index_bounds {A} (a : ndarray A) (i : nat) :
  wf a -> i < length (data a) ->
  0 < ncols a /\ i / ncols a < nrows a /\ i mod ncols a < ncols a.
Proof.
  unfold wf. intros Hwf Hi. rewrite Hwf in Hi.
  assert (Hc : 0 < ncols a) by (destruct (ncols a); lia).
  split; [exact Hc|]. split.
  - apply Nat.Div0.div_lt_upper_bound. now rewrite Nat.mul_comm.
  - apply Nat.mod_upper_bound. lia.
Qed.

(** ** [np.unique] *)

Lemma In_insert_unique (x z : Z) : forall l,
  In z (insert_unique x l) <-> z = x \/ In z l.
Proof.
  induction l as [|y l IH]; simpl.
  - intuition.
  - destruct (x <? y)%Z eqn:E1; [simpl; intuition|].
    destruct (x =? y)%Z eqn:E2.
    + apply Z.eqb_eq in E2. subst. simpl. intuition.
    + simpl. rewrite IH. intuition.
Qed.

Lemma In_np_unique (z : Z) : forall l, In z (np_unique l) <-> In z l.
Proof.
  induction l as [|x l IH]; simpl; [reflexivity|].
  rewrite In_insert_unique, IH. intuition.
Qed.

Lemma insert_unique_sorted (x : Z) : forall l,
  StronglySorted Z.lt l -> StronglySorted Z.lt (insert_unique x l).
Proof.
  induction l as [|y l IH]; intros Hs; simpl.
  - constructor; constructor.
  - inversion Hs as [|? ? Hs' Hall]; subst.
    destruct (x <? y)%Z eqn:E1.
    + apply Z.ltb_lt in E1. constructor; [exact Hs|].
      constructor; [exact E1|].
      eapply Forall_impl; [|exact Hall]. simpl. intros; lia.
    + destruct (x =? y)%Z eqn:E2; [exact Hs|].
      apply Z.ltb_ge in E1. apply Z.eqb_neq in E2.
      constructor; [now apply IH|].
      apply Forall_forall. intros z Hz.
      apply In_insert_unique in Hz. destruct Hz as [->|Hz]; [lia|].
      rewrite Forall_forall in Hall. now apply Hall.
Qed.

Lemma np_unique_sorted : forall l, StronglySorted Z.lt (np_unique l).
Proof.
  induction l as [|x l IH]; simpl; [constructor|].
  now apply insert_unique_sorted.
Qed.

Lemma sorted_NoDup : forall l : list Z, StronglySorted Z.lt l -> NoDup l.
Proof.
  induction l as [|x l IH]; intros Hs; [constructor|].
  inversion Hs as [|? ? Hs' Hall]; subst. constructor; [|now apply IH].
  intros Hin. rewrite Forall_forall in Hall. specialize (Hall _ Hin). lia.
Qed.

(** The labels of the regions of a label image: its distinct positive
    values. *)
Lemma In_region_labels (a : list Z) (l : Z) :
  In l (filter (Z.ltb 0) (np_unique a)) <-> In l a /\ (0 < l)%Z.
Proof.
  rewrite filter_In, In_np_unique, Z.ltb_lt. reflexivity.
Qed.

(** ** The Quantifier *)

Lemma regionprops_no_intensity (labels : ndarray Z) :
  data labels <> [] ->
  regionprops labels None
  = Ok (map (fun l => mk_region l (argwhere labels l) None)
          (filter (Z.ltb 0) (np_unique (data labels)))).
Proof.
  intros Hne. unfold regionprops.
  destruct (data labels) eqn:E; [contradiction|]. rewrite <- E.
  destruct (map _ (filter (Z.ltb 0) (np_unique (data labels))));
    reflexivity.
Qed.

(** A zero-size label image has no maximum. *)
Lemma regionprops_zero_size (labels : ndarray Z)
    (intensity : option (ndarray float64)) :
  data labels = [] -> regionprops labels intensity = Raise ValueError.
Proof.
  intros E. unfold regionprops. now rewrite E.
Qed.

(** On a zero-size label map [quantify_edge_intensity] logs the
    [ValueError] of [regionprops]; its return statement then finds
    [edge_intensity] unbound. *)
Lemma quantify_edge_intensity_zero_size (image : ndarray float64)
    (labels : ndarray Z) (log : list log_record) :
  data labels = [] ->
  Batch.quantify_edge_intensity image labels log
  = (Raise (UnboundLocalError "edge_intensity"),
     log ++ [LogError "Error analyzing image" ValueError]).
Proof.
  intros E.
  unfold Batch.quantify_edge_intensity, Batch.quantification_body,
    try_except, bind, call, logging_error, read_local.
  now rewrite (regionprops_zero_size labels None E).
Qed.

Lemma fold_left_map_in {A B C} (f : A -> C -> A) (f' : A -> B -> A)
    (g : B -> C) : forall l a,
  (forall a x, In x l -> f a (g x) = f' a x) ->
  fold_left f (map g l) a = fold_left f' l a.
Proof.
  induction l as [|x l IH]; intros a H; simpl; [reflexivity|].
  rewrite H by now left. apply IH. intros; apply H; now right.
Qed.

Lemma existsb_eqb_filter_seq (q : nat -> bool) (n j : nat) :
  existsb (Nat.eqb j) (filter q (seq 0 n)) = q j && (j <? n).
Proof.
  apply eq_true_iff_eq. rewrite existsb_exists, andb_true_iff, Nat.ltb_lt.
  split.
  - intros [i [Hin Heq]]. apply Nat.eqb_eq in Heq. subst i.
    apply filter_In in Hin. destruct Hin as [Hin Hq].
    apply in_seq in Hin. split; [exact Hq|lia].
  - intros [Hq Hlt]. exists j. split; [|apply Nat.eqb_refl].
    apply filter_In. split; [apply in_seq; lia|exact Hq].
Qed.

(** Marking the pixels of one region: the assignment through the region's
    coordinates succeeds and sets exactly the flat positions of the
    region. *)
Lemma index_assign_argwhere {A} (labels : ndarray Z) (p : ndarray A)
    (l : Z) (v : A) :
  wf labels -> shape p = shape labels ->
  index_assign p (argwhere labels l) v
  = Ok (mk_ndarray (nrows p) (ncols p)
          (fold_left (fun d i => set_nth i v d)
             (filter (fun i => (nth i (data labels) 0 =? l)%Z)
                (seq 0 (length (data labels))))
             (data p))).
Proof.
  intros Hwf Hshape. unfold shape in Hshape.
  injection Hshape as Hr Hc.
  unfold index_assign, argwhere.
  assert (Hb : forallb
                 (fun rc : nat * nat =>
                    (fst rc <? nrows p) && (snd rc <? ncols p))
                 (map (fun i => (i / ncols labels, i mod ncols labels))
                    (filter (fun i => (nth i (data labels) 0 =? l)%Z)
                       (seq 0 (length (data labels))))) = true).
  { apply forallb_forall. intros rc Hin.
    apply in_map_iff in Hin. destruct Hin as [i [<- Hin]].
    apply filter_In in Hin. destruct Hin as [Hin _].
    apply in_seq in Hin.
    destruct (wf_index_bounds labels i Hwf) as [_ [H1 H2]]; [lia|].
    simpl. rewrite Hr, Hc.
    apply andb_true_iff. split; now apply Nat.ltb_lt. }
  rewrite Hb. f_equal. f_equal.
  apply fold_left_map_in. intros d i Hin. simpl.
  apply filter_In in Hin. destruct Hin as [Hin _]. apply in_seq in Hin.
  destruct (wf_index_bounds labels i Hwf) as [H0 _]; [lia|].
  rewrite Hc. now rewrite unravel_ravel.
Qed.

(** The loop over the regions marks exactly the pixels whose label is one
    of the regions' labels. *)
Lemma perimeter_loop_spec (labels : ndarray Z) :
  wf labels ->
  forall ls p,
    shape p = shape labels ->
    exists p',
      Batch.perimeter_loop
        (map (fun l => mk_region l (argwhere labels l) None) ls) p = Ok p'
      /\ shape p' = shape p
      /\ length (data p') = length (data p)
      /\ forall j,
          nth j (data p') NaN
          = if existsb (fun l => (nth j (data labels) 0 =? l)%Z) ls
               && (j <? length (data labels)) && (j <? length (data p))
            then Fin 1 else nth j (data p) NaN.
Proof.
  intros Hwf. induction ls as [|l ls IH]; intros p Hshape; simpl.
  - exists p. repeat split; reflexivity.
  - rewrite (index_assign_argwhere labels p l (Fin 1) Hwf Hshape). simpl.
    set (p1 := mk_ndarray (nrows p) (ncols p) _).
    destruct (IH p1) as [p' [Hrun [Hs [Hl Hn]]]]; [exact Hshape|].
    exists p'. split; [exact Hrun|]. split; [exact Hs|].
    assert (Hl1 : length (data p1) = length (data p))
      by (unfold p1; simpl; apply length_mark).
    split; [now rewrite Hl, Hl1|].
    intros j. rewrite Hn, Hl1. unfold p1 at 1. simpl.
    rewrite nth_mark, existsb_eqb_filter_seq.
    destruct (nth j (data labels) 0 =? l)%Z,
             (existsb (fun l0 => (nth j (data labels) 0 =? l0)%Z) ls),
             (j <? length (data labels)), (j <? length (data p));
      reflexivity.
Qed.

Lemma wf_same_length {A B} (a : ndarray A) (b : ndarray B) :
  wf a -> wf b -> shape a = shape b -> length (data a) = length (data b).
Proof.
  unfold wf, shape. intros Ha Hb Hs. injection Hs as Hr Hc. congruence.
Qed.

Lemma nth_map_default {A B} (f : A -> B) (l : list A) (d : A) (d' : B)
    (j : nat) :
  f d = d' -> nth j (map f l) d' = f (nth j l d).
Proof.
  intros <-. apply map_nth.
Qed.

(** The mask [perimeters > 0] built by the loop is the mask [labels > 0]. *)
Lemma perimeter_mask (image : ndarray float64) (labels : ndarray Z) p' :
  wf labels -> length (data image) = length (data labels) ->
  length (data p') = length (data image) ->
  (forall j,
     nth j (data p') NaN
     = if existsb (fun l => (nth j (data labels) 0 =? l)%Z)
            (filter (Z.ltb 0) (np_unique (data labels)))
          && (j <? length (data labels))
          && (j <? length (data (zeros_like (B:=float64) (Fin 0) image)))
       then Fin 1
       else nth j (data (zeros_like (B:=float64) (Fin 0) image)) NaN) ->
  map (fun x => fgt x (Fin 0)) (data p') = map (Z.ltb 0) (data labels).
Proof.
  intros Hwf Hlen Hl Hn.
  apply (nth_ext _ _ false false); [rewrite !length_map; congruence|].
  intros j Hj. rewrite length_map in Hj.
  rewrite (nth_map_default _ _ NaN) by reflexivity.
  rewrite (nth_map_default _ _ 0%Z) by reflexivity.
  rewrite Hn. simpl. rewrite repeat_length.
  assert (Hj1 : j < length (data image)) by lia.
  assert (Hj2 : j < length (data labels)) by lia.
  apply Nat.ltb_lt in Hj1, Hj2. rewrite Hj1, Hj2, !andb_true_r.
  apply Nat.ltb_lt in Hj1, Hj2.
  destruct (existsb _ _) eqn:E.
  - apply existsb_exists in E. destruct E as [l [Hin Heq]].
    apply Z.eqb_eq in Heq. apply In_region_labels in Hin.
    rewrite Heq. symmetry. apply Z.ltb_lt. tauto.
  - rewrite nth_repeat_lt by exact Hj1. simpl. symmetry.
    apply Z.ltb_ge. destruct (Z.ltb_spec 0 (nth j (data labels) 0%Z)) as [Hp|]; [|lia].
    exfalso. apply Bool.not_true_iff_false in E. apply E.
    apply existsb_exists. exists (nth j (data labels) 0%Z).
    split; [|apply Z.eqb_refl].
    apply In_region_labels. split; [now apply nth_In|exact Hp].
Qed.

(** What [quantify_edge_intensity] computes on an image and a label map of
    its shape: the mean over the pixels with a positive label. *)
Lemma quantify_edge_intensity_spec (image : ndarray float64)
    (labels : ndarray Z) (log : list log_record) :
  wf image -> wf labels -> shape labels = shape image ->
  data labels <> [] ->
  Batch.quantify_edge_intensity image labels log
  = (Ok (np_mean (labelled_pixels image labels)),
     log ++ [LogInfo "Successfully analyzed image!"]).
Proof.
  intros Hwi Hwl Hshape Hne.
  assert (Hlen : length (data image) = length (data labels))
    by (apply wf_same_length; auto).
  destruct (perimeter_loop_spec labels Hwl
              (filter (Z.ltb 0) (np_unique (data labels)))
              (zeros_like (Fin 0) image))
    as [p' [Hrun [Hs [Hl Hn]]]]; [now rewrite Hshape|].
  unfold Batch.quantify_edge_intensity, Batch.quantification_body,
    try_except, bind, call, assign, logging_info, read_local.
  rewrite (regionprops_no_intensity labels Hne), Hrun. cbn [fst snd].
  do 3 f_equal. unfold mask_select, labelled_pixels, amap. cbn [data].
  rewrite (perimeter_mask image labels p' Hwl Hlen); auto.
  - apply select_map.
  - rewrite Hl. simpl. apply repeat_length.
Qed.

Lemma In_combine_r {A B} : forall (a : list A) (b : list B) y,
  length a = length b -> In y b -> exists x, In (x, y) (combine a b).
Proof.
  induction a as [|x a IH]; intros [|y' b] y Hlen Hin; simpl in *;
    try discriminate; [contradiction|].
  injection Hlen as Hlen. destruct Hin as [->|Hin].
  - exists x. now left.
  - destruct (IH b y Hlen Hin) as [x' Hx']. exists x'. now right.
Qed.

Lemma labelled_pixels_nonempty (image : ndarray float64) (labels : ndarray Z) :
  length (data image) = length (data labels) ->
  (exists v, In v (data labels) /\ (0 < v)%Z) ->
  labelled_pixels image labels <> [].
Proof.
  intros Hlen [v [Hin Hpos]] Hnil.
  destruct (In_combine_r (data image) (data labels) v Hlen Hin) as [x Hx].
  assert (Hf : In (x, v)
                 (filter (fun p : float64 * Z => (0 <? snd p)%Z)
                    (combine (data image) (data labels)))).
  { apply filter_In. split; [exact Hx|]. simpl. now apply Z.ltb_lt. }
  apply (in_map fst) in Hf. unfold labelled_pixels in Hnil.
  rewrite Hnil in Hf. exact Hf.
Qed.

Lemma filter_none {A} (f : A -> bool) : forall l,
  (forall x, In x l -> f x = false) -> filter f l = [].
Proof.
  induction l as [|x l IH]; intros H; simpl; [reflexivity|].
  rewrite (H x) by now left. apply IH. intros; apply H; now right.
Qed.

Lemma labelled_pixels_background (image : ndarray float64)
    (labels : ndarray Z) :
  (forall v, In v (data labels) -> (v <= 0)%Z) ->
  labelled_pixels image labels = [].
Proof.
  intros Hbg. unfold labelled_pixels.
  rewrite filter_none; [reflexivity|]. intros [x v] Hin.
  apply in_combine_r in Hin. specialize (Hbg v Hin). simpl.
  apply Z.ltb_ge. exact Hbg.
Qed.

(** The selection depends on the label map only through the set of its
    positively labelled pixels. *)
Lemma labelled_pixels_support (image : ndarray float64)
    (labels1 labels2 : ndarray Z) :
  wf labels1 -> wf labels2 -> shape labels1 = shape labels2 ->
  (forall r c, r < nrows labels1 -> c < ncols labels1 ->
     (0 < getitem 0 labels1 (r, c))%Z <-> (0 < getitem 0 labels2 (r, c))%Z) ->
  labelled_pixels image labels1 = labelled_pixels image labels2.
Proof.
  intros Hw1 Hw2 Hshape Hsupp.
  assert (Hlen : length (data labels1) = length (data labels2))
    by (apply wf_same_length; auto).
  unfold labelled_pixels. rewrite <- !(select_map (Z.ltb 0)).
  do 3 f_equal.
  apply (nth_ext _ _ false false); [now rewrite !length_map|].
  intros j Hj. rewrite length_map in Hj.
  rewrite !(nth_map_default _ _ 0%Z) by reflexivity.
  destruct (wf_index_bounds labels1 j Hw1 Hj) as [Hc [Hr Hm]].
  specialize (Hsupp _ _ Hr Hm). unfold getitem in Hsupp. simpl in Hsupp.
  unfold shape in Hshape. injection Hshape as _ Hcols.
  rewrite <- Hcols, unravel_ravel in Hsupp by exact Hc.
  apply eq_true_iff_eq. rewrite !Z.ltb_lt. exact Hsupp.
Qed.





(** C3, as the code behaves: on an all-background label map of the image's
    shape, [quantify_edge_intensity] returns NaN and raises nothing, unless
    the image is zero-size: then [regionprops] raises [ValueError], which
    is logged, and the caller receives [UnboundLocalError]. *)
Theorem quantify_edge_intensity_all_background :
  forall (image : ndarray float64) (labels : ndarray Z) log,
    wf image -> wf labels -> shape labels = shape image ->
    (forall v, In v (data labels) -> (v <= 0)%Z) ->
    (data image <> [] ->
     Batch.quantify_edge_intensity image labels log
     = (Ok NaN, log ++ [LogInfo "Successfully analyzed image!"]))
    /\ (data image = [] ->
        Batch.quantify_edge_intensity image labels log
        = (Raise (UnboundLocalError "edge_intensity"),
           log ++ [LogError "Error analyzing image" ValueError])).
Proof.
  intros image labels log Hwi Hwl Hshape Hbg.
  assert (Hlen : length (data image) = length (data labels))
    by (apply wf_same_length; auto).
  split.
  - intros Hne. rewrite quantify_edge_intensity_spec; try assumption.
    + now rewrite labelled_pixels_background.
    + intros E. rewrite E in Hlen. now destruct (data image).
  - intros E. apply quantify_edge_intensity_zero_size.
    rewrite E in Hlen. now destruct (data labels).
Qed.

Lemma quantify_edge_intensity_all_background_witness :
  Batch.quantify_edge_intensity (square_image 5)
    (mk_ndarray 2 2 [0; 0; 0; 0]%Z) []
  = (Ok NaN, [LogInfo "Successfully analyzed image!"]).
Proof.
  refine (proj1 (quantify_edge_intensity_all_background (square_image 5)
                   (mk_ndarray 2 2 [0; 0; 0; 0]%Z) [] _ _ _ _) _).
  - reflexivity.
  - reflexivity.
  - reflexivity.
  - intros v Hin. simpl in Hin. intuition lia.
  - discriminate.
Defined.

(** C3, as stated, fails: no exception reaches the caller of
    [quantify_edge_intensity] on an all-background map; the value is NaN. *)
Lemma quantify_edge_intensity_no_regions_nan :
  fst (Batch.quantify_edge_intensity (row_image [3; 4]%Q)
         (mk_ndarray 1 2 [0; 0]%Z) [])
  = Ok NaN.
Proof.
  reflexivity.
Qed.

(** C10: two label maps of the image's shape with the same positively
    labelled pixels give the same result, whatever the label values. *)
Theorem quantify_edge_intensity_support_only :
  forall (image : ndarray float64) (labels1 labels2 : ndarray Z) log,
    wf image -> wf labels1 -> wf labels2 ->
    shape labels1 = shape image -> shape labels2 = shape image ->
    (forall r c, r < nrows image -> c < ncols image ->
       (0 < getitem 0 labels1 (r, c))%Z <-> (0 < getitem 0 labels2 (r, c))%Z) ->
    Batch.quantify_edge_intensity image labels1 log
    = Batch.quantify_edge_intensity image labels2 log.
Proof.
  intros image labels1 labels2 log Hwi Hw1 Hw2 Hs1 Hs2 Hsupp.
  assert (Hlen : length (data labels1) = length (data labels2))
    by (apply wf_same_length; auto; congruence).
  destruct (data labels1) as [|v1 d1] eqn:E1.
  { rewrite !quantify_edge_intensity_zero_size; [reflexivity| |exact E1].
    now destruct (data labels2). }
  assert (Hne1 : data labels1 <> []) by (rewrite E1; discriminate).
  assert (Hne2 : data labels2 <> []) by (now destruct (data labels2)).
  rewrite !quantify_edge_intensity_spec by assumption.
  rewrite (labelled_pixels_support image labels1 labels2); auto.
  - congruence.
  - intros r c Hr Hc. apply Hsupp.
    + unfold shape in Hs1. injection Hs1 as Hr1 _. now rewrite <- Hr1.
    + unfold shape in Hs1. injection Hs1 as _ Hc1. now rewrite <- Hc1.
Qed.

Lemma quantify_edge_intensity_support_only_witness :
  Batch.quantify_edge_intensity (row_image [1; 5; 9; 1; 7; 3]%Q)
    (mk_ndarray 1 6 [4; 4; 0; 0; 9; 7]%Z) []
  = Batch.quantify_edge_intensity (row_image [1; 5; 9; 1; 7; 3]%Q)
      (mk_ndarray 1 6 [1; 1; 0; 0; 2; 2]%Z) [].
Proof.
  refine (quantify_edge_intensity_support_only
            (row_image [1; 5; 9; 1; 7; 3]%Q)
            (mk_ndarray 1 6 [4; 4; 0; 0; 9; 7]%Z)
            (mk_ndarray 1 6 [1; 1; 0; 0; 2; 2]%Z) [] _ _ _ _ _ _);
    try reflexivity.
  intros r c Hr Hc. simpl in Hr, Hc.
  assert (r = 0) by lia. subst r.
  do 6 (destruct c as [|c]; [unfold getitem; simpl; lia|]). lia.
Defined.

(** ** The Segmenter: from the [try] block to its steps *)

Ltac step_call :=
  match goal with
  | |- context [match ?r with Ok _ => _ | Raise _ => _ end] =>
      destruct r; simpl; try reflexivity
  end.

Lemma batch_body_steps {lib : ImageLib} (image : ndarray float64)
    (spot_sigma outline_sigma threshold : float64) loc log :
  Batch.segmentation_body image spot_sigma outline_sigma threshold (loc, log)
  = match Batch.segmentation_steps image spot_sigma outline_sigma threshold
    with
    | Ok m => (Ok tt, (Some m, log ++ [LogInfo "Successfully segmented image!"]))
    | Raise e => (Raise e, (loc, log))
    end.
Proof.
  unfold Batch.segmentation_body, Batch.segmentation_steps, bind, call,
    assign, logging_info, rbind.
  repeat step_call.
Qed.

(** [cell_segmentation] returns the computed map when every step succeeds;
    when a step raises, the handler logs it and reading [filtered_labels]
    raises [UnboundLocalError]. *)
Lemma batch_cell_segmentation_steps {lib : ImageLib}
    (image : ndarray float64)
    (spot_sigma outline_sigma threshold : float64) log :
  Batch.cell_segmentation image spot_sigma outline_sigma threshold log
  = match Batch.segmentation_steps image spot_sigma outline_sigma threshold
    with
    | Ok m => (Ok m, log ++ [LogInfo "Successfully segmented image!"])
    | Raise e =>
        (Raise (UnboundLocalError "filtered_labels"),
         log ++ [LogError "Error segmenting image" e])
    end.
Proof.
  unfold Batch.cell_segmentation, try_except, bind, read_local.
  rewrite batch_body_steps.
  destruct (Batch.segmentation_steps _ _ _ _); reflexivity.
Qed.

Lemma bind_call {L A B} (r : result A) (k : A -> M L B) (s : frame L) :
  bind (call r) k s
  = match r with
    | Ok a => k a s
    | Raise e => (Raise e, s)
    end.
Proof.
  unfold bind, call. now destruct r.
Qed.

Lemma bind_logging_info {L B} (msg : string) (k : unit -> M L B)
    (s : frame L) :
  bind (logging_info msg) k s = k tt (fst s, snd s ++ [LogInfo msg]).
Proof.
  reflexivity.
Qed.

Lemma bind_assign {L B} (f : L -> L) (k : unit -> M L B) (s : frame L) :
  bind (assign f) k s = k tt (f (fst s), snd s).
Proof.
  reflexivity.
Qed.

(** One statement of a [try] block. *)
Ltac step_body :=
  first [ rewrite bind_logging_info | rewrite bind_assign | rewrite bind_call ];
  cbv beta zeta; cbn [fst snd].

Ltac step_raise :=
  let H := fresh in
  intros ? ? ? H; injection H as <- <- <-; reflexivity.

(** The locals the [try] block of the demo leaves behind: all five are
    bound when the steps return, and [filtered_labels] is unbound when a
    step raises. *)
Lemma demo_body_locals {lib : ImageLib} (image : ndarray float64)
    (spot_sigma outline_sigma threshold : float64) log :
  forall r loc log',
    Demo.segmentation_body image spot_sigma outline_sigma threshold
      (Demo.unbound, log) = (r, (loc, log')) ->
    match Demo.segmentation_steps image spot_sigma outline_sigma threshold
    with
    | Ok (fl, sb, ob, sp, outl) =>
        loc = Demo.mk_locals (Some fl) (Some sb) (Some ob) (Some sp)
                (Some outl)
    | Raise _ => Demo.filtered_labels loc = None
    end.
Proof.
  unfold Demo.segmentation_body, Demo.segmentation_steps, rbind.
  cbv zeta.
  step_body.
  step_body. destruct (np_min image) as [lo|]; [|step_raise].
  step_body.
  step_body. destruct (np_max image) as [hi|]; [|step_raise].
  do 2 step_body.
  step_body.
  destruct (Demo.normalized_image image) as [normalized|]; [|step_raise].
  step_body. destruct (np_min normalized) as [nlo|]; [|step_raise].
  step_body.
  step_body. destruct (np_max normalized) as [nhi|]; [|step_raise].
  do 2 step_body.
  step_body.
  destruct (gaussian normalized spot_sigma) as [sb|]; [|step_raise].
  step_body.
  step_body. destruct (gaussian normalized _) as [ob|]; [|step_raise].
  step_body.
  step_body. destruct (local_minima sb) as [mn|]; [|step_raise].
  step_body. destruct (label mn) as [sp|]; [|step_raise].
  do 2 step_body.
  step_body. destruct (watershed ob sp _) as [outl|]; [|step_raise].
  do 2 step_body.
  step_body.
  destruct (regionprops outl (Some normalized)) as [regions|]; [|step_raise].
  step_body.
  destruct (Demo.threshold_loop regions outl threshold _ _) as [looped|];
    [|step_raise].
  step_body.
  destruct (relabel_sequential (fst looped)) as [rel|]; [|step_raise].
  do 2 step_body.
  step_body. destruct (Demo.py_min (snd looped)); [|step_raise].
  step_body.
  step_body. destruct (Demo.py_max (snd looped)); [|step_raise].
  step_body.
  step_body. destruct (Demo.py_div _ _); step_raise.
Qed.

Lemma demo_cell_segmentation_steps {lib : ImageLib}
    (image : ndarray float64)
    (spot_sigma outline_sigma threshold : float64) log :
  fst (Demo.cell_segmentation image spot_sigma outline_sigma threshold log)
  = match Demo.segmentation_steps image spot_sigma outline_sigma threshold
    with
    | Ok out => Ok out
    | Raise e => Raise (UnboundLocalError "filtered_labels")
    end.
Proof.
  unfold Demo.cell_segmentation, try_except, bind, read_local, ret,
    logging_error.
  destruct (Demo.segmentation_body image spot_sigma outline_sigma threshold
              (Demo.unbound, log)) as [r [loc log']] eqn:E.
  apply demo_body_locals in E.
  destruct (Demo.segmentation_steps image spot_sigma outline_sigma threshold)
    as [[[[[fl sb] ob] sp] outl]|e].
  - subst loc. now destruct r.
  - destruct r; cbn; now rewrite E.
Qed.

(** ** The threshold filter *)

Lemma regionprops_ok_inv (label_image : ndarray Z) intensity regions :
  regionprops label_image intensity = Ok regions ->
  regions
  = map (fun l => mk_region l (argwhere label_image l) intensity)
      (filter (Z.ltb 0) (np_unique (data label_image))).
Proof.
  unfold regionprops.
  destruct (data label_image) eqn:E; [discriminate|]. rewrite <- E.
  destruct (map _ (filter (Z.ltb 0) (np_unique (data label_image))));
    destruct intensity as [img|]; try (intros H; now injection H).
  destruct (shape_eqb img label_image); [intros H; now injection H|].
  discriminate.
Qed.

Lemma regionprops_ok_nonempty (label_image : ndarray Z) intensity regions :
  regionprops label_image intensity = Ok regions -> data label_image <> [].
Proof.
  unfold regionprops. intros H E. rewrite E in H. discriminate.
Qed.

Lemma mask_assign_combine (l : Z) : forall (a o : list Z),
  length a = length o ->
  combine
    (map (fun xm : Z * bool => if snd xm then l else fst xm)
       (combine a (map (fun v => (v =? l)%Z) o))) o
  = map (fun xo : Z * Z => (if (snd xo =? l)%Z then l else fst xo, snd xo))
      (combine a o).
Proof.
  induction a as [|x a IH]; intros [|y o] Hlen; simpl in *;
    try discriminate; [reflexivity|].
  injection Hlen as Hlen. now rewrite IH.
Qed.

(** The loop, on the regions of [outlines]: a pixel of a region whose mean
    exceeds the threshold receives the region's label, every other pixel is
    left as it was. *)
Lemma batch_threshold_loop_spec (image : ndarray float64)
    (outlines : ndarray Z) (threshold : float64) :
  forall ls labels,
    length (data labels) = length (data outlines) ->
    Batch.threshold_loop
      (map (fun l => mk_region l (argwhere outlines l) (Some image)) ls)
      outlines threshold labels
    = Ok (mk_ndarray (nrows labels) (ncols labels)
            (map (fun xo : Z * Z =>
                    if existsb
                         (fun l => (snd xo =? l)%Z
                                   && fgt (region_mean image outlines l)
                                        threshold) ls
                    then snd xo else fst xo)
               (combine (data labels) (data outlines)))).
Proof.
  induction ls as [|l ls IH]; intros labels Hlen.
  - simpl. destruct labels as [r c d]. simpl in *. do 2 f_equal.
    clear - Hlen. revert Hlen. generalize (data outlines) as o.
    induction d as [|x d IHd]; intros [|y o] Hlen; simpl in *;
      try discriminate; [reflexivity|].
    injection Hlen as Hlen. now rewrite <- IHd.
  - cbn [map Batch.threshold_loop]. unfold mean_intensity at 1.
    cbn [intensity_image coords region_label rbind].
    fold (region_mean image outlines l).
    destruct (fgt (region_mean image outlines l) threshold) eqn:E.
    + rewrite IH.
      * unfold mask_assign, amap. cbn [nrows ncols data].
        do 2 f_equal. rewrite mask_assign_combine by exact Hlen.
        rewrite map_map. apply map_ext. intros [x o].
        cbn [fst snd existsb]. rewrite E, andb_true_r.
        destruct (o =? l)%Z eqn:Eo; [|reflexivity].
        apply Z.eqb_eq in Eo. subst o. simpl.
        now destruct (existsb _ ls).
      * unfold mask_assign, amap. cbn [data].
        rewrite length_map, length_combine, length_map. lia.
    + rewrite IH by exact Hlen. do 2 f_equal. apply map_ext. intros [x o].
      cbn [fst snd existsb]. now rewrite E, andb_false_r.
Qed.

Lemma map_combine_repeat {A B C} (f : A * B -> C) (z : A) : forall (o : list B),
  map f (combine (repeat z (length o)) o) = map (fun v => f (z, v)) o.
Proof.
  induction o as [|y o IH]; simpl; [reflexivity|]. now rewrite IH.
Qed.

(** The filtered labels, before relabelling: each pixel keeps its watershed
    label when that label is retained and becomes 0 otherwise. *)
Lemma batch_filtered_labels (image : ndarray float64) (outlines : ndarray Z)
    (threshold : float64) regions :
  regionprops outlines (Some image) = Ok regions ->
  Batch.threshold_loop regions outlines threshold (zeros_like 0%Z outlines)
  = Ok (amap (fun o => if retained image outlines threshold o
                       then o else 0%Z) outlines).
Proof.
  intros Hr. apply regionprops_ok_inv in Hr. subst regions.
  rewrite batch_threshold_loop_spec by (simpl; apply repeat_length).
  unfold amap, zeros_like. cbn [nrows ncols data].
  do 2 f_equal. rewrite map_combine_repeat.
  apply map_ext_in. intros o Hin. cbn [fst snd]. unfold retained.
  destruct (0 <? o)%Z eqn:Ep.
  - destruct (fgt (region_mean image outlines o) threshold) eqn:Ef; simpl.
    + replace (existsb _ _) with true; [reflexivity|].
      symmetry. apply existsb_exists. exists o. split.
      * apply In_region_labels. split; [exact Hin|now apply Z.ltb_lt].
      * now rewrite Z.eqb_refl, Ef.
    + destruct (existsb _ _) eqn:E; [|reflexivity].
      apply existsb_exists in E. destruct E as [l [_ Hl]].
      apply andb_true_iff in Hl. destruct Hl as [Hl1 Hl2].
      apply Z.eqb_eq in Hl1. subst l. congruence.
  - simpl. destruct (existsb _ _) eqn:E; [|reflexivity].
    apply existsb_exists in E. destruct E as [l [Hl1 Hl]].
    apply andb_true_iff in Hl. destruct Hl as [Hl2 _].
    apply Z.eqb_eq in Hl2. subst l.
    apply In_region_labels in Hl1. apply Z.ltb_ge in Ep. lia.
Qed.

(** ** Sequential relabelling *)

Lemma fold_min_le : forall t x,
  (fold_left Z.min t x <= x)%Z
  /\ forall v, In v t -> (fold_left Z.min t x <= v)%Z.
Proof.
  induction t as [|y t IH]; intros x; simpl.
  - split; [lia|contradiction].
  - destruct (IH (Z.min x y)) as [H1 H2]. split; [lia|].
    intros v [<-|Hin]; [lia|now apply H2].
Qed.

Lemma int_min_le (l : list Z) (m : Z) :
  int_min l = Ok m -> forall v, In v l -> (m <= v)%Z.
Proof.
  destruct l as [|x t]; simpl; [discriminate|].
  intros H. injection H as <-. destruct (fold_min_le t x) as [H1 H2].
  intros v [<-|Hin]; [exact H1|now apply H2].
Qed.

Lemma filter_all {A} (f : A -> bool) : forall l,
  (forall x, In x l -> f x = true) -> filter f l = l.
Proof.
  induction l as [|x l IH]; intros H; simpl; [reflexivity|].
  rewrite (H x) by now left. f_equal. apply IH. intros; apply H; now right.
Qed.

(** On non-negative values, the input values of the relabelling are 0
    followed by the distinct positive values in ascending order. *)
Lemma in_vals_zero_first (u : list Z) :
  StronglySorted Z.lt u -> (forall v, In v u -> (0 <= v)%Z) ->
  match u with 0%Z :: _ => u | _ => 0%Z :: u end
  = 0%Z :: filter (Z.ltb 0) u.
Proof.
  intros Hs Hnn. destruct u as [|x u]; [reflexivity|].
  inversion Hs as [|? ? Hs' Hall]; subst. rewrite Forall_forall in Hall.
  assert (Hx : (0 <= x)%Z) by (apply Hnn; now left).
  destruct x as [|p|p]; [| |lia].
  - simpl. f_equal. symmetry. apply filter_all.
    intros v Hv. apply Z.ltb_lt. now apply Hall.
  - f_equal. symmetry. apply filter_all.
    intros v [<-|Hv]; apply Z.ltb_lt; [lia|].
    specialize (Hall v Hv). lia.
Qed.

Lemma index_of_lt (v : Z) : forall l, In v l -> index_of v l < length l.
Proof.
  induction l as [|y l IH]; simpl; [contradiction|].
  intros Hin. destruct (v =? y)%Z eqn:E; [lia|].
  apply Z.eqb_neq in E. destruct Hin as [Hin|Hin]; [congruence|].
  specialize (IH Hin). lia.
Qed.

Lemma index_of_nth (d : Z) : forall l k,
  NoDup l -> k < length l -> index_of (nth k l d) l = k.
Proof.
  induction l as [|y l IH]; intros k Hnd Hk; simpl in *; [lia|].
  inversion Hnd as [|? ? Hnotin Hnd']; subst.
  destruct k as [|k]; [now rewrite Z.eqb_refl|].
  destruct (nth k l d =? y)%Z eqn:E.
  - apply Z.eqb_eq in E. exfalso. apply Hnotin. rewrite <- E.
    apply nth_In. lia.
  - f_equal. apply IH; [exact Hnd'|lia].
Qed.

Lemma nth_out_vals (n k : nat) :
  k < S n -> nth k (0%Z :: map Z.of_nat (seq 1 n)) 0%Z = Z.of_nat k.
Proof.
  intros Hk. destruct k as [|k]; [reflexivity|]. simpl nth.
  rewrite (nth_map_default Z.of_nat _ 0) by reflexivity.
  rewrite seq_nth by lia. reflexivity.
Qed.

(** What [relabel_sequential] returns when it returns: the array is not
    empty, holds no negative value, and each value is replaced by its rank
    among the distinct values, 0 first. *)
Lemma relabel_sequential_spec (labels : ndarray Z) rel :
  relabel_sequential labels = Ok rel ->
  (forall v, In v (data labels) -> (0 <= v)%Z)
  /\ data labels <> []
  /\ fst (fst rel)
     = amap (fun v =>
               Z.of_nat
                 (index_of v
                    (0%Z :: filter (Z.ltb 0) (np_unique (data labels)))))
         labels.
Proof.
  unfold relabel_sequential, rbind.
  destruct (int_min (data labels)) as [m|e] eqn:Em; [|discriminate].
  destruct (m <? 0)%Z eqn:Eneg; [discriminate|].
  apply Z.ltb_ge in Eneg. intros H. injection H as <-.
  assert (Hnn : forall v, In v (data labels) -> (0 <= v)%Z).
  { intros v Hin. pose proof (int_min_le _ _ Em v Hin). lia. }
  split; [exact Hnn|]. split.
  { intros Hnil. rewrite Hnil in Em. discriminate. }
  cbn [fst]. rewrite in_vals_zero_first.
  - unfold amap. f_equal. apply map_ext_in. intros v Hin.
    apply nth_out_vals.
    set (in_vals := 0%Z :: filter (Z.ltb 0) (np_unique (data labels))).
    assert (Hlt : index_of v in_vals < length in_vals).
    { apply index_of_lt. unfold in_vals.
      destruct (Z.eq_dec v 0) as [->|Hne]; [now left|right].
      apply In_region_labels. specialize (Hnn v Hin). split; [exact Hin|lia]. }
    lia.
  - apply np_unique_sorted.
  - intros v Hin. apply Hnn. now apply (proj1 (In_np_unique v _)).
Qed.

Lemma region_labels_NoDup (a : list Z) :
  NoDup (0%Z :: filter (Z.ltb 0) (np_unique a)).
Proof.
  constructor.
  - intros Hin. apply In_region_labels in Hin. lia.
  - apply NoDup_filter, sorted_NoDup, np_unique_sorted.
Qed.

(** The relabelled map is densely labelled, up to the number of distinct
    positive labels of the input. *)
Lemma relabel_sequential_dense (labels : ndarray Z) rel :
  relabel_sequential labels = Ok rel ->
  dense_labels (fst (fst rel)) (count_labels labels).
Proof.
  intros Hrel. destruct (relabel_sequential_spec _ _ Hrel) as [Hnn [_ ->]].
  unfold dense_labels, count_labels, amap. cbn [data].
  set (pos := filter (Z.ltb 0) (np_unique (data labels))).
  split.
  - intros v' Hin. apply in_map_iff in Hin. destruct Hin as [v [<- Hin]].
    assert (Hlt : index_of v (0%Z :: pos) < length (0%Z :: pos)).
    { apply index_of_lt. destruct (Z.eq_dec v 0) as [->|Hne]; [now left|right].
      apply In_region_labels. specialize (Hnn v Hin). split; [exact Hin|lia]. }
    simpl length in Hlt. lia.
  - intros k Hk.
    assert (Hlt : Z.to_nat k < length (0%Z :: pos)) by (simpl length; lia).
    apply in_map_iff. exists (nth (Z.to_nat k) (0%Z :: pos) 0%Z). split.
    + rewrite index_of_nth; [lia|apply region_labels_NoDup|exact Hlt].
    + destruct (Z.to_nat k) as [|j] eqn:Ej; [lia|]. simpl nth.
      assert (Hin : In (nth j pos 0%Z) pos)
        by (apply nth_In; simpl length in Hlt; lia).
      apply In_region_labels in Hin. tauto.
Qed.

Lemma NoDup_map_of_nat (l : list nat) : NoDup l -> NoDup (map Z.of_nat l).
Proof.
  induction 1 as [|x l Hnotin Hnd IH]; simpl; constructor; [|exact IH].
  intros Hin. apply in_map_iff in Hin. destruct Hin as [y [Hy Hin]].
  apply Nat2Z.inj in Hy. subst. contradiction.
Qed.

(** A densely labelled map has exactly [K] distinct positive labels. *)
Lemma dense_labels_count (m : ndarray Z) (K : nat) :
  dense_labels m K -> count_labels m = K.
Proof.
  intros [Hrange Hall]. unfold count_labels.
  set (pos := filter (Z.ltb 0) (np_unique (data m))).
  assert (Hnd : NoDup pos)
    by (apply NoDup_filter, sorted_NoDup, np_unique_sorted).
  set (ks := map Z.of_nat (seq 1 K)).
  assert (Hks : NoDup ks).
  { apply NoDup_map_of_nat, seq_NoDup. }
  assert (Hlen : length ks = K) by (unfold ks; now rewrite length_map, length_seq).
  rewrite <- Hlen. apply Nat.le_antisymm.
  - apply NoDup_incl_length; [exact Hnd|]. intros v Hin.
    apply In_region_labels in Hin. destruct Hin as [Hin Hpos].
    specialize (Hrange v Hin). apply in_map_iff. exists (Z.to_nat v).
    split; [lia|apply in_seq; lia].
  - apply NoDup_incl_length; [exact Hks|]. intros v Hin.
    apply in_map_iff in Hin. destruct Hin as [j [<- Hj]]. apply in_seq in Hj.
    apply In_region_labels. split; [apply Hall; lia|lia].
Qed.

(** ** The batch Segmenter *)

(** When the steps return a map, every primitive returned, and the map is
    the relabelling of the filtered watershed labels. *)
Lemma batch_steps_inv {lib : ImageLib} (image : ndarray float64)
    (spot_sigma outline_sigma threshold : float64) (m : ndarray Z) :
  Batch.segmentation_steps image spot_sigma outline_sigma threshold = Ok m ->
  exists spot_blurred outline_blurred minima spots outlines regions rel,
    gaussian image spot_sigma = Ok spot_blurred
    /\ gaussian image
         (if negb (feq outline_sigma spot_sigma)
          then outline_sigma else spot_sigma) = Ok outline_blurred
    /\ local_minima spot_blurred = Ok minima
    /\ label minima = Ok spots
    /\ watershed outline_blurred spots (amap (fun x => fgt x (Fin 0)) image)
       = Ok outlines
    /\ regionprops outlines (Some image) = Ok regions
    /\ relabel_sequential
         (amap (fun o => if retained image outlines threshold o
                         then o else 0%Z) outlines) = Ok rel
    /\ m = fst (fst rel).
Proof.
  unfold Batch.segmentation_steps, rbind.
  destruct (gaussian image spot_sigma) as [sb|] eqn:E1; [|discriminate].
  destruct (gaussian image (if negb _ then _ else _)) as [ob|] eqn:E2;
    [|discriminate].
  destruct (local_minima sb) as [mn|] eqn:E3; [|discriminate].
  destruct (label mn) as [sp|] eqn:E4; [|discriminate].
  destruct (watershed ob sp _) as [outl|] eqn:E5; [|discriminate].
  destruct (regionprops outl (Some image)) as [regions|] eqn:E6;
    [|discriminate].
  rewrite (batch_filtered_labels _ _ _ _ E6).
  destruct (relabel_sequential _) as [rel|] eqn:E8; [|discriminate].
  intros H. injection H as <-.
  exists sb, ob, mn, sp, outl, regions, rel. repeat split; assumption.
Qed.

(** Conversely, the steps return as soon as the primitives and the
    relabelling do. *)
Lemma batch_steps_intro {lib : ImageLib} (image : ndarray float64)
    (spot_sigma outline_sigma threshold : float64)
    spot_blurred outline_blurred minima spots outlines regions rel :
  gaussian image spot_sigma = Ok spot_blurred ->
  gaussian image
    (if negb (feq outline_sigma spot_sigma)
     then outline_sigma else spot_sigma) = Ok outline_blurred ->
  local_minima spot_blurred = Ok minima ->
  label minima = Ok spots ->
  watershed outline_blurred spots (amap (fun x => fgt x (Fin 0)) image)
  = Ok outlines ->
  regionprops outlines (Some image) = Ok regions ->
  relabel_sequential
    (amap (fun o => if retained image outlines threshold o
                    then o else 0%Z) outlines) = Ok rel ->
  Batch.segmentation_steps image spot_sigma outline_sigma threshold
  = Ok (fst (fst rel)).
Proof.
  intros E1 E2 E3 E4 E5 E6 E8.
  unfold Batch.segmentation_steps, rbind.
  rewrite E1, E2, E3, E4, E5, E6, (batch_filtered_labels _ _ _ _ E6), E8.
  reflexivity.
Qed.

Lemma batch_ok_steps {lib : ImageLib} (image : ndarray float64)
    (spot_sigma outline_sigma threshold : float64) log (m : ndarray Z) :
  fst (Batch.cell_segmentation image spot_sigma outline_sigma threshold log)
  = Ok m ->
  Batch.segmentation_steps image spot_sigma outline_sigma threshold = Ok m.
Proof.
  rewrite batch_cell_segmentation_steps.
  destruct (Batch.segmentation_steps _ _ _ _); simpl; congruence.
Qed.

(** Each pixel of the returned map is the rank of its filtered label. *)
Lemma relabelled_pixel (labels : ndarray Z) rel (i : nat) :
  relabel_sequential labels = Ok rel ->
  nth i (data (fst (fst rel))) 0%Z
  = Z.of_nat
      (index_of (nth i (data labels) 0%Z)
         (0%Z :: filter (Z.ltb 0) (np_unique (data labels)))).
Proof.
  intros Hrel. destruct (relabel_sequential_spec _ _ Hrel) as [_ [_ ->]].
  unfold amap. cbn [data].
  now rewrite (nth_map_default _ _ 0%Z) by reflexivity.
Qed.

(** A pixel is positive in the returned map exactly when its filtered label
    is. *)
Lemma relabelled_positive (labels : ndarray Z) rel (i : nat) :
  relabel_sequential labels = Ok rel ->
  (0 < nth i (data (fst (fst rel))) 0)%Z <-> (0 < nth i (data labels) 0)%Z.
Proof.
  intros Hrel. rewrite (relabelled_pixel _ _ _ Hrel).
  destruct (relabel_sequential_spec _ _ Hrel) as [Hnn _].
  simpl index_of.
  destruct (nth i (data labels) 0 =? 0)%Z eqn:E.
  - apply Z.eqb_eq in E. rewrite E. simpl. lia.
  - apply Z.eqb_neq in E. split; [|lia]. intros _.
    destruct (nth_in_or_default i (data labels) 0%Z) as [Hin|Hd];
      [|congruence].
    specialize (Hnn _ Hin). lia.
Qed.



(** ** Monotonicity in the threshold *)

Lemma Qle_bool_false_lt (x y : Q) : Qle_bool x y = false -> (y < x)%Q.
Proof.
  intros H. apply Qnot_le_lt. intros Hle.
  apply Qle_bool_iff in Hle. congruence.
Qed.

Lemma Qlt_Qle_bool_false (x y : Q) : (y < x)%Q -> Qle_bool x y = false.
Proof.
  intros Hlt. destruct (Qle_bool x y) eqn:E; [|reflexivity].
  apply Qle_bool_iff in E. exfalso. now apply (Qlt_not_le _ _ Hlt).
Qed.

Lemma fgt_trans (a b c : float64) :
  fgt a b = true -> fgt b c = true -> fgt a c = true.
Proof.
  destruct a as [x| | |], b as [y| | |], c as [z| | |]; simpl;
    try discriminate; try reflexivity.
  intros H1 H2. apply negb_true_iff in H1, H2. apply negb_true_iff.
  apply Qle_bool_false_lt in H1, H2. apply Qlt_Qle_bool_false.
  now apply Qlt_trans with y.
Qed.

(** A region retained at a threshold is retained at every lower one. *)
Lemma retained_mono (image : ndarray float64) (outlines : ndarray Z)
    (t t' : float64) (l : Z) :
  fgt t t' = true ->
  retained image outlines t l = true -> retained image outlines t' l = true.
Proof.
  unfold retained. intros Ht H. apply andb_true_iff in H.
  destruct H as [Hp Hm]. apply andb_true_iff. split; [exact Hp|].
  now apply fgt_trans with t.
Qed.

Lemma fold_min_nonneg : forall t x,
  (0 <= x)%Z -> (forall v, In v t -> (0 <= v)%Z) ->
  (0 <= fold_left Z.min t x)%Z.
Proof.
  induction t as [|y t IH]; intros x Hx Ht; simpl; [exact Hx|].
  apply IH.
  - assert (0 <= y)%Z by (apply Ht; now left). lia.
  - intros v Hv. apply Ht. now right.
Qed.

Lemma filtered_nonneg (image : ndarray float64) (outlines : ndarray Z)
    (t : float64) (o : Z) :
  (0 <= (if retained image outlines t o then o else 0))%Z.
Proof.
  destruct (retained image outlines t o) eqn:E; [|lia].
  unfold retained in E. apply andb_true_iff in E. destruct E as [E _].
  apply Z.ltb_lt in E. lia.
Qed.

(** Relabelling the filtered labels raises only on a zero-size array. *)
Lemma relabel_filtered_ok (image : ndarray float64) (outlines : ndarray Z)
    (t : float64) :
  data outlines <> [] ->
  exists rel,
    relabel_sequential
      (amap (fun o => if retained image outlines t o then o else 0%Z)
         outlines) = Ok rel.
Proof.
  intros Hne. unfold relabel_sequential, rbind, amap. cbn [data].
  destruct (data outlines) as [|x d]; [contradiction|]. cbn [map int_min].
  assert (Hm : (0 <= fold_left Z.min
                     (map (fun o => if retained image outlines t o
                                    then o else 0%Z) d)
                     (if retained image outlines t x then x else 0%Z))%Z).
  { apply fold_min_nonneg; [apply filtered_nonneg|].
    intros v Hin. apply in_map_iff in Hin. destruct Hin as [o [<- _]].
    apply filtered_nonneg. }
  apply Z.ltb_ge in Hm. rewrite Hm. eexists. reflexivity.
Qed.

Lemma relabel_sequential_count (labels : ndarray Z) rel :
  relabel_sequential labels = Ok rel ->
  count_labels (fst (fst rel)) = count_labels labels.
Proof.
  intros Hrel. apply dense_labels_count.
  now apply relabel_sequential_dense.
Qed.

Lemma filtered_count_mono (image : ndarray float64) (outlines : ndarray Z)
    (t t' : float64) :
  fgt t t' = true ->
  count_labels
    (amap (fun o => if retained image outlines t o then o else 0%Z) outlines)
  <= count_labels
       (amap (fun o => if retained image outlines t' o then o else 0%Z)
          outlines).
Proof.
  intros Ht. unfold count_labels, amap. cbn [data].
  apply NoDup_incl_length.
  - apply NoDup_filter, sorted_NoDup, np_unique_sorted.
  - intros v Hin. apply In_region_labels in Hin. destruct Hin as [Hin Hpos].
    apply In_region_labels. split; [|exact Hpos].
    apply in_map_iff in Hin. destruct Hin as [o [Ho Hin]].
    apply in_map_iff. exists o. split; [|exact Hin].
    destruct (retained image outlines t o) eqn:E; [|lia].
    now rewrite (retained_mono _ _ _ _ _ Ht E).
Qed.

(** C7: for a fixed image and fixed sigmas, when [cell_segmentation]
    returns a map at threshold [t] it returns one at every lower threshold
    [t'], every pixel labelled at [t] is labelled at [t'], and the number of
    labels at [t] is at most the number at [t']. *)
Theorem cell_segmentation_threshold_monotone :
  forall (lib : ImageLib) (image : ndarray float64)
         (spot_sigma outline_sigma t t' : float64) log log' (m : ndarray Z),
    fgt t t' = true ->
    fst (Batch.cell_segmentation image spot_sigma outline_sigma t log)
    = Ok m ->
    exists m',
      fst (Batch.cell_segmentation image spot_sigma outline_sigma t' log')
      = Ok m'
      /\ count_labels m <= count_labels m'
      /\ forall i, (0 < nth i (data m) 0)%Z -> (0 < nth i (data m') 0)%Z.
Proof.
  intros lib image ss os t t' log log' m Ht Hrun.
  apply batch_ok_steps, batch_steps_inv in Hrun.
  destruct Hrun as (sb & ob & mn & sp & outl & regions & rel
                    & E1 & E2 & E3 & E4 & E5 & E6 & Hrel & ->).
  assert (Hne : data outl <> []).
  { destruct (relabel_sequential_spec _ _ Hrel) as [_ [Hne _]].
    unfold amap in Hne. cbn [data] in Hne. intros Hnil.
    rewrite Hnil in Hne. now apply Hne. }
  destruct (relabel_filtered_ok image outl t' Hne) as [rel' Hrel'].
  exists (fst (fst rel')). split; [|split].
  - rewrite batch_cell_segmentation_steps.
    now rewrite (batch_steps_intro _ _ _ _ _ _ _ _ _ _ _
                   E1 E2 E3 E4 E5 E6 Hrel').
  - rewrite (relabel_sequential_count _ _ Hrel),
      (relabel_sequential_count _ _ Hrel').
    now apply filtered_count_mono.
  - intros i Hi. apply (relabelled_positive _ _ _ Hrel) in Hi.
    apply (relabelled_positive _ _ _ Hrel'). unfold amap in *.
    cbn [data] in *.
    rewrite (nth_map_default _ _ 0%Z) in Hi by reflexivity.
    rewrite (nth_map_default _ _ 0%Z) by reflexivity.
    destruct (retained image outl t (nth i (data outl) 0%Z)) eqn:E; [|lia].
    now rewrite (retained_mono _ _ _ _ _ Ht E).
Qed.

Lemma cell_segmentation_threshold_monotone_witness :
  exists m',
    fst (Batch.cell_segmentation (lib := raster_lib)
           (row_image [1; 5; 9; 1; 7; 3]%Q) (Fin 6) (Fin 3) (Fin 3) [])
    = Ok m'
    /\ count_labels (mk_ndarray 1 6 [1; 1; 1; 0; 0; 0]%Z) <= count_labels m'
    /\ forall i,
        (0 < nth i (data (mk_ndarray 1 6 [1; 1; 1; 0; 0; 0]%Z)) 0)%Z ->
        (0 < nth i (data m') 0)%Z.
Proof.
  refine (cell_segmentation_threshold_monotone raster_lib
            (row_image [1; 5; 9; 1; 7; 3]%Q) (Fin 6) (Fin 3)
            (Fin 4) (Fin 3) [] [] _ _ _).
  - reflexivity.
  - reflexivity.
Defined.

(** ** Shape and mask *)

Lemma length_raster_flood : forall l current,
  length (raster_flood current l) = length l.
Proof.
  induction l as [|[m b] l IH]; intros current; simpl; [reflexivity|].
  now rewrite IH.
Qed.

Lemma raster_flood_mask : forall markers mask current i,
  nth i mask false = false ->
  nth i (raster_flood current (combine markers mask)) 0%Z = 0%Z.
Proof.
  induction markers as [|m markers IH]; intros [|b mask] current i Hi;
    simpl in *; try (destruct i; reflexivity).
  destruct i as [|i]; [now rewrite Hi|]. now apply IH.
Qed.

(** The small implementation keeps the documented contract. *)
Lemma raster_lib_contract : ImageLibContract raster_lib.
Proof.
  constructor.
  - intros img sigma out Hwf. simpl. unfold raster_gaussian.
    destruct (fgt (Fin 0) sigma); [discriminate|].
    intros H. injection H as <-. now split.
  - intros img markers mask out Hwf. simpl. unfold raster_watershed.
    destruct (_ && _) eqn:E; [|discriminate].
    intros H. injection H as <-.
    repeat (apply andb_true_iff in E; destruct E as [E ?]).
    unfold shape_eqb in *. unfold wfb in *.
    repeat match goal with
           | H : (_ && _) = true |- _ =>
               apply andb_true_iff in H; destruct H
           | H : (_ =? _) = true |- _ => apply Nat.eqb_eq in H
           end.
    split; [|reflexivity]. unfold wf. cbn [data nrows ncols].
    rewrite length_raster_flood, length_combine. lia.
  - intros img markers mask out i. simpl. unfold raster_watershed.
    destruct (_ && _); [|discriminate].
    intros H. injection H as <-. cbn [data]. apply raster_flood_mask.
Qed.

(** The returned map as a function of the watershed labels. *)
Lemma batch_result_pixels {lib : ImageLib} {contract : ImageLibContract lib}
    (image : ndarray float64)
    (spot_sigma outline_sigma threshold : float64) log (m : ndarray Z) :
  wf image ->
  fst (Batch.cell_segmentation image spot_sigma outline_sigma threshold log)
  = Ok m ->
  shape m = shape image
  /\ forall i,
      fgt (nth i (data image) NaN) (Fin 0) = false -> nth i (data m) 0%Z = 0%Z.
Proof.
  intros Hwf Hrun. apply batch_ok_steps, batch_steps_inv in Hrun.
  destruct Hrun as (sb & ob & mn & sp & outl & regions & rel
                    & E1 & E2 & E3 & E4 & E5 & E6 & Hrel & ->).
  destruct (gaussian_shape _ _ _ Hwf E2) as [Hwob Hsob].
  destruct (watershed_shape _ _ _ _ Hwob E5) as [Hwoutl Hsoutl].
  split.
  - destruct (relabel_sequential_spec _ _ Hrel) as [_ [_ ->]].
    unfold shape, amap in *. cbn [nrows ncols]. congruence.
  - intros i Hi. rewrite (relabelled_pixel _ _ _ Hrel).
    unfold amap. cbn [data].
    rewrite (nth_map_default _ _ 0%Z) by reflexivity.
    rewrite (watershed_mask _ _ _ _ i E5); [reflexivity|].
    unfold amap. cbn [data].
    now rewrite (nth_map_default _ _ NaN) by reflexivity.
Qed.

(** C8: whenever [cell_segmentation] returns a map for a well-formed image,
    the map has the shape of the image. *)
Theorem cell_segmentation_shape :
  forall (lib : ImageLib) (contract : ImageLibContract lib)
         (image : ndarray float64)
         (spot_sigma outline_sigma threshold : float64) log (m : ndarray Z),
    wf image ->
    fst (Batch.cell_segmentation image spot_sigma outline_sigma threshold log)
    = Ok m ->
    shape m = shape image.
Proof.
  intros lib contract image ss os t log m Hwf Hrun.
  exact (proj1 (batch_result_pixels image ss os t log m Hwf Hrun)).
Qed.

Lemma cell_segmentation_shape_witness :
  shape (mk_ndarray 1 6 [1; 1; 1; 0; 0; 0]%Z)
  = shape (row_image [1; 5; 9; 1; 7; 3]%Q).
Proof.
  refine (cell_segmentation_shape raster_lib raster_lib_contract
            (row_image [1; 5; 9; 1; 7; 3]%Q) (Fin 6) (Fin 3) (Fin 4) [] _
            _ _).
  - reflexivity.
  - reflexivity.
Defined.

(** C9: in the map [cell_segmentation] returns, every pixel whose intensity
    is not greater than zero is labelled 0; an image without any pixel
    greater than zero gives an all-background map. *)
Theorem cell_segmentation_mask_background :
  forall (lib : ImageLib) (contract : ImageLibContract lib)
         (image : ndarray float64)
         (spot_sigma outline_sigma threshold : float64) log (m : ndarray Z),
    wf image ->
    fst (Batch.cell_segmentation image spot_sigma outline_sigma threshold log)
    = Ok m ->
    (forall r c, r < nrows image -> c < ncols image ->
       fgt (getitem NaN image (r, c)) (Fin 0) = false ->
       getitem 0%Z m (r, c) = 0%Z)
    /\ ((forall x, In x (data image) -> fgt x (Fin 0) = false) ->
        forall v, In v (data m) -> v = 0%Z).
Proof.
  intros lib contract image ss os t log m Hwf Hrun.
  destruct (batch_result_pixels image ss os t log m Hwf Hrun)
    as [Hshape Hpix].
  split.
  - intros r c _ _ Hmask. unfold getitem in *. cbn [fst snd] in *.
    unfold shape in Hshape. injection Hshape as _ Hc. rewrite Hc.
    now apply Hpix.
  - intros Hall v Hin. destruct (In_nth _ _ 0%Z Hin) as [i [_ <-]].
    apply Hpix.
    destruct (nth_in_or_default i (data image) NaN) as [Hi|Hd];
      [now apply Hall|now rewrite Hd].
Qed.

Lemma cell_segmentation_mask_background_witness :
  (forall r c, r < 1 -> c < 4 ->
     fgt (getitem NaN (row_image [2; 0; 5; 1]%Q) (r, c)) (Fin 0) = false ->
     getitem 0%Z (mk_ndarray 1 4 [0; 0; 1; 1]%Z) (r, c) = 0%Z)
  /\ ((forall x, In x (data (row_image [2; 0; 5; 1]%Q)) ->
       fgt x (Fin 0) = false) ->
      forall v, In v (data (mk_ndarray 1 4 [0; 0; 1; 1]%Z)) -> v = 0%Z).
Proof.
  refine (cell_segmentation_mask_background raster_lib raster_lib_contract
            (row_image [2; 0; 5; 1]%Q) (Fin 6) (Fin 3) (Fin 1) [] _ _ _).
  - reflexivity.
  - reflexivity.
Defined.

(** ** The demo: normalisation of a flat image *)

Lemma fold_fmin_flat (v : Q) : forall t a,
  (a == v)%Q ->
  (forall x, In x t -> exists q, x = Fin q /\ (q == v)%Q) ->
  exists b, fold_left fmin t (Fin a) = Fin b /\ (b == v)%Q.
Proof.
  induction t as [|x t IH]; intros a Ha Ht; simpl.
  - now exists a.
  - destruct (Ht x (or_introl eq_refl)) as [q [-> Hq]].
    assert (Ht' : forall y, In y t -> exists q, y = Fin q /\ (q == v)%Q)
      by (intros y Hy; apply Ht; now right).
    simpl. destruct (negb (Qle_bool a q)); now apply IH.
Qed.

Lemma fold_fmax_flat (v : Q) : forall t a,
  (a == v)%Q ->
  (forall x, In x t -> exists q, x = Fin q /\ (q == v)%Q) ->
  exists b, fold_left fmax t (Fin a) = Fin b /\ (b == v)%Q.
Proof.
  induction t as [|x t IH]; intros a Ha Ht; simpl.
  - now exists a.
  - destruct (Ht x (or_introl eq_refl)) as [q [-> Hq]].
    assert (Ht' : forall y, In y t -> exists q, y = Fin q /\ (q == v)%Q)
      by (intros y Hy; apply Ht; now right).
    simpl. destruct (negb (Qle_bool q a)); now apply IH.
Qed.

Lemma flat_division_nan (q a b v : Q) :
  (q == v)%Q -> (a == v)%Q -> (b == v)%Q ->
  fdiv (fsub (Fin q) (Fin a)) (fsub (Fin b) (Fin a)) = NaN.
Proof.
  intros Hq Ha Hb. unfold fsub. cbn [fneg fadd].
  rewrite (round64_zero (b + - a)) by (rewrite Ha, Hb; ring).
  rewrite (round64_zero (q + - a)) by (rewrite Ha, Hq; ring).
  reflexivity.
Qed.

(** Normalising a flat image: the range is zero and so is every
    numerator. *)
Lemma normalization_zero_range (image : ndarray float64) (v : Q) :
  data image <> [] ->
  (forall x, In x (data image) -> exists q, x = Fin q /\ (q == v)%Q) ->
  Demo.normalized_image image = Ok (amap (fun _ => NaN) image).
Proof.
  intros Hne Hflat.
  unfold Demo.normalized_image, np_min, np_max, amap, rbind.
  destruct (data image) as [|x t] eqn:Ed; [contradiction|].
  destruct (Hflat x (or_introl eq_refl)) as [q0 [-> Hq0]].
  assert (Ht : forall y, In y t -> exists q, y = Fin q /\ (q == v)%Q)
    by (intros y Hy; apply Hflat; now right).
  destruct (fold_fmin_flat v t q0 Hq0 Ht) as [a [-> Ha]].
  destruct (fold_fmax_flat v t q0 Hq0 Ht) as [b [-> Hb]].
  do 2 f_equal. apply map_ext_in. intros y Hy.
  destruct (Hflat y Hy) as [q [-> Hq]].
  now apply flat_division_nan with v.
Qed.

(** C6, as the code behaves: on a non-empty flat image the normalisation
    divides by the zero range; every pixel becomes NaN and nothing is
    raised. *)
Theorem normalized_image_flat_nan :
  forall (image : ndarray float64) (v : Q),
    data image <> [] ->
    (forall x, In x (data image) -> exists q, x = Fin q /\ (q == v)%Q) ->
    Demo.normalized_image image = Ok (amap (fun _ => NaN) image).
Proof.
  intros image v. apply normalization_zero_range.
Qed.

Lemma normalized_image_flat_nan_witness :
  Demo.normalized_image (square_image 5)
  = Ok (amap (fun _ => NaN) (square_image 5)).
Proof.
  refine (normalized_image_flat_nan (square_image 5) 5%Q _ _).
  - discriminate.
  - intros x Hin. exists 5%Q. split; [|reflexivity].
    simpl in Hin. intuition.
Defined.

(** C6, as stated, fails: on a flat image the normalisation returns an
    all-NaN array; no error is signalled. *)
Lemma normalized_image_flat_no_error :
  Demo.normalized_image (square_image 5)
  = Ok (mk_ndarray 2 2 [NaN; NaN; NaN; NaN]).
Proof.
  reflexivity.
Qed.

(** ** Failures and the [try] block *)

(** In the batch script a step that raises is logged and the caller then
    receives [UnboundLocalError] from [return filtered_labels]. *)
Lemma batch_failure_unbound_local {lib : ImageLib} (image : ndarray float64)
    (spot_sigma outline_sigma threshold : float64) log (e : exn) :
  Batch.segmentation_steps image spot_sigma outline_sigma threshold = Raise e ->
  Batch.cell_segmentation image spot_sigma outline_sigma threshold log
  = (Raise (UnboundLocalError "filtered_labels"),
     log ++ [LogError "Error segmenting image" e]).
Proof.
  intros H. now rewrite batch_cell_segmentation_steps, H.
Qed.

Lemma np_min_nonempty (a : ndarray float64) :
  data a <> [] -> exists x, np_min a = Ok x.
Proof.
  unfold np_min. destruct (data a); [contradiction|]. intros _. eauto.
Qed.

Lemma np_max_nonempty (a : ndarray float64) :
  data a <> [] -> exists x, np_max a = Ok x.
Proof.
  unfold np_max. destruct (data a); [contradiction|]. intros _. eauto.
Qed.

Lemma regionprops_all_background (outlines : ndarray Z) intensity :
  data outlines <> [] ->
  (forall z, In z (data outlines) -> z = 0%Z) ->
  regionprops outlines intensity = Ok [].
Proof.
  intros Hne Hz. unfold regionprops.
  destruct (data outlines) as [|v0 d0] eqn:E; [contradiction|].
  rewrite <- E in *.
  rewrite filter_none; [reflexivity|].
  intros z Hin. apply (proj1 (In_np_unique z _)) in Hin.
  now rewrite (Hz z Hin).
Qed.

Lemma relabel_nonneg_ok (labels : ndarray Z) :
  data labels <> [] ->
  (forall v, In v (data labels) -> (0 <= v)%Z) ->
  exists rel, relabel_sequential labels = Ok rel.
Proof.
  intros Hne Hnn. unfold relabel_sequential, rbind.
  destruct (data labels) as [|x d] eqn:Ed; [contradiction|].
  cbn [int_min].
  assert (Hm : (0 <= fold_left Z.min d x)%Z).
  { apply fold_min_nonneg; [apply Hnn; now left|].
    intros v Hv. apply Hnn. now right. }
  apply Z.ltb_ge in Hm. rewrite Hm. eexists. reflexivity.
Qed.

(** Relabelling an all-zero map of positive size gives an all-zero map. *)
Lemma relabel_zeros (outlines : ndarray Z) :
  data outlines <> [] ->
  exists rel,
    relabel_sequential (zeros_like 0%Z outlines) = Ok rel
    /\ forall z, In z (data (fst (fst rel))) -> z = 0%Z.
Proof.
  intros Hne.
  destruct (relabel_nonneg_ok (zeros_like 0%Z outlines)) as [rel Hrel].
  - simpl. destruct (data outlines); [contradiction|discriminate].
  - simpl. intros v Hin. apply repeat_spec in Hin. lia.
  - exists rel. split; [exact Hrel|]. intros z Hin.
    destruct (In_nth _ _ 0%Z Hin) as [i [_ <-]].
    rewrite (relabelled_pixel _ _ _ Hrel). simpl data.
    now rewrite nth_repeat.
Qed.

Lemma nan_mask (image : ndarray float64) (i : nat) :
  nth i (data (amap (fun x => fgt x (Fin 0)) (amap (fun _ => NaN) image)))
      false = false.
Proof.
  unfold amap. cbn [data].
  rewrite (nth_map_default _ _ NaN) by reflexivity.
  now rewrite (nth_map_default _ _ NaN) by reflexivity.
Qed.

Ltac step_with H := rewrite bind_call, H; cbv beta iota zeta; cbn [fst snd].

(** C4, at the failing input: in the demo script a flat image is normalised
    to NaN without an exception, nothing is labelled, [min(intensities)]
    raises on the empty list inside the [try] block, the handler logs the
    error, and [cell_segmentation] returns an all-background label map to
    its caller. *)
Theorem demo_flat_image_returns_background :
  forall (lib : ImageLib) (contract : ImageLibContract lib)
         (image : ndarray float64) (v : Q)
         (spot_sigma outline_sigma threshold : float64) log
         (blurred outline : ndarray float64) (minima : ndarray bool)
         (seeds flooded : ndarray Z),
    wf image -> data image <> [] ->
    (forall x, In x (data image) -> exists q, x = Fin q /\ (q == v)%Q) ->
    gaussian (amap (fun _ => NaN) image) spot_sigma = Ok blurred ->
    gaussian (amap (fun _ => NaN) image)
      (if negb (feq outline_sigma spot_sigma)
       then outline_sigma else spot_sigma) = Ok outline ->
    local_minima blurred = Ok minima ->
    label minima = Ok seeds ->
    watershed outline seeds
      (amap (fun x => fgt x (Fin 0)) (amap (fun _ => NaN) image))
    = Ok flooded ->
    exists labels log',
      Demo.cell_segmentation image spot_sigma outline_sigma threshold log
      = (Ok (labels, blurred, outline, seeds, flooded), log')
      /\ (forall z, In z (data labels) -> z = 0%Z)
      /\ In (LogError "Error segmenting image" ValueError) log'.
Proof.
  intros lib contract image v ss os t log sb ob mn sp outl
    Hwf Hne Hflat E1 E2 E3 E4 E5.
  pose proof (normalization_zero_range image v Hne Hflat) as Hnorm.
  set (nan := amap (fun _ : float64 => NaN) image) in *.
  assert (Hwn : wf nan).
  { unfold wf, nan, amap in *. cbn [data nrows ncols].
    now rewrite length_map. }
  assert (Hnn : data nan <> []).
  { unfold nan, amap. cbn [data]. intros H. apply map_eq_nil in H.
    contradiction. }
  destruct (np_min_nonempty image Hne) as [lo Hlo].
  destruct (np_max_nonempty image Hne) as [hi Hhi].
  destruct (np_min_nonempty nan Hnn) as [nlo Hnlo].
  destruct (np_max_nonempty nan Hnn) as [nhi Hnhi].
  destruct (gaussian_shape _ _ _ Hwn E2) as [Hwob Hsob].
  destruct (watershed_shape _ _ _ _ Hwob E5) as [Hwoutl Hsoutl].
  assert (Hzero : forall z, In z (data outl) -> z = 0%Z).
  { intros z Hin. destruct (In_nth _ _ 0%Z Hin) as [i [_ <-]].
    apply (watershed_mask _ _ _ _ i E5). apply nan_mask. }
  assert (Hone : data outl <> []).
  { assert (Hlen : length (data outl) = length (data nan)).
    { apply wf_same_length; [exact Hwoutl|exact Hwn|congruence]. }
    intros Hnil. rewrite Hnil in Hlen. apply Hnn.
    apply length_zero_iff_nil. now rewrite <- Hlen. }
  pose proof (regionprops_all_background outl (Some nan) Hone Hzero) as Hreg.
  destruct (relabel_zeros outl Hone) as [rel [Hrel Hall]].
  exists (fst (fst rel)).
  assert (Hbody :
    exists log1,
      Demo.segmentation_body image ss os t (Demo.unbound, log)
      = (Raise ValueError,
         (Demo.mk_locals (Some (fst (fst rel))) (Some sb) (Some ob)
            (Some sp) (Some outl), log1))).
  { unfold Demo.segmentation_body. cbv zeta.
    step_body. step_with Hlo. step_body. step_with Hhi. do 2 step_body.
    step_with Hnorm. step_with Hnlo. step_body. step_with Hnhi.
    do 2 step_body.
    step_with E1. step_body. step_with E2. step_body.
    step_with E3. step_with E4. do 2 step_body.
    step_with E5. do 2 step_body.
    step_with Hreg. rewrite bind_call. cbn [Demo.threshold_loop].
    cbv beta iota zeta. cbn [fst snd].
    step_with Hrel. do 2 step_body.
    rewrite bind_call. cbn [Demo.py_min]. eexists. reflexivity. }
  destruct Hbody as [log1 Hbody].
  exists (log1 ++ [LogError "Error segmenting image" ValueError]).
  split; [|split].
  - unfold Demo.cell_segmentation, try_except, bind, read_local, ret,
      logging_error.
    rewrite Hbody. reflexivity.
  - exact Hall.
  - apply in_or_app. right. now left.
Qed.

Lemma demo_flat_image_returns_background_witness :
  exists labels log',
    Demo.cell_segmentation (lib := raster_lib) (square_image 5)
      (Fin 6) (Fin 3) (Fin (1 # 50)) []
    = (Ok (labels,
           mk_ndarray 2 2 [NaN; NaN; NaN; NaN],
           mk_ndarray 2 2 [NaN; NaN; NaN; NaN],
           mk_ndarray 2 2 [0; 0; 0; 0]%Z,
           mk_ndarray 2 2 [0; 0; 0; 0]%Z), log')
    /\ (forall z, In z (data labels) -> z = 0%Z)
    /\ In (LogError "Error segmenting image" ValueError) log'.
Proof.
  refine (demo_flat_image_returns_background raster_lib raster_lib_contract
            (square_image 5) 5%Q (Fin 6) (Fin 3) (Fin (1 # 50)) []
            _ _ (mk_ndarray 2 2 [false; false; false; false]) _ _
            _ _ _ _ _ _ _ _).
  - reflexivity.
  - discriminate.
  - intros x Hin. exists 5%Q. split; [|reflexivity].
    simpl in Hin. intuition.
  - reflexivity.
  - reflexivity.
  - reflexivity.
  - reflexivity.
  - reflexivity.
Defined.

(** ** The threshold filter, region by region *)

(** The mean taken through a region's coordinates is the mean over the
    pixels carrying its label. *)
Lemma region_mean_pixels (image : ndarray float64) (outlines : ndarray Z)
    (l : Z) :
  wf image -> wf outlines -> shape image = shape outlines ->
  region_mean image outlines l = np_mean (region_pixels image outlines l).
Proof.
  intros Hwi Hwo Hshape. unfold region_mean, region_pixels, argwhere.
  f_equal. rewrite map_map.
  rewrite <- (select_by_index (fun v => (v =? l)%Z) NaN 0%Z)
    by (apply wf_same_length; auto).
  apply map_ext_in. intros i Hin.
  apply filter_In in Hin. destruct Hin as [Hin _]. apply in_seq in Hin.
  destruct (wf_index_bounds outlines i Hwo) as [Hc _]; [lia|].
  unfold getitem. cbn [fst snd].
  unfold shape in Hshape. injection Hshape as _ Hcols.
  now rewrite Hcols, unravel_ravel.
Qed.

Lemma nth_index_of (d : Z) (v : Z) : forall l,
  In v l -> nth (index_of v l) l d = v.
Proof.
  induction l as [|y l IH]; simpl; [contradiction|].
  intros Hin. destruct (v =? y)%Z eqn:E.
  - apply Z.eqb_eq in E. now subst.
  - apply Z.eqb_neq in E. destruct Hin as [Hin|Hin]; [congruence|].
    now apply IH.
Qed.

Lemma index_of_inj (a b : Z) (l : list Z) :
  In a l -> In b l -> index_of a l = index_of b l -> a = b.
Proof.
  intros Ha Hb Heq.
  rewrite <- (nth_index_of 0%Z a l Ha), <- (nth_index_of 0%Z b l Hb).
  now rewrite Heq.
Qed.

(** The relabelled filtered labels satisfy [threshold_filtered]. *)
Lemma filtered_relabelled (image : ndarray float64) (outlines : ndarray Z)
    (threshold : float64) rel :
  wf image -> wf outlines -> shape image = shape outlines ->
  relabel_sequential
    (amap (fun o => if retained image outlines threshold o then o else 0%Z)
       outlines) = Ok rel ->
  threshold_filtered image outlines threshold (fst (fst rel)).
Proof.
  intros Hwi Hwo Hshape Hrel l Hl Hin.
  rewrite <- (region_mean_pixels image outlines l Hwi Hwo Hshape).
  set (filt := fun o => if retained image outlines threshold o
                        then o else 0%Z) in *.
  set (in_vals :=
         0%Z :: filter (Z.ltb 0) (np_unique (data (amap filt outlines)))).
  assert (Hpix : forall i,
             nth i (data (fst (fst rel))) 0%Z
             = Z.of_nat (index_of (filt (nth i (data outlines) 0%Z)) in_vals)).
  { intros i. rewrite (relabelled_pixel _ _ _ Hrel). unfold amap.
    cbn [data]. now rewrite (nth_map_default filt _ 0%Z) by reflexivity. }
  assert (Hmem : forall i, i < length (data outlines) ->
             In (filt (nth i (data outlines) 0%Z)) in_vals).
  { intros i Hi. unfold in_vals.
    destruct (Z.eq_dec (filt (nth i (data outlines) 0%Z)) 0) as [->|Hnz];
      [now left|right].
    apply In_region_labels. split.
    - unfold amap. cbn [data]. apply in_map. now apply nth_In.
    - pose proof (filtered_nonneg image outlines threshold
                    (nth i (data outlines) 0%Z)). unfold filt in *. lia. }
  split.
  - intros Hf i Hi. rewrite Hpix, Hi. unfold filt, retained.
    now rewrite Hf, andb_false_r.
  - intros Hf.
    assert (Hfl : filt l = l).
    { unfold filt, retained. apply Z.ltb_lt in Hl. now rewrite Hl, Hf. }
    exists (Z.of_nat (index_of l in_vals)). split.
    + unfold in_vals. simpl index_of.
      destruct (l =? 0)%Z eqn:E; [apply Z.eqb_eq in E; lia|lia].
    + intros i Hi. rewrite Hpix. split.
      * intros ->. now rewrite Hfl.
      * intros Heq. apply Nat2Z.inj in Heq.
        apply index_of_inj in Heq.
        -- unfold filt in Heq.
           destruct (retained image outlines threshold
                       (nth i (data outlines) 0%Z)); [exact Heq|lia].
        -- now apply Hmem.
        -- destruct (In_nth _ _ 0%Z Hin) as [j [Hj Hjl]].
           rewrite <- Hfl, <- Hjl. now apply Hmem.
Qed.

(** The demo's loop filters as the batch loop does; it only collects the
    means besides. *)
Lemma demo_loop_batch (outlines : ndarray Z) (threshold : float64) :
  forall regions labels intensities,
    match Batch.threshold_loop regions outlines threshold labels with
    | Ok filtered =>
        exists collected,
          Demo.threshold_loop regions outlines threshold labels intensities
          = Ok (filtered, collected)
    | Raise e =>
        Demo.threshold_loop regions outlines threshold labels intensities
        = Raise e
    end.
Proof.
  induction regions as [|region regions IH]; intros labels intensities.
  - simpl. eauto.
  - cbn [Batch.threshold_loop Demo.threshold_loop]. unfold rbind.
    destruct (mean_intensity region) as [mean|e]; [|reflexivity].
    apply IH.
Qed.

Lemma demo_steps_inv {lib : ImageLib} (image : ndarray float64)
    (spot_sigma outline_sigma threshold : float64)
    (labels : ndarray Z) (blurred outline : ndarray float64)
    (seeds flooded : ndarray Z) :
  Demo.segmentation_steps image spot_sigma outline_sigma threshold
  = Ok (labels, blurred, outline, seeds, flooded) ->
  exists normalized minima rel,
    Demo.normalized_image image = Ok normalized
    /\ gaussian normalized
         (if negb (feq outline_sigma spot_sigma)
          then outline_sigma else spot_sigma) = Ok outline
    /\ local_minima blurred = Ok minima
    /\ label minima = Ok seeds
    /\ watershed outline seeds (amap (fun x => fgt x (Fin 0)) normalized)
       = Ok flooded
    /\ relabel_sequential
         (amap (fun o => if retained normalized flooded threshold o
                         then o else 0%Z) flooded) = Ok rel
    /\ labels = fst (fst rel).
Proof.
  unfold Demo.segmentation_steps, rbind.
  destruct (np_min image); [|discriminate].
  destruct (np_max image); [|discriminate].
  destruct (Demo.normalized_image image) as [normalized|] eqn:En;
    [|discriminate].
  destruct (np_min normalized); [|discriminate].
  destruct (np_max normalized); [|discriminate].
  destruct (gaussian normalized spot_sigma) as [sb|] eqn:E1; [|discriminate].
  destruct (gaussian normalized (if negb _ then _ else _)) as [ob|] eqn:E2;
    [|discriminate].
  destruct (local_minima sb) as [mn|] eqn:E3; [|discriminate].
  destruct (label mn) as [sp|] eqn:E4; [|discriminate].
  destruct (watershed ob sp _) as [outl|] eqn:E5; [|discriminate].
  destruct (regionprops outl (Some normalized)) as [regions|] eqn:E6;
    [|discriminate].
  pose proof (demo_loop_batch outl threshold regions
                (zeros_like 0%Z outl) []) as Hloop.
  rewrite (batch_filtered_labels _ _ _ _ E6) in Hloop.
  destruct Hloop as [collected ->]. cbn [fst].
  destruct (relabel_sequential _) as [rel|] eqn:E8; [|discriminate].
  intros H. injection H as <- <- <- <- <-.
  exists normalized, mn, rel. repeat split; assumption.
Qed.

Lemma demo_ok_steps {lib : ImageLib} (image : ndarray float64)
    (spot_sigma outline_sigma threshold : float64) log out :
  fst (Demo.cell_segmentation image spot_sigma outline_sigma threshold log)
  = Ok out ->
  Demo.segmentation_steps image spot_sigma outline_sigma threshold = Ok out.
Proof.
  rewrite demo_cell_segmentation_steps.
  destruct (Demo.segmentation_steps _ _ _ _); congruence.
Qed.

Lemma normalized_image_shape (image normalized : ndarray float64) :
  wf image -> Demo.normalized_image image = Ok normalized ->
  wf normalized /\ shape normalized = shape image.
Proof.
  unfold Demo.normalized_image, rbind. intros Hwf.
  destruct (np_min image); [|discriminate].
  destruct (np_max image); [|discriminate].
  intros H. injection H as <-. unfold wf, amap in *.
  cbn [data nrows ncols]. now rewrite length_map.
Qed.

(** The steps of the batch [try] block are the watershed labels followed
    by the filter. *)
Lemma batch_steps_split {lib : ImageLib} (image : ndarray float64)
    (spot_sigma outline_sigma threshold : float64) :
  Batch.segmentation_steps image spot_sigma outline_sigma threshold
  = (outlines <- Batch.watershed_labels image spot_sigma outline_sigma ;;
     Batch.threshold_filter image outlines threshold)%result.
Proof.
  unfold Batch.segmentation_steps, Batch.watershed_labels,
    Batch.threshold_filter, rbind.
  destruct (gaussian image spot_sigma); [|reflexivity].
  destruct (gaussian image (if negb _ then _ else _)); [|reflexivity].
  destruct (local_minima _); [|reflexivity].
  destruct (label _); reflexivity.
Qed.

(** C5, as the code behaves: the mean of each watershed region is taken
    under the image the function segments, which is the input itself in the
    batch script and the normalised image in the demo script; the region is
    zeroed out when that mean does not exceed the threshold and keeps all
    of its pixels when it does.  The watershed labels are those of the run:
    what its calls up to [watershed] return in the batch script, the
    returned [outlines] in the demo script. *)
Theorem threshold_filter_per_region :
  forall (lib : ImageLib) (contract : ImageLibContract lib)
         (image : ndarray float64)
         (spot_sigma outline_sigma threshold : float64) log,
    wf image ->
    (forall m,
       fst (Batch.cell_segmentation image spot_sigma outline_sigma
              threshold log) = Ok m ->
       exists outlines,
         Batch.watershed_labels image spot_sigma outline_sigma = Ok outlines
         /\ Batch.threshold_filter image outlines threshold = Ok m
         /\ threshold_filtered image outlines threshold m)
    /\ (forall labels blurred outline seeds flooded,
          fst (Demo.cell_segmentation image spot_sigma outline_sigma
                 threshold log)
          = Ok (labels, blurred, outline, seeds, flooded) ->
          exists normalized,
            Demo.normalized_image image = Ok normalized
            /\ watershed outline seeds
                 (amap (fun x => fgt x (Fin 0)) normalized) = Ok flooded
            /\ threshold_filtered normalized flooded threshold labels).
Proof.
  intros lib contract image ss os t log Hwf. split.
  - intros m Hrun. apply batch_ok_steps in Hrun.
    pose proof Hrun as Hsplit. rewrite batch_steps_split in Hsplit.
    apply batch_steps_inv in Hrun.
    destruct Hrun as (sb & ob & mn & sp & outl & regions & rel
                      & E1 & E2 & E3 & E4 & E5 & E6 & Hrel & ->).
    destruct (gaussian_shape _ _ _ Hwf E2) as [Hwob Hsob].
    destruct (watershed_shape _ _ _ _ Hwob E5) as [Hwoutl Hsoutl].
    assert (Hw : Batch.watershed_labels image ss os = Ok outl).
    { unfold Batch.watershed_labels, rbind. now rewrite E1, E2, E3, E4. }
    exists outl. split; [exact Hw|]. rewrite Hw in Hsplit.
    split; [exact Hsplit|].
    apply filtered_relabelled; [exact Hwf|exact Hwoutl|congruence|exact Hrel].
  - intros labels sb ob sp outl Hrun.
    apply demo_ok_steps, demo_steps_inv in Hrun.
    destruct Hrun as (normalized & mn & rel & En & E2 & E3 & E4 & E5
                      & Hrel & ->).
    destruct (normalized_image_shape _ _ Hwf En) as [Hwn Hsn].
    destruct (gaussian_shape _ _ _ Hwn E2) as [Hwob Hsob].
    destruct (watershed_shape _ _ _ _ Hwob E5) as [Hwoutl Hsoutl].
    exists normalized. split; [exact En|]. split; [exact E5|].
    apply filtered_relabelled; [exact Hwn|exact Hwoutl|congruence|exact Hrel].
Qed.

Lemma threshold_filter_per_region_witness :
  (exists outlines,
     Batch.watershed_labels (lib := raster_lib)
       (row_image [1; 5; 9; 1; 7; 3]%Q) (Fin 6) (Fin 3) = Ok outlines
     /\ Batch.threshold_filter (row_image [1; 5; 9; 1; 7; 3]%Q) outlines
          (Fin (6 # 10))
        = Ok (mk_ndarray 1 6 [1; 1; 1; 2; 2; 2]%Z)
     /\ threshold_filtered (row_image [1; 5; 9; 1; 7; 3]%Q) outlines
          (Fin (6 # 10)) (mk_ndarray 1 6 [1; 1; 1; 2; 2; 2]%Z))
  /\ (exists normalized,
        Demo.normalized_image (row_image [1; 5; 9; 1; 7; 3]%Q)
        = Ok normalized
        /\ watershed (ImageLib := raster_lib) sample_normalized
             (mk_ndarray 1 6 [1; 0; 0; 2; 0; 0]%Z)
             (amap (fun x => fgt x (Fin 0)) normalized)
           = Ok (mk_ndarray 1 6 [0; 1; 1; 0; 2; 2]%Z)
        /\ threshold_filtered normalized
             (mk_ndarray 1 6 [0; 1; 1; 0; 2; 2]%Z) (Fin (6 # 10))
             (mk_ndarray 1 6 [0; 1; 1; 0; 0; 0]%Z)).
Proof.
  destruct (threshold_filter_per_region raster_lib raster_lib_contract
              (row_image [1; 5; 9; 1; 7; 3]%Q) (Fin 6) (Fin 3)
              (Fin (6 # 10)) [] eq_refl) as [Hbatch Hdemo].
  split.
  - apply Hbatch. vm_compute. reflexivity.
  - apply (Hdemo (mk_ndarray 1 6 [0; 1; 1; 0; 0; 0]%Z) sample_normalized
             sample_normalized (mk_ndarray 1 6 [1; 0; 0; 2; 0; 0]%Z)
             (mk_ndarray 1 6 [0; 1; 1; 0; 2; 2]%Z)).
    vm_compute. reflexivity.
Defined.

(** C5, as stated, fails on the batch script, which never normalises.  When
    the watershed labels of this image form one region, the batch filter at
    threshold 4 keeps it, its mean under the input being 26/6, although its
    mean under the normalised image, 5/12, does not exceed the threshold. *)
Lemma batch_filter_mean_of_input :
  Batch.threshold_filter (row_image [1; 5; 9; 1; 7; 3]%Q)
    (mk_ndarray 1 6 [1; 1; 1; 1; 1; 1]%Z) (Fin 4)
  = Ok (mk_ndarray 1 6 [1; 1; 1; 1; 1; 1]%Z)
  /\ fgt (region_mean (row_image [1; 5; 9; 1; 7; 3]%Q)
            (mk_ndarray 1 6 [1; 1; 1; 1; 1; 1]%Z) 1%Z) (Fin 4) = true
  /\ Demo.normalized_image (row_image [1; 5; 9; 1; 7; 3]%Q)
     = Ok sample_normalized
  /\ fgt (region_mean sample_normalized
            (mk_ndarray 1 6 [1; 1; 1; 1; 1; 1]%Z) 1%Z) (Fin 4) = false.
Proof.
  repeat split; vm_compute; reflexivity.
Qed.

(** * Further properties of the scripts *)

(** ** The demo's Quantifier *)

(** X1: the demo's [quantify_edge_intensity] returns what the batch
    script's returns, on every image and label map: a value or an
    exception, the same one. *)
Theorem demo_quantify_agrees_with_batch :
  forall (image : ndarray float64) (labels : ndarray Z) log,
    fst (Demo.quantify_edge_intensity image labels log)
    = fst (Batch.quantify_edge_intensity image labels log).
Proof.
  intros image labels log.
  unfold Demo.quantify_edge_intensity, Batch.quantify_edge_intensity,
    Demo.quantification_body, Batch.quantification_body, try_except, bind,
    call, assign, logging_info, logging_error, read_local.
  destruct (regionprops labels None) as [regions|e]; [|reflexivity].
  destruct (Batch.perimeter_loop regions _) as [perimeters|e]; reflexivity.
Qed.

(** ** Label maps that do not fit the image *)

Lemma index_assign_shape {A} (p p' : ndarray A) coords (v : A) :
  index_assign p coords v = Ok p' ->
  nrows p' = nrows p /\ ncols p' = ncols p.
Proof.
  unfold index_assign. destruct (forallb _ coords); [|discriminate].
  intros H. injection H as <-. now split.
Qed.

(** The loop raises [IndexError] as soon as one region has a pixel outside
    the array. *)
Lemma perimeter_loop_outside (r c : nat) : forall regions perimeters,
  (exists region, In region regions /\ In (r, c) (coords region)) ->
  nrows perimeters <= r \/ ncols perimeters <= c ->
  Batch.perimeter_loop regions perimeters = Raise IndexError.
Proof.
  induction regions as [|region regions IH]; intros p [bad [Hin Hrc]] Hout.
  - contradiction.
  - cbn [Batch.perimeter_loop]. unfold rbind.
    destruct (index_assign p (coords region) (Fin 1)) as [p'|e] eqn:E.
    + destruct (index_assign_shape _ _ _ _ E) as [Hr Hc].
      apply IH; [|now rewrite Hr, Hc].
      destruct Hin as [->|Hin]; [|now exists bad].
      exfalso. unfold index_assign in E.
      destruct (forallb _ (coords bad)) eqn:Eb; [|discriminate].
      rewrite forallb_forall in Eb. specialize (Eb _ Hrc).
      cbn [fst snd] in Eb. apply andb_true_iff in Eb.
      destruct Eb as [E1 E2]. apply Nat.ltb_lt in E1, E2. lia.
    + unfold index_assign in E. destruct (forallb _ _); [discriminate|].
      now injection E as <-.
Qed.

(** X2: when a positive label sits at a coordinate outside the image,
    [quantify_edge_intensity] logs the [IndexError] of the assignment and
    its caller receives [UnboundLocalError]. *)
Theorem quantify_edge_intensity_label_outside_image :
  forall (image : ndarray float64) (labels : ndarray Z) log (i : nat),
    i < length (data labels) ->
    (0 < nth i (data labels) 0)%Z ->
    nrows image <= i / ncols labels \/ ncols image <= i mod ncols labels ->
    Batch.quantify_edge_intensity image labels log
    = (Raise (UnboundLocalError "edge_intensity"),
       log ++ [LogError "Error analyzing image" IndexError]).
Proof.
  intros image labels log i Hi Hpos Hout.
  unfold Batch.quantify_edge_intensity, Batch.quantification_body,
    try_except, bind, call, assign, logging_info, logging_error, read_local.
  rewrite regionprops_no_intensity
    by (intros E; rewrite E in Hi; simpl in Hi; lia).
  rewrite (perimeter_loop_outside (i / ncols labels) (i mod ncols labels));
    [reflexivity| |exact Hout].
  exists (mk_region (nth i (data labels) 0%Z)
            (argwhere labels (nth i (data labels) 0%Z)) None).
  split.
  - apply in_map_iff. exists (nth i (data labels) 0%Z). split; [reflexivity|].
    apply In_region_labels. split; [now apply nth_In|exact Hpos].
  - cbn [coords]. unfold argwhere. apply in_map_iff. exists i.
    split; [reflexivity|]. apply filter_In. split; [apply in_seq; lia|].
    apply Z.eqb_refl.
Qed.

Lemma quantify_edge_intensity_label_outside_image_witness :
  Batch.quantify_edge_intensity (row_image [3; 4]%Q)
    (mk_ndarray 2 2 [0; 0; 0; 1]%Z) []
  = (Raise (UnboundLocalError "edge_intensity"),
     [LogError "Error analyzing image" IndexError]).
Proof.
  refine (quantify_edge_intensity_label_outside_image (row_image [3; 4]%Q)
            (mk_ndarray 2 2 [0; 0; 0; 1]%Z) [] 3 _ _ _).
  - simpl. lia.
  - simpl. lia.
  - left. simpl. lia.
Defined.

(** ** The returned labels are already sequential, and in watershed order *)

Lemma sorted_ext : forall l1 l2 : list Z,
  StronglySorted Z.lt l1 -> StronglySorted Z.lt l2 ->
  (forall x, In x l1 <-> In x l2) -> l1 = l2.
Proof.
  induction l1 as [|a l1 IH]; intros [|b l2] H1 H2 Hext.
  - reflexivity.
  - exfalso. apply (proj2 (Hext b)). now left.
  - exfalso. apply (proj1 (Hext a)). now left.
  - inversion H1 as [|? ? H1' Ha]; subst.
    inversion H2 as [|? ? H2' Hb]; subst.
    rewrite Forall_forall in Ha, Hb.
    assert (Hab : a = b).
    { destruct (proj1 (Hext a) (or_introl eq_refl)) as [E|Hin]; [auto|].
      destruct (proj2 (Hext b) (or_introl eq_refl)) as [E|Hin']; [auto|].
      specialize (Ha _ Hin'). specialize (Hb _ Hin). lia. }
    subst b. f_equal. apply IH; [exact H1'|exact H2'|].
    intros x. split; intros Hin.
    + destruct (proj1 (Hext x) (or_intror Hin)) as [E|Hin']; [|exact Hin'].
      specialize (Ha _ Hin). lia.
    + destruct (proj2 (Hext x) (or_intror Hin)) as [E|Hin']; [|exact Hin'].
      specialize (Hb _ Hin). lia.
Qed.

Lemma sorted_filter (f : Z -> bool) : forall l : list Z,
  StronglySorted Z.lt l -> StronglySorted Z.lt (filter f l).
Proof.
  induction l as [|x l IH]; intros Hs; simpl; [constructor|].
  inversion Hs as [|? ? Hs' Hall]; subst.
  destruct (f x); [|now apply IH].
  constructor; [now apply IH|]. rewrite Forall_forall in *.
  intros y Hy. apply filter_In in Hy. now apply Hall.
Qed.

Lemma sorted_range : forall n s,
  StronglySorted Z.lt (map Z.of_nat (seq s n)).
Proof.
  induction n as [|n IH]; intros s; simpl; constructor; [apply IH|].
  apply Forall_forall. intros y Hy. apply in_map_iff in Hy.
  destruct Hy as [k [<- Hk]]. apply in_seq in Hk. lia.
Qed.

Lemma region_labels_sorted (a : list Z) :
  StronglySorted Z.lt (0%Z :: filter (Z.ltb 0) (np_unique a)).
Proof.
  constructor; [apply sorted_filter, np_unique_sorted|].
  apply Forall_forall. intros y Hy. apply In_region_labels in Hy. tauto.
Qed.

(** In a densely labelled map every value is its own rank. *)
Lemma dense_labels_rank (m : ndarray Z) (K : nat) (v : Z) :
  dense_labels m K -> In v (data m) ->
  Z.of_nat (index_of v (0%Z :: filter (Z.ltb 0) (np_unique (data m)))) = v.
Proof.
  intros [Hrange Hall] Hin.
  assert (HL : 0%Z :: filter (Z.ltb 0) (np_unique (data m))
               = map Z.of_nat (seq 0 (S K))).
  { apply sorted_ext; [apply region_labels_sorted|apply sorted_range|].
    intros x. split.
    - intros [<-|Hx].
      + apply in_map_iff. exists 0. split; [reflexivity|apply in_seq; lia].
      + apply In_region_labels in Hx. destruct Hx as [Hx Hpos].
        specialize (Hrange x Hx). apply in_map_iff. exists (Z.to_nat x).
        split; [lia|apply in_seq; lia].
    - intros Hx. apply in_map_iff in Hx. destruct Hx as [k [<- Hk]].
      apply in_seq in Hk. destruct k as [|k]; [now left|right].
      apply In_region_labels. split; [apply Hall; lia|lia]. }
  specialize (Hrange v Hin).
  assert (Hv : v = nth (Z.to_nat v)
                     (0%Z :: filter (Z.ltb 0) (np_unique (data m))) 0%Z).
  { rewrite HL. rewrite (nth_map_default Z.of_nat _ 0) by reflexivity.
    rewrite seq_nth by lia. lia. }
  rewrite Hv at 1. rewrite index_of_nth.
  - lia.
  - apply region_labels_NoDup.
  - rewrite HL, length_map, length_seq. lia.
Qed.

(** X3: the map [cell_segmentation] returns is a fixed point of
    [relabel_sequential]: relabelling it again changes nothing. *)
Theorem cell_segmentation_relabel_fixed_point :
  forall (lib : ImageLib) (image : ndarray float64)
         (spot_sigma outline_sigma threshold : float64) log (m : ndarray Z),
    fst (Batch.cell_segmentation image spot_sigma outline_sigma threshold log)
    = Ok m ->
    exists forward inverse, relabel_sequential m = Ok (m, forward, inverse).
Proof.
  intros lib image ss os t log m Hrun.
  apply batch_ok_steps, batch_steps_inv in Hrun.
  destruct Hrun as (sb & ob & mn & sp & outl & regions & rel
                    & _ & _ & _ & _ & _ & _ & Hrel & ->).
  pose proof (relabel_sequential_dense _ _ Hrel) as Hd.
  destruct (relabel_sequential_spec _ _ Hrel) as [_ [Hne Heq]].
  destruct (relabel_nonneg_ok (fst (fst rel))) as [[[again fw] inv] Hagain].
  - rewrite Heq. unfold amap. cbn [data]. intros Hnil.
    apply map_eq_nil in Hnil. contradiction.
  - intros v Hv. apply (proj1 Hd) in Hv. lia.
  - exists fw, inv. rewrite Hagain. do 3 f_equal.
    destruct (relabel_sequential_spec _ _ Hagain) as [_ [_ Hspec]].
    cbn [fst] in Hspec. rewrite Hspec.
    destruct (fst (fst rel)) as [r c d] eqn:Em. unfold amap.
    cbn [nrows ncols data] in *. f_equal.
    rewrite <- (map_id d) at 2. apply map_ext_in. intros v Hv.
    apply (dense_labels_rank (mk_ndarray r c d) _ v Hd Hv).
Qed.

Lemma cell_segmentation_relabel_fixed_point_witness :
  exists forward inverse,
    relabel_sequential (mk_ndarray 1 6 [1; 1; 1; 2; 2; 2]%Z)
    = Ok (mk_ndarray 1 6 [1; 1; 1; 2; 2; 2]%Z, forward, inverse).
Proof.
  refine (cell_segmentation_relabel_fixed_point raster_lib
            (row_image [1; 5; 9; 1; 7; 3]%Q) (Fin 6) (Fin 3) (Fin 3) [] _ _).
  reflexivity.
Defined.

Lemma index_of_lt_sorted (a b : Z) : forall l : list Z,
  StronglySorted Z.lt l -> In a l -> In b l -> (a < b)%Z ->
  index_of a l < index_of b l.
Proof.
  induction l as [|y l IH]; intros Hs Ha Hb Hab; [contradiction|].
  inversion Hs as [|? ? Hs' Hall]; subst. rewrite Forall_forall in Hall.
  simpl. destruct (a =? y)%Z eqn:Ea.
  - apply Z.eqb_eq in Ea. subst y.
    destruct (b =? a)%Z eqn:Eb; [apply Z.eqb_eq in Eb; lia|lia].
  - apply Z.eqb_neq in Ea. destruct Ha as [Ha|Ha]; [congruence|].
    specialize (Hall _ Ha) as Hya.
    destruct (b =? y)%Z eqn:Eb; [apply Z.eqb_eq in Eb; lia|].
    apply Z.eqb_neq in Eb. destruct Hb as [Hb|Hb]; [congruence|].
    apply -> Nat.succ_lt_mono. now apply IH.
Qed.

(** X4: relabelling in the demo keeps the regions and their order: two
    labelled pixels of the returned map carry the same label exactly when
    they carried the same watershed label, and their labels are ordered as
    their watershed labels were. *)
Theorem demo_relabelling_keeps_order :
  forall (lib : ImageLib) (image : ndarray float64)
         (spot_sigma outline_sigma threshold : float64) log
         (labels : ndarray Z) (blurred outline : ndarray float64)
         (seeds flooded : ndarray Z) (i j : nat),
    fst (Demo.cell_segmentation image spot_sigma outline_sigma threshold log)
    = Ok (labels, blurred, outline, seeds, flooded) ->
    (0 < nth i (data labels) 0)%Z -> (0 < nth j (data labels) 0)%Z ->
    ((nth i (data labels) 0 < nth j (data labels) 0)%Z
     <-> (nth i (data flooded) 0 < nth j (data flooded) 0)%Z)
    /\ (nth i (data labels) 0%Z = nth j (data labels) 0%Z
        <-> nth i (data flooded) 0%Z = nth j (data flooded) 0%Z).
Proof.
  intros lib image ss os t log labels sb ob sp outl i j Hrun Hi Hj.
  apply demo_ok_steps, demo_steps_inv in Hrun.
  destruct Hrun as (normalized & mn & rel & _ & _ & _ & _ & _ & Hrel & ->).
  set (filt := fun o => if retained normalized outl t o then o else 0%Z) in *.
  set (L := 0%Z :: filter (Z.ltb 0) (np_unique (data (amap filt outl)))).
  assert (Hpix : forall k,
             nth k (data (fst (fst rel))) 0%Z
             = Z.of_nat (index_of (filt (nth k (data outl) 0%Z)) L)).
  { intros k. rewrite (relabelled_pixel _ _ _ Hrel). unfold amap.
    cbn [data]. now rewrite (nth_map_default filt _ 0%Z) by reflexivity. }
  assert (Hkeep : forall k,
             (0 < nth k (data (fst (fst rel))) 0)%Z ->
             filt (nth k (data outl) 0%Z) = nth k (data outl) 0%Z
             /\ In (nth k (data outl) 0%Z) L).
  { intros k Hk. apply (relabelled_positive _ _ _ Hrel) in Hk.
    unfold amap in Hk. cbn [data] in Hk.
    assert (Hin : In (nth k (map filt (data outl)) 0%Z) (map filt (data outl))).
    { destruct (nth_in_or_default k (map filt (data outl)) 0%Z) as [H|H];
        [exact H|lia]. }
    rewrite (nth_map_default filt _ 0%Z) in Hk, Hin by reflexivity.
    assert (Hf : filt (nth k (data outl) 0%Z) = nth k (data outl) 0%Z).
    { unfold filt in *.
      destruct (retained normalized outl t (nth k (data outl) 0%Z));
        [reflexivity|lia]. }
    split; [exact Hf|]. right. apply In_region_labels.
    unfold amap. cbn [data]. rewrite <- Hf. split; [exact Hin|exact Hk]. }
  destruct (Hkeep i Hi) as [Hfi Hini]. destruct (Hkeep j Hj) as [Hfj Hinj].
  rewrite !Hpix, Hfi, Hfj.
  pose proof (region_labels_sorted (data (amap filt outl))) as Hs.
  fold L in Hs.
  assert (Hlt : forall a b, In a L -> In b L ->
            (Z.of_nat (index_of a L) < Z.of_nat (index_of b L))%Z
            <-> (a < b)%Z).
  { intros a b Ha Hb. split.
    - intros Hidx. destruct (Z.lt_trichotomy a b) as [H|[H|H]]; [exact H| |].
      + subst. lia.
      + pose proof (index_of_lt_sorted b a L Hs Hb Ha H). lia.
    - intros Hab. pose proof (index_of_lt_sorted a b L Hs Ha Hb Hab). lia. }
  split; [now apply Hlt|]. split.
  - intros Heq. apply Nat2Z.inj in Heq.
    now apply (index_of_inj _ _ L Hini Hinj).
  - now intros ->.
Qed.

Lemma demo_relabelling_keeps_order_witness :
  ((nth 1 [0; 1; 1; 0; 0; 0; 0; 2; 2]%Z 0
    < nth 7 [0; 1; 1; 0; 0; 0; 0; 2; 2]%Z 0)%Z
   <-> (nth 1 [0; 1; 1; 0; 2; 2; 0; 3; 3]%Z 0
        < nth 7 [0; 1; 1; 0; 2; 2; 0; 3; 3]%Z 0)%Z)
  /\ (nth 1 [0; 1; 1; 0; 0; 0; 0; 2; 2]%Z 0%Z
      = nth 7 [0; 1; 1; 0; 0; 0; 0; 2; 2]%Z 0%Z
      <-> nth 1 [0; 1; 1; 0; 2; 2; 0; 3; 3]%Z 0%Z
          = nth 7 [0; 1; 1; 0; 2; 2; 0; 3; 3]%Z 0%Z).
Proof.
  refine (demo_relabelling_keeps_order raster_lib
            (row_image [1; 5; 9; 1; 7; 3; 1; 8; 8]%Q) (Fin 6) (Fin 3)
            (Fin (6 # 10)) []
            (mk_ndarray 1 9 [0; 1; 1; 0; 0; 0; 0; 2; 2]%Z) _ _ _
            (mk_ndarray 1 9 [0; 1; 1; 0; 2; 2; 0; 3; 3]%Z) 1 7 _ _ _).
  - vm_compute. reflexivity.
  - simpl. lia.
  - simpl. lia.
Defined.

(** ** Segmentation followed by quantification *)

Lemma batch_result_wf {lib : ImageLib} {contract : ImageLibContract lib}
    (image : ndarray float64)
    (spot_sigma outline_sigma threshold : float64) log (m : ndarray Z) :
  wf image ->
  fst (Batch.cell_segmentation image spot_sigma outline_sigma threshold log)
  = Ok m ->
  wf m.
Proof.
  intros Hwf Hrun. apply batch_ok_steps, batch_steps_inv in Hrun.
  destruct Hrun as (sb & ob & mn & sp & outl & regions & rel
                    & E1 & E2 & E3 & E4 & E5 & E6 & Hrel & ->).
  destruct (gaussian_shape _ _ _ Hwf E2) as [Hwob _].
  destruct (watershed_shape _ _ _ _ Hwob E5) as [Hwoutl _].
  destruct (relabel_sequential_spec _ _ Hrel) as [_ [_ ->]].
  unfold wf, amap in *. cbn [data nrows ncols]. now rewrite !length_map.
Qed.

Lemma In_combine_nth {A B} (dA : A) (dB : B) : forall (a : list A)
    (b : list B) x y,
  In (x, y) (combine a b) -> exists i, nth i a dA = x /\ nth i b dB = y.
Proof.
  induction a as [|x0 a IH]; intros [|y0 b] x y Hin; simpl in Hin;
    try contradiction.
  destruct Hin as [E|Hin].
  - injection E as -> ->. now exists 0.
  - destruct (IH b x y Hin) as [i Hi]. now exists (S i).
Qed.

(** A selected pixel is a pixel of the image at a positively labelled
    position. *)
Lemma labelled_pixels_inv (image : ndarray float64) (labels : ndarray Z) x :
  In x (labelled_pixels image labels) ->
  In x (data image)
  /\ exists i, nth i (data image) NaN = x /\ (0 < nth i (data labels) 0)%Z.
Proof.
  unfold labelled_pixels. intros Hin. apply in_map_iff in Hin.
  destruct Hin as [[x' v] [Hx Hin]]. cbn [fst] in Hx. subst x'.
  apply filter_In in Hin. destruct Hin as [Hin Hpos]. cbn [snd] in Hpos.
  apply Z.ltb_lt in Hpos. split; [now apply in_combine_l in Hin|].
  destruct (In_combine_nth NaN 0%Z _ _ _ _ Hin) as [i [H1 H2]].
  exists i. now rewrite H2.
Qed.

Lemma batch_result_nonempty {lib : ImageLib} (image : ndarray float64)
    (spot_sigma outline_sigma threshold : float64) log (m : ndarray Z) :
  fst (Batch.cell_segmentation image spot_sigma outline_sigma threshold log)
  = Ok m ->
  data m <> [].
Proof.
  intros Hrun. apply batch_ok_steps, batch_steps_inv in Hrun.
  destruct Hrun as (sb & ob & mn & sp & outl & regions & rel
                    & E1 & E2 & E3 & E4 & E5 & E6 & Hrel & ->).
  apply regionprops_ok_nonempty in E6.
  destruct (relabel_sequential_spec _ _ Hrel) as [_ [_ ->]].
  unfold amap. cbn [data]. intros H.
  apply map_eq_nil in H. apply map_eq_nil in H. contradiction.
Qed.

Lemma fgt_zero_nonnegative (x : float64) :
  fgt x (Fin 0) = true -> nonnegative x.
Proof.
  destruct x as [q| | |]; try discriminate; [|now left].
  simpl. intros H. apply negb_true_iff in H. right. exists q.
  split; [reflexivity|]. now apply Qlt_le_weak, Qle_bool_false_lt.
Qed.

Lemma fadd_nonnegative (x y : float64) :
  nonnegative x -> nonnegative y -> nonnegative (fadd x y).
Proof.
  intros [->|[a [-> Ha]]] [->|[b [-> Hb]]]; try (now left).
  cbn [fadd]. apply round64_nonneg.
  change 0%Q with (0 + 0)%Q. now apply Qplus_le_compat.
Qed.

(** The float64 mean of values that are not negative is not negative, and
    never NaN: the additions and the division keep the sign, and may
    overflow to plus infinity only. *)
Lemma np_mean_nonnegative (l : list float64) :
  l <> [] -> Forall nonnegative l -> nonnegative (np_mean l).
Proof.
  intros Hne Hl. unfold np_mean.
  assert (Hs : nonnegative (np_sum l)).
  { apply np_sum_closed; [|exact fadd_nonnegative|exact Hl].
    right. exists 0%Q. split; [reflexivity|apply Qle_refl]. }
  assert (Hn : (0 < inject_Z (Z.of_nat (length l)))%Q).
  { destruct l; [contradiction|]. unfold Qlt, inject_Z. simpl. lia. }
  destruct Hs as [->|[q [-> Hq]]]; cbn [fdiv].
  - left. assert (H : Qle_bool 0 (inject_Z (Z.of_nat (length l))) = true)
      by (apply Qle_bool_iff; now apply Qlt_le_weak).
    now rewrite H.
  - assert (H : Qeq_bool (inject_Z (Z.of_nat (length l))) 0 = false).
    { destruct (Qeq_bool _ 0) eqn:E; [|reflexivity].
      apply Qeq_bool_iff in E. rewrite E in Hn.
      now apply Qlt_irrefl in Hn. }
    rewrite H. apply round64_nonneg. unfold Qdiv.
    apply Qmult_le_0_compat; [exact Hq|].
    apply Qinv_le_0_compat. now apply Qlt_le_weak.
Qed.

(** X5: when the batch [cell_segmentation] returns a map,
    [quantify_edge_intensity] on that map never raises; it returns NaN when
    no region was retained, and otherwise a number that is not negative, or
    plus infinity when the float64 sum overflows, but never NaN. *)
Theorem batch_pipeline_intensity :
  forall (lib : ImageLib) (contract : ImageLibContract lib)
         (image : ndarray float64)
         (spot_sigma outline_sigma threshold : float64) log log'
         (m : ndarray Z),
    wf image ->
    fst (Batch.cell_segmentation image spot_sigma outline_sigma threshold log)
    = Ok m ->
    (count_labels m = 0 ->
     fst (Batch.quantify_edge_intensity image m log') = Ok NaN)
    /\ (0 < count_labels m ->
        exists v,
          fst (Batch.quantify_edge_intensity image m log') = Ok v
          /\ nonnegative v).
Proof.
  intros lib contract image ss os t log log' m Hwf Hrun.
  destruct (batch_result_pixels image ss os t log m Hwf Hrun)
    as [Hshape Hpix].
  pose proof (batch_result_wf image ss os t log m Hwf Hrun) as Hwm.
  pose proof (batch_result_nonempty image ss os t log m Hrun) as Hnm.
  rewrite (quantify_edge_intensity_spec image m log' Hwf Hwm Hshape Hnm).
  cbn [fst]. unfold count_labels. split.
  - intros Hzero. apply length_zero_iff_nil in Hzero.
    rewrite labelled_pixels_background; [reflexivity|].
    intros v Hv. destruct (Z.leb_spec v 0) as [H|H]; [exact H|].
    exfalso. assert (Hin : In v (filter (Z.ltb 0) (np_unique (data m))))
      by (apply In_region_labels; now split).
    now rewrite Hzero in Hin.
  - intros Hsome.
    assert (Hex : exists v, In v (data m) /\ (0 < v)%Z).
    { destruct (filter (Z.ltb 0) (np_unique (data m))) as [|v l] eqn:E;
        [simpl in Hsome; lia|].
      exists v. apply In_region_labels. rewrite E. now left. }
    assert (Hlen : length (data image) = length (data m))
      by (apply wf_same_length; auto).
    pose proof (labelled_pixels_nonempty image m Hlen Hex) as Hne.
    eexists. split; [reflexivity|].
    apply np_mean_nonnegative; [exact Hne|].
    apply Forall_forall. intros x Hx.
    destruct (labelled_pixels_inv _ _ _ Hx) as [Hin [i [Hi Hl]]].
    apply fgt_zero_nonnegative.
    destruct (fgt x (Fin 0)) eqn:E; [reflexivity|].
    rewrite <- Hi in E. rewrite (Hpix i E) in Hl. lia.
Qed.

Lemma batch_pipeline_intensity_witness :
  (count_labels (mk_ndarray 1 6 [1; 1; 1; 0; 0; 0]%Z) = 0 ->
   fst (Batch.quantify_edge_intensity (row_image [1; 5; 9; 1; 7; 3]%Q)
          (mk_ndarray 1 6 [1; 1; 1; 0; 0; 0]%Z) [])
   = Ok NaN)
  /\ (0 < count_labels (mk_ndarray 1 6 [1; 1; 1; 0; 0; 0]%Z) ->
      exists v,
        fst (Batch.quantify_edge_intensity (row_image [1; 5; 9; 1; 7; 3]%Q)
               (mk_ndarray 1 6 [1; 1; 1; 0; 0; 0]%Z) [])
        = Ok v
        /\ nonnegative v).
Proof.
  refine (batch_pipeline_intensity raster_lib raster_lib_contract
            (row_image [1; 5; 9; 1; 7; 3]%Q) (Fin 6) (Fin 3) (Fin 4) [] []
            _ _ _).
  - reflexivity.
  - vm_compute. reflexivity.
Defined.

(** ** Thresholds that no mean exceeds *)

(** X6: no float64 exceeds NaN or plus infinity, so with such a threshold
    the batch filter removes every region, whatever the image: the returned
    map is all background. *)
Theorem batch_threshold_nan_or_infinite :
  forall (lib : ImageLib) (image : ndarray float64)
         (spot_sigma outline_sigma threshold : float64) log (m : ndarray Z),
    threshold = NaN \/ threshold = PInf ->
    fst (Batch.cell_segmentation image spot_sigma outline_sigma threshold
           log) = Ok m ->
    Forall (fun v => v = 0%Z) (data m).
Proof.
  intros lib image ss os t log m Ht Hrun.
  apply Forall_forall. intros v Hv.
  apply batch_ok_steps, batch_steps_inv in Hrun.
  destruct Hrun as (sb & ob & mn & sp & outl & regions & rel
                    & E1 & E2 & E3 & E4 & E5 & E6 & Hrel & ->).
  destruct (In_nth _ _ 0%Z Hv) as [i [_ <-]].
  rewrite (relabelled_pixel _ _ _ Hrel). unfold amap. cbn [data].
  rewrite (nth_map_default _ _ 0%Z) by reflexivity.
  replace (retained image outl t (nth i (data outl) 0%Z)) with false;
    [reflexivity|].
  symmetry. unfold retained. apply andb_false_iff. right.
  destruct Ht as [->| ->]; now destruct (region_mean _ _ _).
Qed.

Lemma batch_threshold_nan_or_infinite_witness :
  Forall (fun v => v = 0%Z) (data (mk_ndarray 1 6 [0; 0; 0; 0; 0; 0]%Z)).
Proof.
  refine (batch_threshold_nan_or_infinite raster_lib
            (row_image [1; 5; 9; 1; 7; 3]%Q) (Fin 6) (Fin 3) NaN [] _ _ _).
  - now left.
  - vm_compute. reflexivity.
Defined.

(** ** The darkest pixels in the demo *)




(** ** File names *)

Lemma string_length_append : forall a b : string,
  String.length (a ++ b) = String.length a + String.length b.
Proof.
  induction a as [|c a IH]; intros b; simpl; [reflexivity|]. now rewrite IH.
Qed.

Lemma substring_all : forall s : string,
  substring 0 (String.length s) s = s.
Proof.
  induction s as [|c s IH]; simpl; [reflexivity|]. now rewrite IH.
Qed.

Lemma substring_skip : forall (a b : string) (m : nat),
  substring (String.length a) m (a ++ b) = substring 0 m b.
Proof.
  induction a as [|c a IH]; intros b m; simpl; [reflexivity|]. apply IH.
Qed.

Lemma substring_split : forall (s : string) (k : nat),
  k <= String.length s ->
  s = (substring 0 k s ++ substring k (String.length s - k) s)%string.
Proof.
  induction s as [|c s IH]; intros k Hk; simpl in Hk.
  - assert (k = 0) by lia. subst. reflexivity.
  - destruct k as [|k].
    + cbn [substring String.length Nat.sub append].
      now rewrite substring_all.
    + cbn [substring String.length Nat.sub append]. f_equal. apply IH. lia.
Qed.

Lemma length_substring : forall (s : string) (n m : nat),
  n + m <= String.length s -> String.length (substring n m s) = m.
Proof.
  induction s as [|c s IH]; intros n m H; simpl in H.
  - assert (n = 0) by lia. assert (m = 0) by lia. subst. reflexivity.
  - destruct n as [|n]; destruct m as [|m]; cbn [substring String.length].
    + reflexivity.
    + f_equal. apply IH. lia.
    + apply IH. lia.
    + apply IH. lia.
Qed.

Lemma length_lower : forall s : string,
  String.length (lower s) = String.length s.
Proof.
  induction s as [|c s IH]; simpl; [reflexivity|]. now rewrite IH.
Qed.

Lemma lower_append : forall a b : string,
  lower (a ++ b) = (lower a ++ lower b)%string.
Proof.
  induction a as [|c a IH]; intros b; simpl; [reflexivity|]. now rewrite IH.
Qed.

Lemma substring_lower : forall (s : string) (n m : nat),
  substring n m (lower s) = lower (substring n m s).
Proof.
  induction s as [|c s IH]; intros [|n] [|m]; simpl; try reflexivity;
    try apply IH.
  now rewrite IH.
Qed.

Lemma endswith_append (a b : string) : endswith (a ++ b) b = true.
Proof.
  unfold endswith. rewrite string_length_append.
  replace (String.length a + String.length b - String.length b)
    with (String.length a) by lia.
  rewrite substring_skip, substring_all, String.eqb_refl.
  apply andb_true_iff. split; [apply Nat.leb_le; lia|reflexivity].
Qed.

Lemma endswith_inv (s suffix : string) :
  endswith s suffix = true ->
  String.length suffix <= String.length s
  /\ substring (String.length s - String.length suffix)
       (String.length suffix) s = suffix.
Proof.
  unfold endswith. intros H. apply andb_true_iff in H.
  destruct H as [H1 H2]. apply Nat.leb_le in H1.
  apply String.eqb_eq in H2. now split.
Qed.

(** X8: the extension test of the three scripts accepts exactly the names
    that end in [.tif] or [.tiff], in any mixture of upper and lower
    case. *)
Theorem tif_extension_case_insensitive :
  forall name : string,
    tif_extension name = true
    <-> exists stem ext,
          name = (stem ++ ext)%string
          /\ In (lower ext) [".tif"; ".tiff"]%string.
Proof.
  intros name. unfold tif_extension. rewrite existsb_exists. split.
  - intros [suffix [Hin Hends]].
    destruct (endswith_inv _ _ Hends) as [Hlen Hsub].
    rewrite length_lower in Hlen, Hsub.
    set (k := String.length name - String.length suffix) in *.
    exists (substring 0 k name), (substring k (String.length name - k) name).
    split; [apply substring_split; lia|].
    replace (String.length name - k) with (String.length suffix) by lia.
    now rewrite <- substring_lower, Hsub.
  - intros [stem [ext [-> Hin]]]. exists (lower ext). split; [exact Hin|].
    rewrite lower_append. apply endswith_append.
Qed.

(** ** The batch script's [main] *)

(** One iteration of the loop over the directory listing: a name without
    the extension is skipped; a file that is measured adds its row; a file
    whose measurement raises ends the loop with that exception. *)
Lemma process_files_cons {lib : ImageLib} (env : Batch.environment)
    (args : Batch.arguments) (name : string) (rest : list string) rows log :
  let input_dir := Batch.abspath env (Batch.input args) in
  (tif_extension name = false ->
   exists log1,
     Batch.process_files env args input_dir (name :: rest) (rows, log)
     = Batch.process_files env args input_dir rest (rows, log1))
  /\ (tif_extension name = true ->
      forall v, edge_intensity_of env args name = Ok v ->
      exists log1,
        Batch.process_files env args input_dir (name :: rest) (rows, log)
        = Batch.process_files env args input_dir rest
            (rows ++ [[Text name; Number v]], log1))
  /\ (tif_extension name = true ->
      forall e, edge_intensity_of env args name = Raise e ->
      exists log1,
        Batch.process_files env args input_dir (name :: rest) (rows, log)
        = (Raise e, (rows, log1))).
Proof.
  intros input_dir. cbn [Batch.process_files].
  unfold edge_intensity_of, rbind, andthen, info, error, attempt, logged,
    update. fold input_dir. cbn [fst snd].
  destruct (tif_extension name); cbn [negb].
  - split; [discriminate|].
    destruct (Batch.imread env (path_join input_dir name)) as [image|e0].
    + destruct (Batch.cell_segmentation image _ _ _ []) as [[labels|e1] lg1];
        cbn [fst snd].
      * destruct (Batch.quantify_edge_intensity image labels [])
          as [[v0|e2] lg2]; cbn [fst snd].
        -- split; intros _ ? H; [injection H as <-|discriminate].
           eexists. reflexivity.
        -- split; intros _ ? H; [discriminate|injection H as <-].
           eexists. reflexivity.
      * split; intros _ ? H; [discriminate|injection H as <-].
        eexists. reflexivity.
    + split; intros _ ? H; [discriminate|injection H as <-].
      eexists. reflexivity.
  - split; [|split; discriminate]. intros _. eexists. reflexivity.
Qed.

(** The rows the loop adds when every listed TIFF file is measured. *)
Lemma process_files_all_measured {lib : ImageLib} (env : Batch.environment)
    (args : Batch.arguments) : forall files rows log,
  (forall name, In name files -> tif_extension name = true ->
     exists v, edge_intensity_of env args name = Ok v) ->
  exists added log',
    Batch.process_files env args (Batch.abspath env (Batch.input args))
      files (rows, log)
    = (Ok tt, (rows ++ added, log'))
    /\ Forall2 (data_row env args) (filter tif_extension files) added.
Proof.
  induction files as [|name files IH]; intros rows log Hok.
  - exists [], log. split; [now rewrite app_nil_r|constructor].
  - destruct (process_files_cons env args name files rows log)
      as [Hskip [Hrow _]].
    cbn [filter]. destruct (tif_extension name) eqn:Et.
    + destruct (Hok name (or_introl eq_refl) Et) as [v Hv].
      destruct (Hrow eq_refl v Hv) as [log1 ->].
      destruct (IH (rows ++ [[Text name; Number v]]) log1)
        as [added [log' [Hrun Hrows]]];
        [intros n Hn; apply Hok; now right|].
      exists ([Text name; Number v] :: added), log'. split.
      * rewrite Hrun. now rewrite <- app_assoc.
      * constructor; [now exists v|exact Hrows].
    + destruct (Hskip eq_refl) as [log1 ->].
      apply IH. intros n Hn. apply Hok. now right.
Qed.

(** X9: in a valid directory, when every listed file with the extension is
    read, segmented and quantified without an exception, [main] replaces
    the content of [results.csv] by the header row followed by one row per
    such file, in listing order; the other names give no row. *)
Theorem batch_main_writes_one_row_per_tif :
  forall (lib : ImageLib) (env : Batch.environment) (args : Batch.arguments)
         (previous : list row) log,
    let input_dir := Batch.abspath env (Batch.input args) in
    Batch.isdir env input_dir = true ->
    Batch.open_results env (path_join input_dir "results.csv") = Ok tt ->
    (forall name, In name (Batch.listdir env input_dir) ->
       tif_extension name = true ->
       exists v, edge_intensity_of env args name = Ok v) ->
    exists rows log',
      Batch.main env args (previous, log)
      = (Ok tt, (Batch.header :: rows, log'))
      /\ Forall2 (data_row env args)
           (filter tif_extension (Batch.listdir env input_dir)) rows.
Proof.
  intros lib env args previous log input_dir Hdir Hopen Hok.
  destruct (process_files_all_measured env args
              (Batch.listdir env input_dir) [Batch.header] log Hok)
    as [added [log' [Hrun Hrows]]].
  exists added, log'. split; [|exact Hrows].
  unfold Batch.main. fold input_dir. rewrite Hdir. cbn [negb].
  unfold andthen, attempt, update. rewrite Hopen. cbn [fst snd app].
  exact Hrun.
Qed.

(** The rows the loop adds before the first file whose measurement
    raises. *)
Lemma process_files_first_failure {lib : ImageLib} (env : Batch.environment)
    (args : Batch.arguments) (name : string) (e : exn) (after : list string) :
  tif_extension name = true ->
  edge_intensity_of env args name = Raise e ->
  forall before rows log,
    (forall n, In n before -> tif_extension n = true ->
       exists v, edge_intensity_of env args n = Ok v) ->
    exists added log',
      Batch.process_files env args (Batch.abspath env (Batch.input args))
        (before ++ name :: after) (rows, log)
      = (Raise e, (rows ++ added, log'))
      /\ Forall2 (data_row env args) (filter tif_extension before) added.
Proof.
  intros Ht He. induction before as [|n before IH]; intros rows log Hok.
  - destruct (process_files_cons env args name after rows log)
      as [_ [_ Hfail]].
    destruct (Hfail Ht e He) as [log1 Hrun].
    exists [], log1. split; [now rewrite app_nil_r|constructor].
  - destruct (process_files_cons env args n (before ++ name :: after)
                rows log) as [Hskip [Hrow _]].
    cbn [app filter]. destruct (tif_extension n) eqn:Et.
    + destruct (Hok n (or_introl eq_refl) Et) as [v Hv].
      destruct (Hrow eq_refl v Hv) as [log1 ->].
      destruct (IH (rows ++ [[Text n; Number v]]) log1)
        as [added [log' [Hrun Hrows]]];
        [intros n' Hn'; apply Hok; now right|].
      exists ([Text n; Number v] :: added), log'. split.
      * rewrite Hrun. now rewrite <- app_assoc.
      * constructor; [now exists v|exact Hrows].
    + destruct (Hskip eq_refl) as [log1 ->].
      apply IH. intros n' Hn'. apply Hok. now right.
Qed.

(** X10: the first listed TIFF file that cannot be read, segmented or
    quantified ends the batch: [main] raises that file's exception,
    [results.csv] holds the header and the rows of the files before it, and
    no later file is processed. *)
Theorem batch_main_stops_at_first_failure :
  forall (lib : ImageLib) (env : Batch.environment) (args : Batch.arguments)
         (previous : list row) log (before after : list string)
         (name : string) (e : exn),
    let input_dir := Batch.abspath env (Batch.input args) in
    Batch.isdir env input_dir = true ->
    Batch.open_results env (path_join input_dir "results.csv") = Ok tt ->
    Batch.listdir env input_dir = before ++ name :: after ->
    (forall n, In n before -> tif_extension n = true ->
       exists v, edge_intensity_of env args n = Ok v) ->
    tif_extension name = true ->
    edge_intensity_of env args name = Raise e ->
    exists rows log',
      Batch.main env args (previous, log)
      = (Raise e, (Batch.header :: rows, log'))
      /\ Forall2 (data_row env args) (filter tif_extension before) rows.
Proof.
  intros lib env args previous log before after name e input_dir
    Hdir Hopen Hlist Hok Ht He.
  destruct (process_files_first_failure env args name e after Ht He
              before [Batch.header] log Hok)
    as [added [log' [Hrun Hrows]]].
  exists added, log'. split; [|exact Hrows].
  unfold Batch.main. fold input_dir. rewrite Hdir. cbn [negb].
  unfold andthen, attempt, update. rewrite Hopen, Hlist. cbn [fst snd app].
  exact Hrun.
Qed.

Lemma batch_main_writes_one_row_per_tif_witness :
  exists rows log',
    Batch.main (lib := raster_lib)
      (sample_directory ["a.tif"; "notes.txt"; "c.TIFF"; "results.csv"]%string)
      sample_arguments ([[Text "stale"]], [])
    = (Ok tt, (Batch.header :: rows, log'))
    /\ Forall2
         (data_row (lib := raster_lib)
            (sample_directory
               ["a.tif"; "notes.txt"; "c.TIFF"; "results.csv"]%string)
            sample_arguments)
         ["a.tif"; "c.TIFF"]%string rows.
Proof.
  refine (batch_main_writes_one_row_per_tif raster_lib
            (sample_directory
               ["a.tif"; "notes.txt"; "c.TIFF"; "results.csv"]%string)
            sample_arguments [[Text "stale"]] [] _ _ _).
  - reflexivity.
  - reflexivity.
  - intros name Hin Ht. simpl in Hin.
    destruct Hin as [<-|[<-|[<-|[<-|[]]]]].
    + eexists. vm_compute. reflexivity.
    + vm_compute in Ht. discriminate.
    + eexists. vm_compute. reflexivity.
    + vm_compute in Ht. discriminate.
Defined.

Lemma batch_main_stops_at_first_failure_witness :
  exists rows log',
    Batch.main (lib := raster_lib)
      (sample_directory ["a.tif"; "bad.tif"; "c.TIFF"]%string)
      sample_arguments ([], [])
    = (Raise ValueError, (Batch.header :: rows, log'))
    /\ Forall2
         (data_row (lib := raster_lib)
            (sample_directory ["a.tif"; "bad.tif"; "c.TIFF"]%string)
            sample_arguments)
         ["a.tif"]%string rows.
Proof.
  refine (batch_main_stops_at_first_failure raster_lib
            (sample_directory ["a.tif"; "bad.tif"; "c.TIFF"]%string)
            sample_arguments [] [] ["a.tif"]%string ["c.TIFF"]%string
            "bad.tif"%string ValueError _ _ _ _ _ _).
  - reflexivity.
  - reflexivity.
  - reflexivity.
  - intros n Hin Ht. simpl in Hin. destruct Hin as [<-|[]].
    eexists. vm_compute. reflexivity.
  - reflexivity.
  - reflexivity.
Defined.

(** ** The demo script's [main] *)

(** X11: the demo's extension test only logs.  For an existing file that is
    read, segmented and quantified, [main] fills the viewer with the six
    layers whether or not the name ends in [.tif] or [.tiff]; in the latter
    case the log also holds the error message. *)
Theorem demo_main_ignores_extension :
  forall (lib : ImageLib) (env : Demo.environment) (args : Demo.arguments)
         (shown : list Demo.layer) log (image : ndarray float64)
         (labels : ndarray Z) (blurred outline : ndarray float64)
         (seeds flooded : ndarray Z) (v : float64) records records',
    let input_path := Demo.abspath env (Demo.input args) in
    Demo.path_exists env input_path = true ->
    Demo.imread env input_path = Ok image ->
    Demo.cell_segmentation image (Demo.spot args) (Demo.outline args)
      (Demo.threshold args) []
    = (Ok (labels, blurred, outline, seeds, flooded), records) ->
    Demo.quantify_edge_intensity image labels [] = (Ok v, records') ->
    exists log',
      Demo.main env args (shown, log)
      = (Ok tt,
         ([Demo.ImageLayer "Original Image" image;
           Demo.ImageLayer "Spot Blurred" blurred;
           Demo.ImageLayer "Outline Blurred" outline;
           Demo.LabelsLayer "Cells" labels;
           Demo.LabelsLayer "Spots" seeds;
           Demo.LabelsLayer "Outlines" flooded], log'))
      /\ (tif_extension input_path = false ->
          In (ErrorMessage
                "The input file does not have a .tif or .tiff extension.")
             log').
Proof.
  intros lib env args shown log image labels sb ob sp outl v lg lg'
    input_path Hex Hread Hseg Hq.
  unfold Demo.main. fold input_path. rewrite Hex. cbn [negb].
  unfold andthen, attempt, logged, info, error, update, done.
  destruct (tif_extension input_path); cbn [negb fst snd];
    rewrite Hread, Hseg; cbn [fst snd]; rewrite Hq; cbn [fst snd app];
    eexists; (split; [reflexivity|]).
  - discriminate.
  - intros _. rewrite <- !app_assoc. apply in_or_app. right. now left.
Qed.

Lemma demo_main_ignores_extension_witness :
  exists log',
    Demo.main (lib := raster_lib) (sample_file "/data/photo.png")
      (Demo.mk_arguments "/data/photo.png" (Fin 6) (Fin 3) (Fin (6 # 10)))
      ([], [])
    = (Ok tt,
       ([Demo.ImageLayer "Original Image" (row_image [1; 5; 9; 1; 7; 3]%Q);
         Demo.ImageLayer "Spot Blurred"
           (mk_ndarray 1 6
              [Fin 0; Fin (1 # 2); Fin 1; Fin 0; Fin (3 # 4);
               Fin (1 # 4)]);
         Demo.ImageLayer "Outline Blurred"
           (mk_ndarray 1 6
              [Fin 0; Fin (1 # 2); Fin 1; Fin 0; Fin (3 # 4);
               Fin (1 # 4)]);
         Demo.LabelsLayer "Cells" (mk_ndarray 1 6 [0; 1; 1; 0; 0; 0]%Z);
         Demo.LabelsLayer "Spots" (mk_ndarray 1 6 [1; 0; 0; 2; 0; 0]%Z);
         Demo.LabelsLayer "Outlines" (mk_ndarray 1 6 [0; 1; 1; 0; 2; 2]%Z)],
        log'))
    /\ (tif_extension "/data/photo.png" = false ->
        In (ErrorMessage
              "The input file does not have a .tif or .tiff extension.")
           log').
Proof.
  refine (demo_main_ignores_extension raster_lib
            (sample_file "/data/photo.png")
            (Demo.mk_arguments "/data/photo.png" (Fin 6) (Fin 3)
               (Fin (6 # 10)))
            [] [] _ _ _ _ _ _ _ _ _ _ _ _ _).
  - reflexivity.
  - reflexivity.
  - vm_compute. reflexivity.
  - vm_compute. reflexivity.
Defined.

(** X12: when a step of the demo's segmentation raises before
    [filtered_labels] is bound, [main] ends with [UnboundLocalError] and the
    viewer is never opened. *)
Theorem demo_main_segmentation_failure :
  forall (lib : ImageLib) (env : Demo.environment) (args : Demo.arguments)
         (shown : list Demo.layer) log (image : ndarray float64) (e : exn),
    let input_path := Demo.abspath env (Demo.input args) in
    Demo.path_exists env input_path = true ->
    Demo.imread env input_path = Ok image ->
    Demo.segmentation_steps image (Demo.spot args) (Demo.outline args)
      (Demo.threshold args) = Raise e ->
    exists log',
      Demo.main env args (shown, log)
      = (Raise (UnboundLocalError "filtered_labels"), (shown, log')).
Proof.
  intros lib env args shown log image e input_path Hex Hread Hsteps.
  pose proof (demo_cell_segmentation_steps image (Demo.spot args)
                (Demo.outline args) (Demo.threshold args) []) as Hseg.
  rewrite Hsteps in Hseg.
  unfold Demo.main. fold input_path. rewrite Hex. cbn [negb].
  unfold andthen, attempt, logged, info, error, update, done.
  destruct (tif_extension input_path); cbn [negb fst snd];
    rewrite Hread; cbn [fst snd];
    destruct (Demo.cell_segmentation image _ _ _ []) as [r lg];
    cbn [fst] in Hseg; subst r; eexists; reflexivity.
Qed.

Lemma demo_main_segmentation_failure_witness :
  exists log',
    Demo.main (lib := raster_lib) (sample_file "/data/empty.tif")
      (Demo.mk_arguments "/data/empty.tif" (Fin (-1)) (Fin 3) (Fin (6 # 10)))
      ([], [])
    = (Raise (UnboundLocalError "filtered_labels"), ([], log')).
Proof.
  refine (demo_main_segmentation_failure raster_lib
            (sample_file "/data/empty.tif")
            (Demo.mk_arguments "/data/empty.tif" (Fin (-1)) (Fin 3)
               (Fin (6 # 10)))
            [] [] _ ValueError _ _ _).
  - reflexivity.
  - reflexivity.
  - vm_compute. reflexivity.
Defined.

(** ** Frame paths of [split_tif] *)

Lemma decimal_inj (i j : nat) : decimal i = decimal j -> i = j.
Proof.
  unfold decimal. intros H. apply DecimalNat.Unsigned.to_uint_inj.
  pose proof (NilEmpty.usu (Nat.to_uint i)) as Hi.
  pose proof (NilEmpty.usu (Nat.to_uint j)) as Hj.
  rewrite H in Hi. rewrite Hi in Hj. now injection Hj.
Qed.

Lemma append_cancel_l : forall a x y : string,
  (a ++ x)%string = (a ++ y)%string -> x = y.
Proof.
  induction a as [|c a IH]; intros x y H; simpl in H; [exact H|].
  injection H as H. now apply IH.
Qed.

Lemma append_cancel_r (s : string) : forall x y : string,
  (x ++ s)%string = (y ++ s)%string -> x = y.
Proof.
  induction x as [|c x IH]; intros [|d y] H; simpl in H.
  - reflexivity.
  - exfalso. apply (f_equal String.length) in H. simpl in H.
    rewrite string_length_append in H. lia.
  - exfalso. apply (f_equal String.length) in H. simpl in H.
    rewrite string_length_append in H. lia.
  - injection H as -> H. f_equal. now apply IH.
Qed.

Lemma rfind_none_cons (c x : ascii) (t : string) :
  rfind c (String x t) = None -> Ascii.eqb x c = false /\ rfind c t = None.
Proof.
  simpl. destruct (rfind c t); [discriminate|].
  destruct (Ascii.eqb x c); [discriminate|]. now split.
Qed.

(** What follows the last occurrence holds no occurrence. *)
Lemma rfind_tail (c : ascii) : forall (s : string) (i : nat),
  rfind c s = Some i ->
  rfind c (substring (S i) (String.length s - S i) s) = None.
Proof.
  induction s as [|x s IH]; intros i H; simpl in H; [discriminate|].
  destruct (rfind c s) as [j|] eqn:E.
  - injection H as <-. cbn [substring String.length Nat.sub]. now apply IH.
  - destruct (Ascii.eqb x c); [|discriminate]. injection H as <-.
    cbn [substring String.length Nat.sub]. rewrite Nat.sub_0_r.
    now rewrite substring_all.
Qed.

Lemma rfind_prefix (c : ascii) : forall (s : string) (d : nat),
  rfind c s = None -> rfind c (substring 0 d s) = None.
Proof.
  induction s as [|x s IH]; intros [|d] H; try reflexivity.
  apply rfind_none_cons in H. destruct H as [Hx Hs].
  cbn [substring rfind]. now rewrite (IH d Hs), Hx.
Qed.

(** The stem [split_tif] builds its file names from holds no separator. *)
Lemma stem_no_separator (p : string) :
  rfind "/" (fst (splitext (basename p))) = None.
Proof.
  assert (Hb : rfind "/" (basename p) = None).
  { unfold basename. destruct (rfind "/" p) as [i|] eqn:E; [|exact E].
    now apply rfind_tail. }
  unfold splitext. rewrite Hb.
  destruct (rfind "." (basename p)) as [d|]; [|exact Hb].
  destruct (_ && _); [|exact Hb]. cbn [fst]. now apply rfind_prefix.
Qed.

Lemma path_join_relative (a : string) (c : ascii) (t : string) :
  Ascii.eqb c "/" = false ->
  path_join a (String c t)
  = (a ++ (if ((String.length a =? 0)%nat || endswith a "/")%bool
           then String c t else "/" ++ String c t))%string.
Proof.
  intros Hc. unfold path_join.
  destruct ((String.length a =? 0) || endswith a "/");
    destruct c as [[] [] [] [] [] [] [] []]; try reflexivity;
    discriminate Hc.
Qed.

(** Distinct frames are saved under distinct paths. *)
Lemma frame_path_inj (input_path output_dir : string) (i j : nat) :
  frame_path input_path output_dir i = frame_path input_path output_dir j ->
  i = j.
Proof.
  unfold frame_path. pose proof (stem_no_separator input_path) as Hs.
  destruct (fst (splitext (basename input_path))) as [|c stem].
  - cbn [append].
    rewrite !(path_join_relative output_dir "_") by reflexivity.
    intros H. apply append_cancel_l in H.
    destruct (_ || _).
    + injection H as H. apply append_cancel_r in H. now apply decimal_inj.
    + injection H as H. apply append_cancel_r in H. now apply decimal_inj.
  - apply rfind_none_cons in Hs. destruct Hs as [Hc _]. cbn [append].
    rewrite !(path_join_relative output_dir c) by exact Hc.
    intros H. apply append_cancel_l in H.
    assert (H' : (stem ++ "_" ++ decimal i ++ ".tif")%string
                 = (stem ++ "_" ++ decimal j ++ ".tif")%string)
      by (destruct (_ || _); now injection H).
    apply append_cancel_l in H'. injection H' as H'.
    apply append_cancel_r in H'. now apply decimal_inj.
Qed.

(** ** [split_tif] *)

Section SplitTifFacts.
Variable Frame : Type.
Variable env : SplitTif.environment Frame.
Variables input_path output_dir : string.

Let stem : string := fst (splitext (basename input_path)).

Let saved (written : SplitTif.files Frame) (items : list (nat * Frame))
  : SplitTif.files Frame :=
  fold_left
    (fun w (item : nat * Frame) =>
       SplitTif.write Frame (frame_path input_path output_dir (fst item))
         (snd item) w)
    items written.

(** When every save returns, the loop writes every frame. *)
Lemma save_frames_saved : forall items written log,
  (forall i frame, In (i, frame) items ->
     SplitTif.save Frame env (frame_path input_path output_dir i) frame
     = Ok tt) ->
  SplitTif.save_frames Frame env output_dir stem items (written, log)
  = (Ok tt, (saved written items, log)).
Proof.
  induction items as [|[i frame] items IH]; intros written log Hok.
  - reflexivity.
  - cbn [SplitTif.save_frames]. unfold bind, call, assign.
    change (path_join output_dir (stem ++ "_" ++ decimal i ++ ".tif"))
      with (frame_path input_path output_dir i).
    rewrite (Hok i frame) by now left. cbn [fst snd].
    rewrite IH; [reflexivity|]. intros j g Hin. apply Hok. now right.
Qed.

Lemma saved_elsewhere (q : string) : forall items written,
  (forall i frame, In (i, frame) items ->
     frame_path input_path output_dir i <> q) ->
  saved written items q = written q.
Proof.
  induction items as [|[i frame] items IH]; intros written Hq;
    [reflexivity|].
  unfold saved in *. cbn [fold_left fst snd]. rewrite IH.
  - unfold SplitTif.write.
    destruct (String.eqb_spec q (frame_path input_path output_dir i))
      as [E|_]; [|reflexivity].
    exfalso. apply (Hq i frame (or_introl eq_refl)). now symmetry.
  - intros j g Hin. apply (Hq j g). now right.
Qed.

Lemma saved_frame : forall items written i frame,
  NoDup (map fst items) -> In (i, frame) items ->
  saved written items (frame_path input_path output_dir i) = Some frame.
Proof.
  induction items as [|[i0 f0] items IH]; intros written i frame Hnd Hin;
    [contradiction|].
  cbn [map fst] in Hnd. inversion Hnd as [|? ? Hnotin Hnd']; subst.
  destruct Hin as [E|Hin].
  - injection E as -> ->.
    change (saved (SplitTif.write Frame (frame_path input_path output_dir i)
                     frame written) items
              (frame_path input_path output_dir i) = Some frame).
    rewrite saved_elsewhere.
    + unfold SplitTif.write. now rewrite String.eqb_refl.
    + intros j g Hj Heq. apply frame_path_inj in Heq. subst j.
      apply Hnotin. now apply (in_map fst) in Hj.
  - now apply IH.
Qed.

(** Whatever happens, the loop leaves a path as it was or holding the frame
    of the index in its name. *)
Lemma save_frames_safe : forall items written log r written' log',
  SplitTif.save_frames Frame env output_dir stem items (written, log)
  = (r, (written', log')) ->
  log' = log
  /\ forall q,
      written' q = written q
      \/ exists i frame,
           In (i, frame) items
           /\ q = frame_path input_path output_dir i
           /\ written' q = Some frame.
Proof.
  induction items as [|[i frame] items IH];
    intros written log r written' log' Hrun.
  - injection Hrun as <- <- <-. split; [reflexivity|]. now left.
  - cbn [SplitTif.save_frames] in Hrun. unfold bind, call, assign in Hrun.
    change (path_join output_dir (stem ++ "_" ++ decimal i ++ ".tif"))
      with (frame_path input_path output_dir i) in Hrun.
    destruct (SplitTif.save Frame env (frame_path input_path output_dir i)
                frame) as [[]|e].
    + cbn [fst snd] in Hrun. apply IH in Hrun.
      destruct Hrun as [Hlog Hsafe]. split; [exact Hlog|].
      intros q. destruct (Hsafe q) as [Hq|[j [g [Hin [Hp Hw]]]]].
      * unfold SplitTif.write in Hq.
        destruct (String.eqb_spec q (frame_path input_path output_dir i))
          as [E|_]; [|now left].
        right. exists i, frame. repeat split; [now left|exact E|exact Hq].
      * right. exists j, g. repeat split; [now right|exact Hp|exact Hw].
    + injection Hrun as <- <- <-. split; [reflexivity|]. now left.
Qed.

Lemma In_combine_seq : forall (frames : list Frame) (s i : nat) frame,
  In (i, frame) (combine (seq s (length frames)) frames)
  <-> s <= i /\ nth_error frames (i - s) = Some frame.
Proof.
  induction frames as [|f frames IH]; intros s i frame.
  - simpl. split; [contradiction|]. intros [_ H].
    destruct (i - s); discriminate.
  - cbn [length seq combine In]. rewrite IH. split.
    + intros [E|[Hle Hn]].
      * injection E as <- <-. split; [lia|]. now rewrite Nat.sub_diag.
      * split; [lia|]. replace (i - s) with (S (i - S s)) by lia. exact Hn.
    + intros [Hle Hn]. destruct (i - s) as [|k] eqn:E.
      * left. injection Hn as <-. f_equal. lia.
      * right. split; [lia|]. replace (i - S s) with k by lia. exact Hn.
Qed.

Lemma map_fst_combine_seq : forall (frames : list Frame) (s : nat),
  map fst (combine (seq s (length frames)) frames) = seq s (length frames).
Proof.
  induction frames as [|f frames IH]; intros s; simpl; [reflexivity|].
  now rewrite IH.
Qed.

(** X13: when the file opens and every save returns, [split_tif] writes
    frame [i] of the file to [{output_dir}/{stem}_{i}.tif] for every frame,
    no frame overwrites another, and no other path is touched. *)
Theorem split_tif_saves_every_frame :
  forall (written : SplitTif.files Frame) log (frames : list Frame),
    SplitTif.image_open Frame env input_path = Ok frames ->
    (forall i frame, nth_error frames i = Some frame ->
       SplitTif.save Frame env (frame_path input_path output_dir i) frame
       = Ok tt) ->
    exists written',
      SplitTif.split_tif Frame env input_path output_dir (written, log)
      = (Ok tt,
         (written',
          log ++ [LogInfo ("Successfully split and saved images to "
                           ++ output_dir)%string]))
      /\ (forall i frame, nth_error frames i = Some frame ->
            written' (frame_path input_path output_dir i) = Some frame)
      /\ (forall q,
            (forall i, i < length frames ->
               frame_path input_path output_dir i <> q) ->
            written' q = written q).
Proof.
  intros written log frames Hopen Hsave.
  exists (saved written (combine (seq 0 (length frames)) frames)).
  split; [|split].
  - unfold SplitTif.split_tif, SplitTif.split_body, try_except.
    cbv zeta. rewrite bind_call, Hopen.
    unfold bind, logging_info. fold stem. rewrite save_frames_saved.
    + reflexivity.
    + intros i frame Hin. apply In_combine_seq in Hin.
      apply Hsave. now rewrite Nat.sub_0_r in Hin.
  - intros i frame Hn. apply saved_frame.
    + rewrite map_fst_combine_seq. apply seq_NoDup.
    + apply In_combine_seq. rewrite Nat.sub_0_r. split; [lia|exact Hn].
  - intros q Hq. apply saved_elsewhere. intros i frame Hin.
    apply In_combine_seq in Hin. rewrite Nat.sub_0_r in Hin.
    apply Hq. apply nth_error_Some. destruct Hin as [_ Hn]. congruence.
Qed.

Lemma split_tif_safe :
  forall (written : SplitTif.files Frame) log,
    exists written' log',
      SplitTif.split_tif Frame env input_path output_dir (written, log)
      = (Ok tt, (written', log'))
      /\ (forall q,
            written' q = written q
            \/ exists frames i frame,
                 SplitTif.image_open Frame env input_path = Ok frames
                 /\ nth_error frames i = Some frame
                 /\ q = frame_path input_path output_dir i
                 /\ written' q = Some frame)
      /\ (forall e,
            SplitTif.image_open Frame env input_path = Raise e ->
            written' = written
            /\ log' = log ++ [LogError "Error splitting TIF file" e]).
Proof.
  intros written log.
  unfold SplitTif.split_tif, SplitTif.split_body, try_except. cbv zeta.
  rewrite bind_call.
  destruct (SplitTif.image_open Frame env input_path) as [frames|e0].
  - unfold bind, logging_info, logging_error. fold stem.
    destruct (SplitTif.save_frames Frame env output_dir stem
                (combine (seq 0 (length frames)) frames) (written, log))
      as [r [written' log']] eqn:E.
    apply save_frames_safe in E. destruct E as [-> Hsafe].
    assert (Hq : forall q,
               written' q = written q
               \/ exists frames0 i frame,
                    Ok frames = Ok frames0
                    /\ nth_error frames0 i = Some frame
                    /\ q = frame_path input_path output_dir i
                    /\ written' q = Some frame).
    { intros q. destruct (Hsafe q) as [H|[i [frame [Hin [Hp Hw]]]]];
        [now left|right].
      exists frames, i, frame. apply In_combine_seq in Hin.
      rewrite Nat.sub_0_r in Hin. now repeat split. }
    destruct r as [[]|e]; cbn [fst snd]; eexists; eexists;
      (split; [reflexivity|]); (split; [exact Hq|]); discriminate.
  - cbn [fst snd]. unfold logging_error. cbn [fst snd].
    eexists; eexists. split; [reflexivity|]. split.
    + intros q. now left.
    + intros e H. injection H as <-. now split.
Qed.

(** X14: [split_tif] never raises, whatever fails inside it.  Afterwards
    every path is as it was or holds the frame of the input file whose index
    is in its name; when the file cannot be opened the exception is logged
    and nothing is written. *)
Theorem split_tif_only_writes_frames :
  forall (written : SplitTif.files Frame) log,
    exists written' log',
      SplitTif.split_tif Frame env input_path output_dir (written, log)
      = (Ok tt, (written', log'))
      /\ (forall q,
            written' q = written q
            \/ exists frames i frame,
                 SplitTif.image_open Frame env input_path = Ok frames
                 /\ nth_error frames i = Some frame
                 /\ q = frame_path input_path output_dir i
                 /\ written' q = Some frame)
      /\ (forall e,
            SplitTif.image_open Frame env input_path = Raise e ->
            written' = written
            /\ log' = log ++ [LogError "Error splitting TIF file" e]).
Proof. exact split_tif_safe. Qed.

(** The loop stops at the first save that raises: the frames before it are
    written, nothing else is. *)
Lemma save_frames_first_failure :
  forall (frames : list Frame) s k frame_k e written log,
    nth_error frames k = Some frame_k ->
    SplitTif.save Frame env (frame_path input_path output_dir (s + k)) frame_k
    = Raise e ->
    (forall i frame, i < k -> nth_error frames i = Some frame ->
       SplitTif.save Frame env (frame_path input_path output_dir (s + i)) frame
       = Ok tt) ->
    exists written',
      SplitTif.save_frames Frame env output_dir stem
        (combine (seq s (length frames)) frames) (written, log)
      = (Raise e, (written', log))
      /\ (forall i frame, i < k -> nth_error frames i = Some frame ->
            written' (frame_path input_path output_dir (s + i)) = Some frame)
      /\ (forall q,
            (forall i, i < k -> frame_path input_path output_dir (s + i) <> q) ->
            written' q = written q).
Proof.
  induction frames as [|f frames IH];
    intros s k frame_k e written log Hk Hraise Hbefore.
  - destruct k; discriminate.
  - cbn [length seq combine SplitTif.save_frames]. unfold bind, call, assign.
    change (path_join output_dir (stem ++ "_" ++ decimal s ++ ".tif"))
      with (frame_path input_path output_dir s).
    destruct k as [|k].
    + injection Hk as ->. rewrite Nat.add_0_r in Hraise. rewrite Hraise.
      exists written. split; [reflexivity|]. split; [intros; lia|reflexivity].
    + pose proof (Hbefore 0 f (Nat.lt_0_succ k) eq_refl) as H0.
      rewrite Nat.add_0_r in H0. rewrite H0. cbn [fst snd].
      destruct (IH (S s) k frame_k e
                  (SplitTif.write Frame (frame_path input_path output_dir s)
                     f written) log Hk)
        as [written' [Hrun [Hin Hout]]].
      * now rewrite Nat.add_succ_comm.
      * intros i frame Hi Hn. rewrite Nat.add_succ_comm.
        apply Hbefore; [lia|exact Hn].
      * exists written'. split; [exact Hrun|]. split.
        -- intros [|i] frame Hi Hn.
           ++ injection Hn as <-. rewrite Nat.add_0_r, Hout.
              ** unfold SplitTif.write. now rewrite String.eqb_refl.
              ** intros j _ E. apply frame_path_inj in E. lia.
           ++ rewrite <- Nat.add_succ_comm. apply Hin; [lia|exact Hn].
        -- intros q Hq. rewrite Hout.
           ++ unfold SplitTif.write.
              destruct (String.eqb_spec q (frame_path input_path output_dir s))
                as [E|_]; [|reflexivity].
              exfalso. apply (Hq 0 (Nat.lt_0_succ k)).
              now rewrite Nat.add_0_r.
           ++ intros i Hi. rewrite Nat.add_succ_comm. apply Hq. lia.
Qed.

(** X15: when saving frame [k] raises, [split_tif] logs that exception and
    returns normally; the frames before [k] stay written to their paths and
    nothing else is written, the later frames are never saved. *)
Theorem split_tif_stops_at_failed_save :
  forall (written : SplitTif.files Frame) log (frames : list Frame)
         k frame_k e,
    SplitTif.image_open Frame env input_path = Ok frames ->
    nth_error frames k = Some frame_k ->
    SplitTif.save Frame env (frame_path input_path output_dir k) frame_k
    = Raise e ->
    (forall i frame, i < k -> nth_error frames i = Some frame ->
       SplitTif.save Frame env (frame_path input_path output_dir i) frame
       = Ok tt) ->
    exists written',
      SplitTif.split_tif Frame env input_path output_dir (written, log)
      = (Ok tt,
         (written', log ++ [LogError "Error splitting TIF file" e]))
      /\ (forall i frame, i < k -> nth_error frames i = Some frame ->
            written' (frame_path input_path output_dir i) = Some frame)
      /\ (forall q,
            (forall i, i < k -> frame_path input_path output_dir i <> q) ->
            written' q = written q).
Proof.
  intros written log frames k frame_k e Hopen Hk Hraise Hbefore.
  destruct (save_frames_first_failure frames 0 k frame_k e written log
              Hk Hraise Hbefore) as [written' [Hrun [Hin Hout]]].
  exists written'. split; [|split; assumption].
  unfold SplitTif.split_tif, SplitTif.split_body, try_except.
  cbv zeta. rewrite bind_call, Hopen.
  unfold bind, logging_error. fold stem. now rewrite Hrun.
Qed.
End SplitTifFacts.

(** ** The splitting script's [main] *)


Lemma split_tif_saves_every_frame_witness :
  exists written',
    SplitTif.split_tif nat (sample_tiff "") "/in/stack.tif" "/out"
      (fun _ => None, [])
    = (Ok tt,
       (written', [LogInfo "Successfully split and saved images to /out"]))
    /\ (forall i frame, nth_error [10; 20] i = Some frame ->
          written' (frame_path "/in/stack.tif" "/out" i) = Some frame)
    /\ (forall q,
          (forall i, i < 2 -> frame_path "/in/stack.tif" "/out" i <> q) ->
          written' q = None).
Proof.
  apply (split_tif_saves_every_frame nat (sample_tiff "") "/in/stack.tif"
           "/out" (fun _ => None) [] [10; 20]).
  - reflexivity.
  - intros [|[|i]] frame H; [reflexivity|reflexivity|].
    destruct i; discriminate.
Defined.

Lemma split_tif_stops_at_failed_save_witness :
  exists written',
    SplitTif.split_tif nat (sample_tiff "/out/stack_1.tif") "/in/stack.tif"
      "/out" (fun _ => None, [])
    = (Ok tt, (written', [LogError "Error splitting TIF file" ValueError]))
    /\ (forall i frame, i < 1 -> nth_error [10; 20] i = Some frame ->
          written' (frame_path "/in/stack.tif" "/out" i) = Some frame)
    /\ (forall q,
          (forall i, i < 1 -> frame_path "/in/stack.tif" "/out" i <> q) ->
          written' q = None).
Proof.
  apply (split_tif_stops_at_failed_save nat (sample_tiff "/out/stack_1.tif")
           "/in/stack.tif" "/out" (fun _ => None) [] [10; 20] 1 20 ValueError).
  - reflexivity.
  - reflexivity.
  - reflexivity.
  - intros [|i] frame Hi H; [reflexivity|lia].
Defined.
